(** * openMSX: bus dispatcher, AMD flash and PAC cartridge

    A shallow embedding of
      - src/cpu/MSXMultiMemDevice.cc  (module [MSXMultiMemDevice]),
      - src/memory/AmdFlash.cc        (module [AmdFlash]),
      - src/memory/MSXPac.cc          (module [MSXPac]),
    with the properties of the specification stated over it.

    Conventions.  C++ [unsigned] values are [Z] with the wrap-around modulo
    2^32 written out ([u32]); [byte] and [word] values are [Z] in their
    range.  A failing [assert], an [UNREACHABLE] and an out-of-range access
    are modelled as an aborted call that leaves the state as it was at the
    point of failure. *)

From Stdlib Require Import ZArith Lia List Bool.
From stdpp Require Import base option list.
Import ListNotations.
Local Open Scope Z_scope.

(** ** Machine integers and outcomes *)

(** Conversion to (and arithmetic in) the 32-bit [unsigned] type. *)
Definition u32 (z : Z) : Z := z mod 4294967296.

(** [MSXDevice*]: devices are compared by address only. *)
Definition MSXDevicePtr : Type := N.

(** What ends a call early: the two failing assertions of the dispatcher
    (named after the error they report), [UNREACHABLE], any other failing
    assertion, and an access outside an array. *)
Inductive fault : Type :=
  | OverlapViolation
  | NotFound
  | Unreachable
  | AssertionFailed
  | OutOfRange.

Inductive outcome (A : Type) : Type :=
  | Done (a : A)
  | Abort (f : fault).
Arguments Done {A} a.
Arguments Abort {A} f.

(** [MSXCPU::invalidateMemCache(start, size)] is not part of the embedded
    files; a call is recorded as an event. *)
Record Invalidate : Type := mkInvalidate { inv_start : Z; inv_size : Z }.

(** Calls that can abort but leave no state behind compose as usual. *)
Definition obind {A B : Type} (c : outcome A) (k : A -> outcome B) : outcome B :=
  match c with
  | Done a => k a
  | Abort f => Abort f
  end.

(** [a[i]] on an array or vector; an index outside it aborts the call. *)
Definition at_index {A : Type} (a : list A) (i : Z) : outcome A :=
  if i <? 0 then Abort OutOfRange
  else match a !! Z.to_nat i with
       | Some x => Done x
       | None => Abort OutOfRange
       end.

(** ** The bus dispatcher *)

Module MSXMultiMemDevice.

(** [struct Range { unsigned base; unsigned size; MSXDevice* device; }] *)
Record Range : Type := mkRange { base : Z; size : Z; device : MSXDevicePtr }.

(** [Range::Range(unsigned base_, unsigned size_, MSXDevice& device_)];
    the callers pass [int]s, which are converted to [unsigned]. *)
Definition Range_ctor (base_ size_ : Z) (device_ : MSXDevicePtr) : Range :=
  mkRange (u32 base_) (u32 size_) device_.

(** [Range::operator==] *)
Definition Range_eqb (r other : Range) : bool :=
  (base r =? base other) && (size r =? size other) &&
  (device r =? device other)%N.

(** The state of the dispatcher is its vector [ranges]. *)
Abbreviation Ranges := (list Range).

(** The constructor: only the sentinel, owned by the dummy device. *)
Definition sentinel (dummy : MSXDevicePtr) : Range :=
  Range_ctor 0 65536 dummy.

Definition MSXMultiMemDevice_ctor (dummy : MSXDevicePtr) : Ranges :=
  [] ++ [sentinel dummy].

(** [static bool isInside(unsigned x, unsigned start, unsigned size)] *)
Definition isInside (x start size : Z) : bool :=
  u32 (x - start) <? size.

(** [static bool overlap(start1, size1, start2, size2)] *)
Definition overlap (start1 size1 start2 size2 : Z) : bool :=
  isInside start1 start2 size2 ||
  isInside (u32 (u32 (start1 + size1) - 1)) start2 size2.

(** The loop of [canAdd]: [i] runs over [count] indices; [None] is an access
    outside the vector. *)
Fixpoint canAdd_loop (ranges : Ranges) (base_ size_ : Z) (i count : nat)
  : option bool :=
  match count with
  | O => Some true
  | S count' =>
      match ranges !! i with
      | None => None
      | Some r =>
          if overlap base_ size_ (base r) (size r) then Some false
          else canAdd_loop ranges base_ size_ (S i) count'
      end
  end.

(** [bool canAdd(int base, int size)]: all entries but the last one are
    inspected.  On an empty vector [ranges.size() - 1] wraps around and
    [ranges[0]] is outside the vector. *)
Definition canAdd (ranges : Ranges) (base_ size_ : Z) : option bool :=
  match ranges with
  | [] => None
  | _ :: _ =>
      canAdd_loop ranges (u32 base_) (u32 size_) 0 (length ranges - 1)%nat
  end.

(** [void add(MSXDevice& device, int base, int size)] *)
Definition add (device_ : MSXDevicePtr) (base_ size_ : Z) (ranges : Ranges)
  : outcome unit * Ranges :=
  match canAdd ranges base_ size_ with
  | None => (Abort OutOfRange, ranges)
  | Some false => (Abort OverlapViolation, ranges)
  | Some true => (Done tt, Range_ctor base_ size_ device_ :: ranges)
  end.

(** [find(ranges.begin(), ranges.end(), value)]: the position of the first
    element equal to [value], or [None] for [ranges.end()]. *)
Fixpoint find_pos (value : Range) (ranges : Ranges) : option nat :=
  match ranges with
  | [] => None
  | r :: rest =>
      if Range_eqb r value then Some O
      else match find_pos value rest with
           | Some i => Some (S i)
           | None => None
           end
  end.

(** [void remove(MSXDevice& device, int base, int size)] *)
Definition remove (device_ : MSXDevicePtr) (base_ size_ : Z) (ranges : Ranges)
  : outcome unit * Ranges :=
  match find_pos (Range_ctor base_ size_ device_) ranges with
  | None => (Abort NotFound, ranges)
  | Some it => (Done tt, delete it ranges)
  end.

(** [bool empty() const] *)
Definition empty (ranges : Ranges) : bool :=
  (length ranges =? 1)%nat.

(** [const Range& searchRange(unsigned address) const]; [None] stands for
    reaching [UNREACHABLE]. *)
Fixpoint searchRange (ranges : Ranges) (address : Z) : option Range :=
  match ranges with
  | [] => None
  | r :: rest =>
      if isInside address (base r) (size r) then Some r
      else searchRange rest address
  end.

(** [MSXDevice* searchDevice(unsigned address) const] *)
Definition searchDevice (ranges : Ranges) (address : Z) : option MSXDevicePtr :=
  match searchRange ranges address with
  | Some r => Some (device r)
  | None => None
  end.

(** The virtual accessors of [MSXDevice], called through a device pointer.
    [World] is the state of all the devices of the machine. *)
Class MSXDevice (World : Type) : Type := {
  dev_readMem : MSXDevicePtr -> Z -> Z -> World -> outcome Z * World;
  dev_peekMem : MSXDevicePtr -> Z -> Z -> World -> outcome Z;
  dev_writeMem : MSXDevicePtr -> Z -> Z -> Z -> World -> outcome unit * World
}.

Section Accessors.
Context {World : Type} `{MSXDevice World}.

(** [byte readMem(word address, EmuTime::param time)] *)
Definition readMem (ranges : Ranges) (address time : Z) (w : World)
  : outcome Z * World :=
  match searchDevice ranges address with
  | None => (Abort Unreachable, w)
  | Some d => dev_readMem d address time w
  end.

(** [byte peekMem(word address, EmuTime::param time) const] *)
Definition peekMem (ranges : Ranges) (address time : Z) (w : World)
  : outcome Z :=
  match searchDevice ranges address with
  | None => Abort Unreachable
  | Some d => dev_peekMem d address time w
  end.

(** [void writeMem(word address, byte value, EmuTime::param time)] *)
Definition writeMem (ranges : Ranges) (address value time : Z) (w : World)
  : outcome unit * World :=
  match searchDevice ranges address with
  | None => (Abort Unreachable, w)
  | Some d => dev_writeMem d address value time w
  end.
End Accessors.

(** A sequence of [add] calls, oldest first; it stops at the first call that
    is refused. *)
Fixpoint add_all (reqs : list (MSXDevicePtr * Z * Z)) (ranges : Ranges)
  : outcome unit * Ranges :=
  match reqs with
  | [] => (Done tt, ranges)
  | (d, b, s) :: rest =>
      match add d b s ranges with
      | (Done _, ranges') => add_all rest ranges'
      | (Abort f, ranges') => (Abort f, ranges')
      end
  end.

(** The half-open ranges [[b1, b1+s1)] and [[b2, b2+s2)] share an address. *)
Definition intersects (b1 s1 b2 s2 : Z) : Prop :=
  exists a, b1 <= a < b1 + s1 /\ b2 <= a < b2 + s2.

(** The entries that [canAdd] compares the request with. *)
Definition clear_of (base_ size_ : Z) (r : Range) : bool :=
  negb (overlap base_ size_ (base r) (size r)).

(** A request or an entry that lies in the 32-bit address space without
    wrapping around. *)
Definition fits (b s : Z) : Prop :=
  0 <= b /\ 0 <= s < 4294967296 /\ b + s <= 4294967296.

(** The loop of [getDevices]: [i] runs over [count] indices; [None] is an
    access outside the vector. *)
Fixpoint getDevices_loop (ranges : Ranges) (i count : nat)
  : option (list MSXDevicePtr) :=
  match count with
  | O => Some []
  | S count' =>
      match ranges !! i with
      | None => None
      | Some r =>
          match getDevices_loop ranges (S i) count' with
          | Some result => Some (device r :: result)
          | None => None
          end
      end
  end.

(** [std::vector<MSXDevice*> getDevices() const]: the devices of all entries
    but the last one, in the order of the table. *)
Definition getDevices (ranges : Ranges) : option (list MSXDevicePtr) :=
  match ranges with
  | [] => None
  | _ :: _ => getDevices_loop ranges 0 (length ranges - 1)%nat
  end.

(** The virtual functions [getReadCacheLine] and [getWriteCacheLine] of
    [MSXDevice], called through a device pointer; [None] is [nullptr]. *)
Class MSXDeviceCache (World RPtr WPtr : Type) : Type := {
  dev_getReadCacheLine : MSXDevicePtr -> Z -> World -> outcome (option RPtr);
  dev_getWriteCacheLine : MSXDevicePtr -> Z -> World -> outcome (option WPtr)
}.

(** [CacheLine::HIGH] is declared in CacheLine.hh, which is not among the
    embedded files; it is a parameter of the two functions that use it. *)
Section CacheLines.
Context {World RPtr WPtr : Type} `{MSXDeviceCache World RPtr WPtr}.
Variable HIGH : Z.

(** [const byte* getReadCacheLine(word start) const] *)
Definition getReadCacheLine (ranges : Ranges) (start : Z) (w : World)
  : outcome (option RPtr) :=
  if Z.land start HIGH =? start then
    match searchRange ranges start with
    | None => Abort Unreachable
    | Some range =>
        if Z.land (u32 (base range + size range)) HIGH =? start
        then Done None
        else match searchDevice ranges start with
             | None => Abort Unreachable
             | Some d => dev_getReadCacheLine d start w
             end
    end
  else Abort AssertionFailed.

(** [byte* getWriteCacheLine(word start) const] *)
Definition getWriteCacheLine (ranges : Ranges) (start : Z) (w : World)
  : outcome (option WPtr) :=
  if Z.land start HIGH =? start then
    match searchRange ranges start with
    | None => Abort Unreachable
    | Some range =>
        if Z.land (u32 (base range + size range)) HIGH =? start
        then Done None
        else match searchDevice ranges start with
             | None => Abort Unreachable
             | Some d => dev_getWriteCacheLine d start w
             end
    end
  else Abort AssertionFailed.
End CacheLines.

(** An entry that lies in the 16-bit address space and starts on a cache
    line. *)
Definition line_aligned_entry (HIGH : Z) (q : Range) : Prop :=
  0 <= base q /\ 0 <= size q /\ base q + size q <= 65536 /\
  Z.land (base q) HIGH = base q.

(** The request of [canAdd] reaches around the entry [r] without touching
    it with its first or last address. *)
Definition encloses (b s : Z) (r : Range) : Prop :=
  0 < size r /\ b < base r /\ base r + size r < b + s.

End MSXMultiMemDevice.

(** ** The AMD flash chip *)

Module AmdFlash.

(** [enum State { ST_IDLE, ST_IDENT }] *)
Inductive State : Type := ST_IDLE | ST_IDENT.

Definition State_eqb (a b : State) : bool :=
  match a, b with
  | ST_IDLE, ST_IDLE | ST_IDENT, ST_IDENT => true
  | _, _ => false
  end.

(** [struct AmdCmd { unsigned addr; byte value; }] *)
Record AmdCmd : Type := mkAmdCmd { addr : Z; value : Z }.

(** [struct SectorInfo { unsigned size; bool writeProtected; }] *)
Record SectorInfo : Type := mkSectorInfo { sec_size : Z; writeProtected : bool }.

(** A [const byte*] of [readAddress]: null, into the SRAM, or into the ROM. *)
Inductive BytePtr : Type :=
  | NullPtr
  | RamPtr (offset : Z)
  | RomPtr (offset : Z).

(** The members of [AmdFlash], the bytes of the [Rom] that [readAddress]
    points into, and the cache-invalidation calls made on the CPU so far
    (oldest first). *)
Record Flash : Type := mkFlash {
  sectorInfo : list SectorInfo;
  writeAddress : list Z;
  readAddress : list BytePtr;
  rom : list Z;
  size : Z;
  ID : Z;
  use12bitAddressing : bool;
  ram : option (list Z);
  cmd : list AmdCmd;
  cmdIdx : Z;
  state : State;
  vppWpPinLow : bool;
  invalidated : list Invalidate
}.

Definition set_state (st : State) (f : Flash) : Flash :=
  mkFlash (sectorInfo f) (writeAddress f) (readAddress f) (rom f) (size f)
          (ID f) (use12bitAddressing f) (ram f) (cmd f) (cmdIdx f) st
          (vppWpPinLow f) (invalidated f).

Definition set_cmdIdx (n : Z) (f : Flash) : Flash :=
  mkFlash (sectorInfo f) (writeAddress f) (readAddress f) (rom f) (size f)
          (ID f) (use12bitAddressing f) (ram f) (cmd f) n (state f)
          (vppWpPinLow f) (invalidated f).

Definition set_cmd (c : list AmdCmd) (f : Flash) : Flash :=
  mkFlash (sectorInfo f) (writeAddress f) (readAddress f) (rom f) (size f)
          (ID f) (use12bitAddressing f) (ram f) c (cmdIdx f) (state f)
          (vppWpPinLow f) (invalidated f).

Definition set_ram (r : option (list Z)) (f : Flash) : Flash :=
  mkFlash (sectorInfo f) (writeAddress f) (readAddress f) (rom f) (size f)
          (ID f) (use12bitAddressing f) r (cmd f) (cmdIdx f) (state f)
          (vppWpPinLow f) (invalidated f).

(** [motherBoard.getCPU().invalidateMemCache(start, size)] *)
Definition invalidateMemCache (start size_ : Z) (f : Flash) : Flash :=
  mkFlash (sectorInfo f) (writeAddress f) (readAddress f) (rom f) (size f)
          (ID f) (use12bitAddressing f) (ram f) (cmd f) (cmdIdx f) (state f)
          (vppWpPinLow f) (invalidated f ++ [mkInvalidate start size_]).

(** Member functions that change the flash and can abort. *)
Definition M (A : Type) : Type := Flash -> outcome (A * Flash).

Definition ret {A : Type} (a : A) : M A := fun f => Done (a, f).

Definition bind {A B : Type} (c : M A) (k : A -> M B) : M B :=
  fun f => match c f with
           | Done (a, f') => k a f'
           | Abort e => Abort e
           end.

(** A [const] member function run inside one that is not. *)
Definition lift {A : Type} (c : Flash -> outcome A) : M A :=
  fun f => match c f with
           | Done a => Done (a, f)
           | Abort e => Abort e
           end.

Definition modify (g : Flash -> Flash) : M unit := fun f => Done (tt, g f).

(** [c1 || c2] with its short-circuit evaluation. *)
Definition orElse (c1 c2 : M bool) : M bool :=
  bind c1 (fun b => if b then ret true else c2).

(** The loop of [getSectorInfo]: [it] walks the sectors; running off the end
    fails the assertion [it != end(sectorInfo)]. *)
Fixpoint getSectorInfo_loop (it : list SectorInfo) (address sector : Z)
  : outcome (Z * Z * Z) :=
  match it with
  | [] => Abort AssertionFailed
  | si :: it' =>
      if sec_size si <=? address
      then getSectorInfo_loop it' (address - sec_size si) (u32 (sector + 1))
      else Done (sector, sec_size si, address)
  end.

(** [void getSectorInfo(address, sector&, sectorSize&, offset&) const]
    gives [(sector, sectorSize, offset)]. *)
Definition getSectorInfo (f : Flash) (address : Z) : outcome (Z * Z * Z) :=
  getSectorInfo_loop (sectorInfo f) (Z.land address (u32 (size f - 1))) 0.

(** [void setState(State newState)] *)
Definition setState (newState : State) (f : Flash) : Flash :=
  if State_eqb (state f) newState then f
  else invalidateMemCache 0 65536 (set_state newState f).

(** [void reset()] *)
Definition reset (f : Flash) : Flash :=
  setState ST_IDLE (set_cmdIdx 0 f).

(** The expression of [isSectorWritable] over the two members it reads. *)
Definition sectorWritable (vpp : bool) (wa : list Z) (sector : Z)
  : outcome bool :=
  if vpp && ((sector =? 0) || (sector =? 1)) then Done false
  else obind (at_index wa sector) (fun w => Done (negb (w =? -1))).

(** [bool isSectorWritable(unsigned sector) const] *)
Definition isSectorWritable (f : Flash) (sector : Z) : outcome bool :=
  sectorWritable (vppWpPinLow f) (writeAddress f) sector.

(** [addr[offset]] for a pointer of [readAddress] that is not null. *)
Definition deref (f : Flash) (p : BytePtr) (offset : Z) : outcome Z :=
  match p with
  | NullPtr => Abort OutOfRange
  | RamPtr o =>
      match ram f with
      | Some bytes => at_index bytes (o + offset)
      | None => Abort OutOfRange
      end
  | RomPtr o => at_index (rom f) (o + offset)
  end.

(** [byte peek(unsigned address) const] *)
Definition peek (f : Flash) (address : Z) : outcome Z :=
  obind (getSectorInfo f address) (fun '(sector, sectorSize, offset) =>
  match state f with
  | ST_IDLE =>
      obind (at_index (readAddress f) sector) (fun p =>
      match p with
      | NullPtr => Done 255
      | _ => deref f p offset
      end)
  | ST_IDENT =>
      let address := if use12bitAddressing f then Z.shiftr address 1
                     else address in
      match Z.land address 3 with
      | 0 => Done (Z.shiftr (ID f) 8 mod 256)
      | 1 => Done (Z.land (ID f) 255)
      | 2 => obind (isSectorWritable f sector)
                   (fun w => Done (if w then 0 else 1))
      | _ => Done 1
      end
  end).

(** [byte read(unsigned address)] *)
Definition read (address : Z) : M Z :=
  lift (fun f => peek f address).

(** [ram->memset(addr, c, size)] *)
Definition SRAM_memset (address c n : Z) : M unit :=
  fun f => match ram f with
           | None => Abort OutOfRange
           | Some bytes =>
               if (address <? 0) || (n <? 0) ||
                  (Z.of_nat (length bytes) <? address + n)
               then Abort OutOfRange
               else Done (tt, set_ram
                        (Some (take (Z.to_nat address) bytes ++
                               replicate (Z.to_nat n) c ++
                               drop (Z.to_nat (address + n)) bytes)) f)
           end.

(** [ram[addr]], the read access of the SRAM *)
Definition SRAM_get (address : Z) : M Z :=
  lift (fun f => match ram f with
                 | None => Abort OutOfRange
                 | Some bytes => at_index bytes address
                 end).

(** [ram->write(addr, value)] *)
Definition SRAM_write (address v : Z) : M unit :=
  fun f => match ram f with
           | None => Abort OutOfRange
           | Some bytes =>
               if (address <? 0) || (Z.of_nat (length bytes) <=? address)
               then Abort OutOfRange
               else Done (tt, set_ram
                        (Some (<[Z.to_nat address := v]> bytes)) f)
           end.

(** The tables of [partialMatch]. *)
Definition addrSeq : list Z := [0; 1; 0; 0; 1].
Definition cmdAddr : list Z := [1365; 682].

(** The loop of [partialMatch]: [count] iterations left, at index [i]. *)
Fixpoint partialMatch_loop (f : Flash) (dataSeq : list Z) (i : Z) (count : nat)
  : outcome bool :=
  match count with
  | O => Done true
  | S count' =>
      obind (at_index (cmd f) i) (fun c =>
      obind (at_index addrSeq i) (fun k =>
      obind (at_index cmdAddr k) (fun expected =>
      obind (at_index dataSeq i) (fun d =>
        let a := if use12bitAddressing f then Z.shiftr (addr c) 1
                 else addr c in
        if negb (Z.land a 2047 =? expected) || negb (value c =? d)
        then Done false
        else partialMatch_loop f dataSeq (i + 1) count'))))
  end.

(** [bool partialMatch(size_t len, const byte* dataSeq) const] *)
Definition partialMatch (len : Z) (dataSeq : list Z) (f : Flash)
  : outcome bool :=
  if len <=? 5
  then partialMatch_loop f dataSeq 0
         (Z.to_nat (Z.min (u32 len) (cmdIdx f)))
  else Abort AssertionFailed.

Notation "x <- c1 ;; c2" := (bind c1 (fun x => c2))
  (at level 100, c1 at next level, right associativity).
Notation "c1 ;;; c2" := (bind c1 (fun _ => c2))
  (at level 100, right associativity).

(** [bool checkCommandReset()] *)
Definition checkCommandReset : M bool :=
  c0 <- lift (fun f => at_index (cmd f) 0) ;;
  (if value c0 =? 240 then modify reset else ret tt) ;;;
  ret false.

(** The body of [if (cmd[5].value == 0x30) { ... }] in
    [checkCommandEraseSector]. *)
Definition eraseSector (c5 : AmdCmd) : M unit :=
  si <- lift (fun f => getSectorInfo f (addr c5)) ;;
  let '(sector, sectorSize, offset) := si in
  w <- lift (fun f => isSectorWritable f sector) ;;
  if w : bool then
    wa <- lift (fun f => at_index (writeAddress f) sector) ;;
    SRAM_memset (u32 wa) 255 sectorSize
  else ret tt.

(** [bool checkCommandEraseSector()] *)
Definition checkCommandEraseSector : M bool :=
  m <- lift (partialMatch 5 [170; 85; 128; 170; 85]) ;;
  if m : bool then
    idx <- lift (fun f => Done (cmdIdx f)) ;;
    if idx <? 6 then ret true
    else
      c5 <- lift (fun f => at_index (cmd f) 5) ;;
      (if value c5 =? 48 then eraseSector c5 else ret tt) ;;;
      ret false
  else ret false.

(** [bool checkCommandEraseChip()] *)
Definition checkCommandEraseChip : M bool :=
  m <- lift (partialMatch 5 [170; 85; 128; 170; 85]) ;;
  if m : bool then
    idx <- lift (fun f => Done (cmdIdx f)) ;;
    if idx <? 6 then ret true
    else
      c5 <- lift (fun f => at_index (cmd f) 5) ;;
      (if value c5 =? 16 then
         r <- lift (fun f => Done (ram f)) ;;
         match r with
         | Some bytes => SRAM_memset 0 255 (Z.of_nat (length bytes))
         | None => ret tt
         end
       else ret tt) ;;;
      ret false
  else ret false.

(** One iteration of the loop of [checkCommandProgramHelper]. *)
Definition programByte (i : Z) : M unit :=
  c <- lift (fun f => at_index (cmd f) i) ;;
  si <- lift (fun f => getSectorInfo f (addr c)) ;;
  let '(sector, sectorSize, offset) := si in
  w <- lift (fun f => isSectorWritable f sector) ;;
  if w : bool then
    wa <- lift (fun f => at_index (writeAddress f) sector) ;;
    let ramAddr := u32 (wa + offset) in
    old <- SRAM_get ramAddr ;;
    SRAM_write ramAddr (Z.land old (value c))
  else ret tt.

(** The loop [for (i = cmdLen; i < cmdLen + numBytes; ++i)], with [count]
    iterations left. *)
Fixpoint program_loop (i : Z) (count : nat) : M unit :=
  match count with
  | O => ret tt
  | S count' => programByte i ;;; program_loop (i + 1) count'
  end.

(** [bool checkCommandProgramHelper(numBytes, cmdSeq, cmdLen)] *)
Definition checkCommandProgramHelper (numBytes : Z) (cmdSeq : list Z)
    (cmdLen : Z) : M bool :=
  m <- lift (partialMatch cmdLen cmdSeq) ;;
  if m : bool then
    idx <- lift (fun f => Done (cmdIdx f)) ;;
    if idx <? cmdLen + numBytes then ret true
    else program_loop cmdLen (Z.to_nat numBytes) ;;; ret false
  else ret false.

(** [bool checkCommandProgram()] *)
Definition checkCommandProgram : M bool :=
  checkCommandProgramHelper 1 [170; 85; 160] 3.

(** [bool checkCommandDoubleByteProgram()] *)
Definition checkCommandDoubleByteProgram : M bool :=
  checkCommandProgramHelper 2 [80] 1.

(** [bool checkCommandQuadrupleByteProgram()] *)
Definition checkCommandQuadrupleByteProgram : M bool :=
  checkCommandProgramHelper 4 [86] 1.

(** [bool checkCommandManufacturer()] *)
Definition checkCommandManufacturer : M bool :=
  m <- lift (partialMatch 3 [170; 85; 144]) ;;
  if m : bool then
    idx <- lift (fun f => Done (cmdIdx f)) ;;
    (if idx =? 3 then modify (setState ST_IDENT) else ret tt) ;;;
    if idx <? 4 then ret true else ret false
  else ret false.

(** The condition of the [if] in [write]: the seven checks joined by [||],
    in the order of the source. *)
Definition checks : M bool :=
  orElse checkCommandManufacturer
  (orElse checkCommandEraseSector
  (orElse checkCommandProgram
  (orElse checkCommandDoubleByteProgram
  (orElse checkCommandQuadrupleByteProgram
  (orElse checkCommandEraseChip
          checkCommandReset))))).

(** The command buffer is [AmdCmd cmd[MAX_CMD_SIZE]]; the constant is
    declared in AmdFlash.hh, which is not among the embedded files. *)
Section Write.
Variable MAX_CMD_SIZE : Z.

(** [void write(unsigned address, byte value)] *)
Definition write (address value_ : Z) : M unit :=
  idx <- lift (fun f => Done (cmdIdx f)) ;;
  if idx <? MAX_CMD_SIZE then
    (fun f =>
       if Z.to_nat idx <? length (cmd f) then
         Done (tt, set_cmdIdx (u32 (idx + 1))
                     (set_cmd (<[Z.to_nat idx := mkAmdCmd address value_]>
                                 (cmd f)) f))
       else Abort OutOfRange)%nat ;;;
    matching <- checks ;;
    if matching : bool then ret tt else modify reset
  else (fun _ => Abort AssertionFailed).

(** A sequence of [write] calls, as [(address, value)] pairs. *)
Fixpoint write_all (ws : list (Z * Z)) : M unit :=
  match ws with
  | [] => ret tt
  | (a, v) :: rest => write a v ;;; write_all rest
  end.
End Write.

(** Conversion of an [unsigned] to [int]. *)
Definition i32 (z : Z) : Z := (z + 2147483648) mod 4294967296 - 2147483648.

(** The first loop of [init]: it fills [writeAddress] and adds up
    [writableSize] and [readOnlySize]; the result is
    [(writeAddress, writableSize, readOnlySize)]. *)
Fixpoint init_writeAddress (sectors : list SectorInfo)
    (writableSize readOnlySize : Z) : list Z * Z * Z :=
  match sectors with
  | [] => ([], writableSize, readOnlySize)
  | si :: rest =>
      if writeProtected si then
        let '(wa, w, r) :=
          init_writeAddress rest writableSize
                            (u32 (readOnlySize + sec_size si)) in
        (-1 :: wa, w, r)
      else
        let '(wa, w, r) :=
          init_writeAddress rest (u32 (writableSize + sec_size si))
                            readOnlySize in
        (i32 writableSize :: wa, w, r)
  end.

(** [sum(view::transform(sectorInfo, [](auto& i) { return i.size; }))] *)
Definition sum_sizes (sectors : list SectorInfo) : Z :=
  fold_left (fun acc si => u32 (acc + sec_size si)) sectors 0.

(** The second loop of [init], as far as [readAddress] goes: sector [i]
    starts at [offset]; a writable sector is read from the SRAM, another one
    from the ROM when the ROM covers it.  [vpp] is the value of
    [vppWpPinLow] when [init] runs. *)
Fixpoint init_readAddress (vpp : bool) (wa : list Z) (romSize : Z)
    (it : list SectorInfo) (i offset : Z) : outcome (list BytePtr) :=
  match it with
  | [] => Done []
  | si :: it' =>
      obind (sectorWritable vpp wa i) (fun w =>
      obind (if w : bool
             then obind (at_index wa i) (fun a => Done (RamPtr (u32 a)))
             else Done (if u32 (offset + sec_size si) <=? romSize
                        then RomPtr offset else NullPtr)) (fun p =>
      obind (init_readAddress vpp wa romSize it' (u32 (i + 1))
                              (u32 (offset + sec_size si))) (fun ps =>
      Done (p :: ps))))
  end.

(** The sizes of the sectors added up without wrap-around. *)
Definition total_size (sectors : list SectorInfo) : Z :=
  fold_right (fun si acc => sec_size si + acc) 0 sectors.

(** What the constructor and [init] leave behind and no member function
    changes: the flash is not empty and smaller than 2 GB, [size] is the sum
    of the sector sizes, [writeAddress] and [readAddress] are as the loops of
    [init] fill them, the SRAM has [writableSize] bytes, and the command
    buffer has [MAX_CMD_SIZE] entries. *)
Record initialised (MAX_CMD_SIZE : Z) (f : Flash) : Prop := {
  init_sectors : Forall (fun si => 0 <= sec_size si) (sectorInfo f);
  init_count : Z.of_nat (length (sectorInfo f)) < 4294967296;
  init_total : 0 < total_size (sectorInfo f) < 2147483648;
  init_size : size f = sum_sizes (sectorInfo f);
  init_write : writeAddress f = (init_writeAddress (sectorInfo f) 0 0).1.1;
  init_ram :
    (init_writeAddress (sectorInfo f) 0 0).1.2 <> 0 ->
    exists bytes,
      ram f = Some bytes /\
      Z.of_nat (length bytes) = (init_writeAddress (sectorInfo f) 0 0).1.2;
  init_read :
    exists vpp,
      init_readAddress vpp (writeAddress f) (Z.of_nat (length (rom f)))
                       (sectorInfo f) 0 0 = Done (readAddress f);
  init_cmd : Z.of_nat (length (cmd f)) = MAX_CMD_SIZE;
  init_cmdIdx : 0 <= cmdIdx f
}.

(** A total-correctness triple for [M]: from a flash that satisfies [P], the
    call [c] returns, with a result and a flash that satisfy [Q]. *)
Definition total {A : Type} (P : Flash -> Prop) (c : M A)
    (Q : A -> Flash -> Prop) : Prop :=
  forall f, P f -> exists a f', c f = Done (a, f') /\ Q a f'.

(** The flash is as [init] left it and its command index is [n]. *)
Definition at_idx (MAX_CMD_SIZE n : Z) (f : Flash) : Prop :=
  initialised MAX_CMD_SIZE f /\ cmdIdx f = n.

(** A check that answers true has found the command index below 6 and has
    not moved it. *)
Definition still_matching (MAX_CMD_SIZE n : Z) (b : bool) (f : Flash)
  : Prop :=
  at_idx MAX_CMD_SIZE n f /\ (b = true -> n <= 5).

(** After the checks: either a command is still being matched, at a command
    index that has not moved and is below 6, or none is, and the index has
    not moved or is 0. *)
Definition after_checks (MAX_CMD_SIZE n : Z) (b : bool) (f : Flash) : Prop :=
  initialised MAX_CMD_SIZE f /\
  (if b then cmdIdx f = n /\ n <= 5 else cmdIdx f = n \/ cmdIdx f = 0).

(** The state between two [write] calls. *)
Definition between_writes (MAX_CMD_SIZE : Z) (f : Flash) : Prop :=
  initialised MAX_CMD_SIZE f /\ 0 <= cmdIdx f <= 5.

(** What [getReadCacheLine] returns: [nullptr], [&addr[offset]] for a pointer
    [addr] of [readAddress] that is not null, or [MSXDevice::unmappedRead]. *)
Inductive ReadLine : Type :=
  | ReadNull
  | ReadData (addr_ : BytePtr) (offset : Z)
  | ReadUnmapped.

(** [const byte* getReadCacheLine(unsigned address) const] *)
Definition getReadCacheLine (f : Flash) (address : Z) : outcome ReadLine :=
  match state f with
  | ST_IDLE =>
      obind (getSectorInfo f address) (fun '(sector, sectorSize, offset) =>
      obind (at_index (readAddress f) sector) (fun p =>
      Done (match p with
            | NullPtr => ReadUnmapped
            | _ => ReadData p offset
            end)))
  | ST_IDENT => Done ReadNull
  end.

(** [static bool sramEmpty(const SRAM& ram)]: every index of the SRAM is
    visited. *)
Definition sramEmpty (bytes : list Z) : bool :=
  forallb (fun i => match bytes !! i with
                    | Some b => b =? 255
                    | None => false
                    end)
          (seq 0 (length bytes)).

(** The 11-bit address that [partialMatch] compares with 0x555 or 0x2aa;
    [u12] is [use12bitAddressing]. *)
Definition command_address (u12 : bool) (address : Z) : Z :=
  Z.land (if u12 then Z.shiftr address 1 else address) 2047.

(** The addresses [cmdAddr[addrSeq[i]]] that the bytes of a command are
    written to. *)
Definition command_addresses : list Z := [1365; 682; 1365; 1365; 682].

(** The test of one iteration of [partialMatch], negated: the entry [c] has
    the address and the value of the command. *)
Definition entry_ok (u12 : bool) (c : AmdCmd) (expected d : Z) : bool :=
  (command_address u12 (addr c) =? expected) && (value c =? d).

(** The loop of [partialMatch] over the entries in use. *)
Fixpoint prefix_ok (u12 : bool) (entries : list AmdCmd) (addrs dataSeq : list Z)
  : bool :=
  match entries, addrs, dataSeq with
  | c :: entries', a :: addrs', d :: dataSeq' =>
      entry_ok u12 c a d && prefix_ok u12 entries' addrs' dataSeq'
  | _, _, _ => true
  end.

(** The entries of the command buffer that are in use. *)
Definition cmd_prefix (f : Flash) : list AmdCmd :=
  take (Z.to_nat (cmdIdx f)) (cmd f).

(** The first three statements of [write]: the entry is stored and the
    command index moves on. *)
Definition store (address v : Z) (f : Flash) : Flash :=
  set_cmdIdx (u32 (cmdIdx f + 1))
    (set_cmd (<[Z.to_nat (cmdIdx f) := mkAmdCmd address v]> (cmd f)) f).

(** An initialised flash whose command buffer holds the entries [pre]. *)
Definition buffered (MAX_CMD_SIZE : Z) (u12 : bool) (f : Flash)
    (pre : list AmdCmd) : Prop :=
  initialised MAX_CMD_SIZE f /\
  cmdIdx f = Z.of_nat (length pre) /\
  cmd_prefix f = pre /\
  use12bitAddressing f = u12.

(** The members that no command changes: the geometry, the two address
    tables, the ROM, the ID, the addressing mode, the write-protect pin and
    the size of the SRAM. *)
Definition same_chip (f f' : Flash) : Prop :=
  sectorInfo f' = sectorInfo f /\ writeAddress f' = writeAddress f /\
  readAddress f' = readAddress f /\ rom f' = rom f /\ size f' = size f /\
  ID f' = ID f /\ use12bitAddressing f' = use12bitAddressing f /\
  vppWpPinLow f' = vppWpPinLow f /\
  option_map length (ram f') = option_map length (ram f).

(** The flash [f'] is [f] except for the content of its SRAM. *)
Definition only_ram (f f' : Flash) : Prop :=
  f' = set_ram (ram f') f /\
  option_map length (ram f') = option_map length (ram f).

(** When a call returns, the flash before and after it are related by
    [R]. *)
Definition keeps {A : Type} (R : Flash -> Flash -> Prop) (c : M A) : Prop :=
  forall f a f', c f = Done (a, f') -> R f f'.

(** The sizes of the sectors that are, or are not, write-protected. *)
Definition sizes_where (protected : bool) (sectors : list SectorInfo) : Z :=
  fold_right (fun si acc => if eqb (writeProtected si) protected
                            then sec_size si + acc else acc) 0 sectors.

(** A small flash for the examples: a write-protected sector of 16 bytes
    kept in a 16-byte ROM, then writable sectors of 16 and 32 bytes kept in
    a 48-byte SRAM; the command buffer has 8 entries and the chip is in its
    reset state. *)
Definition example_flash : Flash :=
  mkFlash [mkSectorInfo 16 true; mkSectorInfo 16 false; mkSectorInfo 32 false]
          [-1; 0; 16] [RomPtr 0; RamPtr 0; RamPtr 16]
          (replicate 16 0) 64 420 false (Some (replicate 48 255))
          (replicate 8 (mkAmdCmd 0 0)) 0 ST_IDLE false [].

(** What an example looks at once a sequence of [write] calls has run on
    the example flash. *)
Definition observe {A : Type} (ws : list (Z * Z)) (look : Flash -> A)
  : outcome A :=
  match write_all 8 ws example_flash with
  | Done (_, f) => Done (look f)
  | Abort e => Abort e
  end.

End AmdFlash.

(** ** The PAC cartridge *)

Module MSXPac.

(** The members of [MSXPac] and the cache-invalidation calls it has made
    (oldest first). *)
Record Pac : Type := mkPac {
  sram : list Z;
  r1ffe : Z;
  r1fff : Z;
  sramEnabled : bool;
  invalidated : list Invalidate
}.

(** [MSXDevice::invalidateMemCache(start, size)] *)
Definition invalidateMemCache (start size_ : Z) (p : Pac) : Pac :=
  mkPac (sram p) (r1ffe p) (r1fff p) (sramEnabled p)
        (invalidated p ++ [mkInvalidate start size_]).

(** [void reset(EmuTime::param)] *)
Definition reset (time : Z) (p : Pac) : Pac :=
  mkPac (sram p) 255 255 false (invalidated p).

(** [MSXPac::MSXPac(config)]: the SRAM has 0x1FFE bytes, whose content
    [sram0] comes from a file or is fresh; the other members get their
    first value from [reset]. *)
Definition MSXPac_ctor (sram0 : list Z) : Pac :=
  reset 0 (mkPac sram0 0 0 false []).

(** [byte readMem(word address, EmuTime::param)] *)
Definition readMem (address time : Z) (p : Pac) : outcome Z :=
  let address := Z.land address 16383 in
  if sramEnabled p then
    if address <? 8190 then at_index (sram p) address
    else if address =? 8190 then Done (r1ffe p)
    else if address =? 8191 then Done (r1fff p)
    else Done 255
  else Done 255.

(** [void checkSramEnable()] *)
Definition checkSramEnable (p : Pac) : Pac :=
  let newEnabled := (r1ffe p =? 77) && (r1fff p =? 105) in
  if negb (eqb (sramEnabled p) newEnabled) then
    invalidateMemCache 0 65536
      (mkPac (sram p) (r1ffe p) (r1fff p) newEnabled (invalidated p))
  else p.

(** [sram.write(addr, value)] *)
Definition SRAM_write (address v : Z) (p : Pac) : outcome Pac :=
  if (address <? 0) || (Z.of_nat (length (sram p)) <=? address)
  then Abort OutOfRange
  else Done (mkPac (<[Z.to_nat address := v]> (sram p)) (r1ffe p) (r1fff p)
                   (sramEnabled p) (invalidated p)).

(** [void writeMem(word address, byte value, EmuTime::param)] *)
Definition writeMem (address value time : Z) (p : Pac) : outcome Pac :=
  let address := Z.land address 16383 in
  if address =? 8190 then
    Done (checkSramEnable
            (mkPac (sram p) value (r1fff p) (sramEnabled p) (invalidated p)))
  else if address =? 8191 then
    Done (checkSramEnable
            (mkPac (sram p) (r1ffe p) value (sramEnabled p) (invalidated p)))
  else if sramEnabled p && (address <? 8190) then SRAM_write address value p
  else Done p.

(** The states a PAC can be in: built by the constructor, then driven by
    [reset] and [writeMem]. *)
Inductive reachable : Pac -> Prop :=
  | reach_ctor sram0 :
      Z.of_nat (length sram0) = 8190 -> reachable (MSXPac_ctor sram0)
  | reach_reset p time :
      reachable p -> reachable (reset time p)
  | reach_writeMem p address value time p' :
      reachable p -> writeMem address value time p = Done p' ->
      reachable p'.

(** The condition under which the SRAM is visible. *)
Definition enableCondition (p : Pac) : Prop :=
  r1ffe p = 77 /\ r1fff p = 105.

(** The flag holds exactly when the registers hold the two magic bytes. *)
Definition flag_agrees (p : Pac) : Prop :=
  sramEnabled p = true <-> enableCondition p.

(** What [getReadCacheLine] returns: [nullptr], [&sram[offset]], or
    [unmappedRead]. *)
Inductive ReadLine : Type :=
  | ReadNull
  | ReadSram (offset : Z)
  | ReadUnmapped.

(** What [getWriteCacheLine] returns: [nullptr] or [unmappedWrite]. *)
Inductive WriteLine : Type :=
  | WriteNull
  | WriteUnmapped.

(** [CacheLine::HIGH] is declared in CacheLine.hh, which is not among the
    embedded files; it is a parameter of the two functions that use it. *)
Section CacheLines.
Variable HIGH : Z.

(** [const byte* getReadCacheLine(word address) const] *)
Definition getReadCacheLine (address : Z) (p : Pac) : ReadLine :=
  let address := Z.land address 16383 in
  if sramEnabled p then
    if address <? Z.land 8190 HIGH then ReadSram address
    else if address =? Z.land 8190 HIGH then ReadNull
    else ReadUnmapped
  else ReadUnmapped.

(** [byte* getWriteCacheLine(word address) const] *)
Definition getWriteCacheLine (address : Z) (p : Pac) : WriteLine :=
  let address := Z.land address 16383 in
  if address =? Z.land 8190 HIGH then WriteNull
  else if sramEnabled p && (address <? 8190) then WriteNull
  else WriteUnmapped.
End CacheLines.

(** An [MSXDevice] world made of one PAC, plugged in as device 1; every
    other device pointer behaves as an unmapped device (reads give 0xFF,
    writes are ignored). *)
Definition pac_readMem (d : MSXDevicePtr) (address time : Z) (p : Pac)
  : outcome Z * Pac :=
  if (d =? 1)%N then (readMem address time p, p) else (Done 255, p).

Definition pac_peekMem (d : MSXDevicePtr) (address time : Z) (p : Pac)
  : outcome Z :=
  if (d =? 1)%N then readMem address time p else Done 255.

Definition pac_writeMem (d : MSXDevicePtr) (address value time : Z) (p : Pac)
  : outcome unit * Pac :=
  if (d =? 1)%N then
    match writeMem address value time p with
    | Done p' => (Done tt, p')
    | Abort f => (Abort f, p)
    end
  else (Done tt, p).

#[global] Instance pac_world : MSXMultiMemDevice.MSXDevice Pac := {|
  MSXMultiMemDevice.dev_readMem := pac_readMem;
  MSXMultiMemDevice.dev_peekMem := pac_peekMem;
  MSXMultiMemDevice.dev_writeMem := pac_writeMem
|}.

(** The cache lines of the one-PAC world: device 1 is the PAC, every other
    device pointer hands out the unmapped lines. *)
#[global] Instance pac_cache (HIGH : Z)
  : MSXMultiMemDevice.MSXDeviceCache Pac ReadLine WriteLine := {|
  MSXMultiMemDevice.dev_getReadCacheLine d address p :=
    if (d =? 1)%N then
      Done (match getReadCacheLine HIGH address p with
            | ReadNull => None
            | line => Some line
            end)
    else Done (Some ReadUnmapped);
  MSXMultiMemDevice.dev_getWriteCacheLine d address p :=
    if (d =? 1)%N then
      Done (match getWriteCacheLine HIGH address p with
            | WriteNull => None
            | line => Some line
            end)
    else Done (Some WriteUnmapped)
|}.

End MSXPac.

(** * Properties *)

(** ** Arithmetic of the machine integers *)

Lemma u32_range z : 0 <= u32 z < 4294967296.
Proof. unfold u32. apply Z.mod_pos_bound. lia. Qed.

Lemma u32_small z : 0 <= z < 4294967296 -> u32 z = z.
Proof. unfold u32. intros. apply Z.mod_small. lia. Qed.

Lemma u32_idem z : u32 (u32 z) = u32 z.
Proof. apply u32_small, u32_range. Qed.

Lemma u32_add_l a b : u32 (u32 a + b) = u32 (a + b).
Proof. unfold u32. apply Zplus_mod_idemp_l. Qed.

Lemma at_index_Done {A : Type} (a : list A) (i : Z) (x : A) :
  at_index a i = Done x <-> 0 <= i /\ a !! Z.to_nat i = Some x.
Proof.
  unfold at_index. destruct (Z.ltb_spec i 0).
  - split; [discriminate | lia].
  - destruct (a !! Z.to_nat i) eqn:E; split; intros Hx;
      try discriminate; try (destruct Hx; congruence).
    inversion Hx; subst; auto.
Qed.

Lemma at_index_in_range {A : Type} (a : list A) (i : Z) :
  0 <= i < Z.of_nat (length a) -> exists x, at_index a i = Done x.
Proof.
  intros Hi. unfold at_index.
  destruct (Z.ltb_spec i 0); [lia |].
  destruct (lookup_lt_is_Some_2 a (Z.to_nat i)) as [x Hx]; [lia |].
  exists x. now rewrite Hx.
Qed.

(** *** Cache lines

    A cache line has [2 ^ bits] bytes and [CacheLine::HIGH] keeps the line
    number of a 16-bit address: it is [65536 - 2 ^ bits]. *)

Lemma pow2_split a b : 0 <= a <= b -> 2 ^ b = 2 ^ a * 2 ^ (b - a).
Proof. intros H. rewrite <- Z.pow_add_r by lia. f_equal. lia. Qed.

Lemma land_line_mask x bits :
  0 <= bits <= 16 -> 0 <= x ->
  Z.land x (65536 - 2 ^ bits) = x mod 65536 - x mod 2 ^ bits.
Proof.
  intros Hb Hx.
  pose proof (pow2_split bits 16 Hb) as Hs. change (2 ^ 16) with 65536 in Hs.
  assert (Hpos : 0 < 2 ^ bits) by (apply Z.pow_pos_nonneg; lia).
  assert (Hmask : 65536 - 2 ^ bits = Z.ldiff (Z.ones 16) (Z.ones bits)).
  { rewrite Z.ldiff_ones_r by lia.
    rewrite Z.shiftl_mul_pow2, Z.shiftr_div_pow2 by lia.
    change (Z.ones 16) with 65535.
    assert (0 < 2 ^ (16 - bits)) by (apply Z.pow_pos_nonneg; lia).
    assert (65535 / 2 ^ bits = 2 ^ (16 - bits) - 1).
    { symmetry. apply Z.div_unique with (r := 2 ^ bits - 1); nia. }
    nia. }
  rewrite Hmask.
  assert (E : Z.land x (Z.ldiff (Z.ones 16) (Z.ones bits))
              = Z.ldiff (Z.land x (Z.ones 16)) (Z.ones bits)).
  { apply Z.bits_inj'. intros n Hn.
    rewrite !Z.land_spec, !Z.ldiff_spec, Z.land_spec.
    now rewrite andb_assoc. }
  rewrite E, Z.land_ones by lia. change (2 ^ 16) with 65536.
  rewrite Z.ldiff_ones_r by lia.
  rewrite Z.shiftl_mul_pow2, Z.shiftr_div_pow2 by lia.
  assert (Hm : (x mod 65536) mod 2 ^ bits = x mod 2 ^ bits).
  { rewrite Hs. rewrite Z.rem_mul_r by lia.
    rewrite (Z.mul_comm (2 ^ bits)), Z.mod_add by lia. apply Z.mod_mod. lia. }
  rewrite <- Hm.
  pose proof (Z.div_mod (x mod 65536) (2 ^ bits) ltac:(lia)). lia.
Qed.

Lemma land_16383 x : Z.land x 16383 = x mod 16384.
Proof. change 16383 with (Z.ones 14). now rewrite Z.land_ones by lia. Qed.

(** Replace every [2 ^ n] with a literal [n] by its value. *)
Ltac eval_pow2 :=
  repeat match goal with
         | |- context [2 ^ Zpos ?n] =>
             let v := eval vm_compute in (2 ^ Zpos n) in
             change (2 ^ Zpos n) with v in *
         | H : context [2 ^ Zpos ?n] |- _ =>
             let v := eval vm_compute in (2 ^ Zpos n) in
             change (2 ^ Zpos n) with v in *
         | |- context [2 ^ 0] => change (2 ^ 0) with 1 in *
         | H : context [2 ^ 0] |- _ => change (2 ^ 0) with 1 in *
         end.

(** Case analysis on a number of bits between 0 and 16. *)
Ltac each_bits bits :=
  let H := fresh "Hcases" in
  assert (H : bits = 0 \/ bits = 1 \/ bits = 2 \/ bits = 3 \/ bits = 4 \/
              bits = 5 \/ bits = 6 \/ bits = 7 \/ bits = 8 \/ bits = 9 \/
              bits = 10 \/ bits = 11 \/ bits = 12 \/ bits = 13 \/
              bits = 14 \/ bits = 15 \/ bits = 16) by lia;
  repeat (destruct H as [-> | H]); [.. | subst bits].

(** ** The bus dispatcher *)

Module MultiMemProps.
Import MSXMultiMemDevice.

(** [isInside] on ranges that do not wrap around is membership in the
    half-open interval. *)
Lemma isInside_spec x start size_ :
  0 <= x < 4294967296 -> 0 <= start -> 0 <= size_ ->
  start + size_ <= 4294967296 ->
  isInside x start size_ = true <-> start <= x < start + size_.
Proof.
  intros Hx Hs Hz Hfit. unfold isInside, u32.
  rewrite Z.ltb_lt. Z.div_mod_to_equations. lia.
Qed.

Lemma Range_eqb_eq r v : Range_eqb r v = true <-> r = v.
Proof.
  unfold Range_eqb. destruct r as [b s d], v as [b' s' d']; simpl.
  rewrite !andb_true_iff, !Z.eqb_eq, N.eqb_eq.
  split; [intros [[-> ->] ->]; reflexivity | intros E; inversion E; auto].
Qed.

Lemma canAdd_loop_forallb ranges base_ size_ count : forall i,
  (i + count <= length ranges)%nat ->
  canAdd_loop ranges base_ size_ i count =
  Some (forallb (clear_of base_ size_) (take count (drop i ranges))).
Proof.
  induction count as [| count IH]; intros i Hi; cbn [canAdd_loop].
  - reflexivity.
  - destruct (lookup_lt_is_Some_2 ranges i) as [r Hr]; [lia |].
    rewrite Hr. rewrite (drop_S _ _ _ Hr). cbn [take forallb].
    unfold clear_of at 1.
    destruct (overlap base_ size_ (base r) (size r)); simpl; [reflexivity |].
    apply IH. lia.
Qed.

(** [canAdd] inspects every entry in front of the last one, and only
    those. *)
Lemma canAdd_front l last base_ size_ :
  canAdd (l ++ [last]) base_ size_ =
  Some (forallb (clear_of (u32 base_) (u32 size_)) l).
Proof.
  unfold canAdd. destruct (l ++ [last]) eqn:E.
  - destruct l; discriminate.
  - rewrite <- E. rewrite canAdd_loop_forallb.
    + rewrite drop_0. rewrite length_app. simpl.
      replace (length l + 1 - 1)%nat with (length l) by lia.
      now rewrite take_app_length.
    + lia.
Qed.

Lemma find_pos_Some v ranges i :
  find_pos v ranges = Some i ->
  exists l1 l2, ranges = l1 ++ v :: l2 /\ length l1 = i /\ ~ In v l1.
Proof.
  revert i. induction ranges as [| r rest IH]; intros i; simpl.
  - discriminate.
  - destruct (Range_eqb r v) eqn:E.
    + intros [= <-]. apply Range_eqb_eq in E. subst r.
      exists [], rest. simpl. auto.
    + destruct (find_pos v rest) as [j |]; [| discriminate].
      intros [= <-]. destruct (IH j eq_refl) as (l1 & l2 & -> & Hlen & Hnot).
      exists (r :: l1), l2. simpl. repeat split; [now rewrite Hlen |].
      intros [-> | Hin]; [| now apply Hnot].
      assert (Range_eqb v v = true) by now apply Range_eqb_eq.
      congruence.
Qed.

Lemma find_pos_None v ranges :
  find_pos v ranges = None <-> ~ In v ranges.
Proof.
  induction ranges as [| r rest IH]; simpl.
  - tauto.
  - destruct (Range_eqb r v) eqn:E.
    + apply Range_eqb_eq in E. split; [discriminate | intros Hn; tauto].
    + assert (r <> v) by (intros ->; assert (Range_eqb v v = true)
        by (now apply Range_eqb_eq); congruence).
      destruct (find_pos v rest); split; intros Hx;
        try discriminate; try tauto.
      exfalso. destruct IH as [_ IH]. discriminate IH. tauto.
Qed.

Lemma delete_middle (l1 l2 : Ranges) v :
  delete (length l1) (l1 ++ v :: l2) = l1 ++ l2.
Proof. induction l1; simpl; [reflexivity | now f_equal]. Qed.

Lemma searchRange_app l l' address :
  searchRange (l ++ l') address =
  match searchRange l address with
  | Some r => Some r
  | None => searchRange l' address
  end.
Proof.
  induction l as [| r l IH]; simpl; [reflexivity |].
  now destruct (isInside address (base r) (size r)).
Qed.

Lemma searchRange_Some l address r :
  searchRange l address = Some r ->
  exists l1 l2, l = l1 ++ r :: l2 /\
    isInside address (base r) (size r) = true /\
    Forall (fun q => isInside address (base q) (size q) = false) l1.
Proof.
  induction l as [| q l IH]; simpl; [discriminate |].
  destruct (isInside address (base q) (size q)) eqn:E.
  - intros [= ->]. exists [], l. auto.
  - intros Hs. destruct (IH Hs) as (l1 & l2 & -> & Hin & Hall).
    exists (q :: l1), l2. auto.
Qed.

Lemma searchRange_None l address :
  searchRange l address = None ->
  Forall (fun q => isInside address (base q) (size q) = false) l.
Proof.
  induction l as [| q l IH]; simpl; [constructor |].
  destruct (isInside address (base q) (size q)) eqn:E; [discriminate |].
  auto.
Qed.

Lemma sentinel_covers dummy address :
  0 <= address < 65536 ->
  isInside address (base (sentinel dummy)) (size (sentinel dummy)) = true.
Proof.
  intros Ha. unfold sentinel, Range_ctor, isInside, u32. cbn [base size].
  rewrite Z.ltb_lt. Z.div_mod_to_equations. lia.
Qed.

(** On a table that ends with the sentinel every 16-bit address resolves:
    to the first entry in front of the sentinel that contains it, or to the
    sentinel. *)
Lemma searchRange_with_sentinel dummy (l : Ranges) address :
  0 <= address < 65536 ->
  exists r,
    searchRange (l ++ [sentinel dummy]) address = Some r /\
    (searchRange l address = Some r \/
     (searchRange l address = None /\ r = sentinel dummy)).
Proof.
  intros Ha. rewrite searchRange_app.
  destruct (searchRange l address) as [r |] eqn:E.
  - exists r. auto.
  - exists (sentinel dummy). cbn [searchRange].
    rewrite (sentinel_covers dummy address Ha). auto.
Qed.

(** Accepted [add] calls stack their ranges in front of the table. *)
Lemma add_all_Done reqs : forall ranges T,
  add_all reqs ranges = (Done tt, T) ->
  T = rev (map (fun '(d, b, s) => Range_ctor b s d) reqs) ++ ranges.
Proof.
  induction reqs as [| [[d b] s] reqs IH]; intros ranges T; simpl.
  - now intros [= <-].
  - unfold add. destruct (canAdd ranges b s) as [[|] |]; try discriminate.
    intros Hrest. apply IH in Hrest. rewrite Hrest.
    now rewrite <- app_assoc.
Qed.

(** What [overlap] tests: whether the first or the last address of the
    request lies in the registered range. *)
Lemma overlap_endpoints b s b2 s2 :
  fits b s -> 0 < s -> fits b2 s2 ->
  overlap b s b2 s2 = true <->
  (b2 <= b < b2 + s2) \/ (b2 <= b + s - 1 < b2 + s2).
Proof.
  intros (Hb & Hs & Hbs) Hpos (Hb2 & Hs2 & Hbs2). unfold overlap.
  rewrite orb_true_iff.
  rewrite (isInside_spec b) by lia.
  assert (E : u32 (u32 (b + s) - 1) = b + s - 1).
  { unfold u32. Z.div_mod_to_equations. lia. }
  rewrite E, isInside_spec by lia. reflexivity.
Qed.

(** A request that intersects no entry in front of the sentinel is
    accepted. *)
Lemma canAdd_accepts_disjoint l last b s :
  fits b s -> 0 < s ->
  Forall (fun r => fits (base r) (size r) /\
                   ~ intersects b s (base r) (size r)) l ->
  canAdd (l ++ [last]) b s = Some true.
Proof.
  intros Hfit Hpos Hall. rewrite canAdd_front. f_equal.
  apply forallb_forall. intros r Hin.
  rewrite Forall_forall in Hall.
  destruct (Hall r) as [Hr Hno]; [now apply list_elem_of_In |].
  unfold clear_of. apply negb_true_iff. apply not_true_is_false.
  destruct Hfit as (Hb & Hs & Hbs).
  rewrite !u32_small by lia.
  rewrite overlap_endpoints by (unfold fits in *; lia).
  intros [Hin1 | Hin2]; apply Hno.
  - exists b. lia.
  - exists (b + s - 1). lia.
Qed.

(** A request one of whose two end addresses lies in an entry in front of
    the sentinel is refused. *)
Lemma canAdd_rejects_endpoint l last b s r :
  fits b s -> 0 < s -> In r l -> fits (base r) (size r) ->
  (base r <= b < base r + size r) \/
  (base r <= b + s - 1 < base r + size r) ->
  canAdd (l ++ [last]) b s = Some false.
Proof.
  intros Hfit Hpos Hin Hr Hend. rewrite canAdd_front. f_equal.
  apply not_true_is_false. intros Hall.
  rewrite forallb_forall in Hall. specialize (Hall r Hin).
  unfold clear_of in Hall. apply negb_true_iff in Hall.
  destruct Hfit as (Hb & Hs & Hbs).
  rewrite !u32_small in Hall by lia.
  assert (overlap b s (base r) (size r) = true)
    by (apply overlap_endpoints; unfold fits in *; lia).
  congruence.
Qed.

(** C1 (the code at the failing input): with device 1 registered over
    [0x4000, 0x6000), the request [0x2000, 0x8000) of device 2 intersects
    that range, and yet [canAdd] answers true and [add] inserts it: neither
    end of the request lies inside the registered range. *)
Theorem canAdd_misses_enclosing_request :
  let ranges := [Range_ctor 16384 8192 1%N; sentinel 0%N] in
  intersects 8192 24576 16384 8192 /\
  canAdd ranges 8192 24576 = Some true /\
  add 2%N 8192 24576 ranges =
    (Done tt, Range_ctor 8192 24576 2%N :: ranges).
Proof.
  cbv zeta. split; [| split].
  - exists 16384. lia.
  - reflexivity.
  - reflexivity.
Qed.

(** C2: the table built by accepted [add] calls holds the ranges most
    recently added first, with the sentinel last; on a table that ends with
    the sentinel, resolving a 16-bit address gives the first entry (from the
    front) that contains it, and the sentinel when no entry in front of it
    does, so a result always exists. *)
Theorem resolve_first_match_or_sentinel (dummy : MSXDevicePtr) :
  (forall reqs T,
     add_all reqs (MSXMultiMemDevice_ctor dummy) = (Done tt, T) ->
     T = rev (map (fun '(d, b, s) => Range_ctor b s d) reqs)
         ++ [sentinel dummy]) /\
  (forall (l : Ranges) address,
     0 <= address < 65536 ->
     exists r,
       searchRange (l ++ [sentinel dummy]) address = Some r /\
       searchDevice (l ++ [sentinel dummy]) address = Some (device r) /\
       ((exists l1 l2,
           l = l1 ++ r :: l2 /\
           isInside address (base r) (size r) = true /\
           Forall (fun q => isInside address (base q) (size q) = false) l1)
        \/
        (Forall (fun q => isInside address (base q) (size q) = false) l /\
         r = sentinel dummy))).
Proof.
  split.
  - intros reqs T Hadd. now apply add_all_Done in Hadd.
  - intros l address Ha. unfold searchDevice.
    destruct (searchRange_with_sentinel dummy l address Ha)
      as (r & Hr & [Hfront | [Hnone ->]]); rewrite Hr.
    + exists r. repeat split. left. now apply searchRange_Some.
    + exists (sentinel dummy). repeat split. right.
      split; [now apply searchRange_None | reflexivity].
Qed.

Lemma resolve_first_match_or_sentinel_witness :
  add_all [(1%N, 16384, 8192); (2%N, 24576, 8192)]
          (MSXMultiMemDevice_ctor 0%N) =
    (Done tt, [Range_ctor 24576 8192 2%N; Range_ctor 16384 8192 1%N;
               sentinel 0%N]) /\
  0 <= 20480 < 65536 /\
  exists r,
    searchRange ([Range_ctor 24576 8192 2%N; Range_ctor 16384 8192 1%N]
                 ++ [sentinel 0%N]) 20480 = Some r.
Proof.
  split; [reflexivity |]. split; [lia |].
  destruct (resolve_first_match_or_sentinel 0%N) as [_ Hres].
  destruct (Hres [Range_ctor 24576 8192 2%N; Range_ctor 16384 8192 1%N]
                 20480 ltac:(lia)) as (r & Hr & _).
  exists r. exact Hr.
Defined.

(** C4: [readMem], [peekMem] and [writeMem] of the dispatcher are the
    accessor of the same name of the device that [searchDevice] gives for
    the address, called with the same address, value and time; on a table
    that ends with the sentinel that device exists for every 16-bit
    address. *)
Theorem accessors_route_to_owner {World : Type} `{MSXDevice World} :
  (forall (ranges : Ranges) (address value time : Z) (w : World) d,
     searchDevice ranges address = Some d ->
     readMem ranges address time w = dev_readMem d address time w /\
     peekMem ranges address time w = dev_peekMem d address time w /\
     writeMem ranges address value time w =
       dev_writeMem d address value time w) /\
  (forall (dummy : MSXDevicePtr) (l : Ranges) (address : Z),
     0 <= address < 65536 ->
     exists d, searchDevice (l ++ [sentinel dummy]) address = Some d).
Proof.
  split.
  - intros ranges address value time w d Hd.
    unfold readMem, peekMem, writeMem. rewrite Hd. auto.
  - intros dummy l address Ha. unfold searchDevice.
    destruct (searchRange_with_sentinel dummy l address Ha) as (r & Hr & _).
    rewrite Hr. eauto.
Qed.

Lemma accessors_route_to_owner_witness :
  searchDevice [Range_ctor 16384 8192 1%N; sentinel 0%N] 24574 = Some 1%N /\
  readMem [Range_ctor 16384 8192 1%N; sentinel 0%N] 24574 7
          (MSXPac.MSXPac_ctor (replicate (Z.to_nat 8190) 255)) =
    dev_readMem 1%N 24574 7
          (MSXPac.MSXPac_ctor (replicate (Z.to_nat 8190) 255)) /\
  0 <= 24574 < 65536 /\
  exists d,
    searchDevice ([Range_ctor 16384 8192 1%N] ++ [sentinel 0%N]) 24574
      = Some d.
Proof.
  destruct (accessors_route_to_owner (World := MSXPac.Pac))
    as [Hroute Hexists].
  assert (Hd : searchDevice [Range_ctor 16384 8192 1%N; sentinel 0%N] 24574
               = Some 1%N) by reflexivity.
  split; [exact Hd |]. split.
  - destruct (Hroute [Range_ctor 16384 8192 1%N; sentinel 0%N] 24574 77 7
                (MSXPac.MSXPac_ctor (replicate (Z.to_nat 8190) 255)) 1%N Hd)
      as [Hread _].
    exact Hread.
  - split; [lia |].
    exact (Hexists 0%N [Range_ctor 16384 8192 1%N] 24574 ltac:(lia)).
Defined.

(** C5: an [add] that is refused leaves the table as it was. *)
Theorem rejected_add_keeps_table (device_ : MSXDevicePtr) (base_ size_ : Z)
    (ranges : Ranges) (f : fault) :
  fst (add device_ base_ size_ ranges) = Abort f ->
  snd (add device_ base_ size_ ranges) = ranges.
Proof.
  unfold add. destruct (canAdd ranges base_ size_) as [[|] |]; simpl;
    [discriminate | reflexivity | reflexivity].
Qed.

Lemma rejected_add_keeps_table_witness :
  fst (add 2%N 20480 8192 [Range_ctor 16384 8192 1%N; sentinel 0%N])
    = Abort OverlapViolation /\
  snd (add 2%N 20480 8192 [Range_ctor 16384 8192 1%N; sentinel 0%N])
    = [Range_ctor 16384 8192 1%N; sentinel 0%N].
Proof.
  split; [reflexivity |].
  apply (rejected_add_keeps_table 2%N 20480 8192
           [Range_ctor 16384 8192 1%N; sentinel 0%N] OverlapViolation).
  reflexivity.
Defined.

(** C6: when an entry equal to the triple is registered, [remove] erases the
    first such entry and nothing else, every other entry keeping its place
    in the order; when none is registered, [remove] fails with [NotFound]
    and the table is as before.  In particular a table that ends with the
    sentinel still ends with it after the removal of another triple. *)
Theorem remove_exact_entry (device_ : MSXDevicePtr) (base_ size_ : Z)
    (ranges : Ranges) :
  let v := Range_ctor base_ size_ device_ in
  (In v ranges ->
   exists l1 l2,
     ranges = l1 ++ v :: l2 /\ ~ In v l1 /\
     remove device_ base_ size_ ranges = (Done tt, l1 ++ l2)) /\
  (~ In v ranges ->
   remove device_ base_ size_ ranges = (Abort NotFound, ranges)) /\
  (forall l dummy,
     ranges = l ++ [sentinel dummy] -> v <> sentinel dummy -> In v ranges ->
     exists l',
       remove device_ base_ size_ ranges = (Done tt, l' ++ [sentinel dummy])).
Proof.
  cbv zeta. set (v := Range_ctor base_ size_ device_).
  assert (Hfound : In v ranges ->
    exists l1 l2, ranges = l1 ++ v :: l2 /\ ~ In v l1 /\
      remove device_ base_ size_ ranges = (Done tt, l1 ++ l2)).
  { intros Hin. unfold remove. fold v.
    destruct (find_pos v ranges) as [i |] eqn:E.
    - destruct (find_pos_Some _ _ _ E) as (l1 & l2 & -> & <- & Hnot).
      exists l1, l2. now rewrite delete_middle.
    - apply find_pos_None in E. contradiction. }
  split; [exact Hfound |]. split.
  - intros Hnot. unfold remove. fold v.
    apply find_pos_None in Hnot. now rewrite Hnot.
  - intros l dummy Hl Hne Hin.
    destruct (Hfound Hin) as (l1 & l2 & Hsplit & Hnot & Hrem).
    rewrite Hrem.
    destruct (exists_last (l := l2)) as (l2' & x & ->).
    + intros ->. rewrite Hl in Hsplit.
      change (l1 ++ [v]) with (l1 ++ [v]) in Hsplit.
      apply app_inj_tail in Hsplit. destruct Hsplit as [_ Hs]. congruence.
    + rewrite Hl in Hsplit.
      change (v :: l2' ++ [x]) with ((v :: l2') ++ [x]) in Hsplit.
      rewrite app_assoc in Hsplit. apply app_inj_tail in Hsplit.
      destruct Hsplit as [_ <-]. exists (l1 ++ l2').
      now rewrite <- app_assoc.
Qed.

Lemma remove_exact_entry_witness :
  In (Range_ctor 16384 8192 1%N)
     [Range_ctor 24576 8192 2%N; Range_ctor 16384 8192 1%N; sentinel 0%N] /\
  ~ In (Range_ctor 16384 4096 1%N)
     [Range_ctor 24576 8192 2%N; Range_ctor 16384 8192 1%N; sentinel 0%N] /\
  (exists l1 l2,
     remove 1%N 16384 8192
       [Range_ctor 24576 8192 2%N; Range_ctor 16384 8192 1%N; sentinel 0%N]
     = (Done tt, l1 ++ l2)) /\
  remove 1%N 16384 4096
    [Range_ctor 24576 8192 2%N; Range_ctor 16384 8192 1%N; sentinel 0%N]
  = (Abort NotFound,
     [Range_ctor 24576 8192 2%N; Range_ctor 16384 8192 1%N; sentinel 0%N]).
Proof.
  assert (Hin : In (Range_ctor 16384 8192 1%N)
     [Range_ctor 24576 8192 2%N; Range_ctor 16384 8192 1%N; sentinel 0%N])
    by (right; left; reflexivity).
  assert (Hnot : ~ In (Range_ctor 16384 4096 1%N)
     [Range_ctor 24576 8192 2%N; Range_ctor 16384 8192 1%N; sentinel 0%N])
    by (intros [H | [H | [H | []]]]; discriminate H).
  split; [exact Hin |]. split; [exact Hnot |]. split.
  - destruct (remove_exact_entry 1%N 16384 8192
       [Range_ctor 24576 8192 2%N; Range_ctor 16384 8192 1%N; sentinel 0%N])
      as (Hfound & _ & _).
    destruct (Hfound Hin) as (l1 & l2 & _ & _ & Hrem).
    exists l1, l2. exact Hrem.
  - destruct (remove_exact_entry 1%N 16384 4096
       [Range_ctor 24576 8192 2%N; Range_ctor 16384 8192 1%N; sentinel 0%N])
      as (_ & Hmissing & _).
    exact (Hmissing Hnot).
Defined.

(** C7: on a dispatcher that holds only the sentinel, adding X over
    [0x4000, 0x6000) succeeds; adding Y over [0x5000, 0x7000) is then
    refused with [OverlapViolation]; adding Y over [0x6000, 0x8000) instead
    succeeds. *)
Theorem overlap_rejection_scenario (dummy X Y : MSXDevicePtr) :
  let t0 := MSXMultiMemDevice_ctor dummy in
  let t1 := Range_ctor 16384 8192 X :: t0 in
  add X 16384 8192 t0 = (Done tt, t1) /\
  add Y 20480 8192 t1 = (Abort OverlapViolation, t1) /\
  add Y 24576 8192 t1 = (Done tt, Range_ctor 24576 8192 Y :: t1).
Proof.
  cbv zeta. repeat split.
Qed.

(** *** Adding, removing and resolving *)

Lemma Range_eqb_refl v : Range_eqb v v = true.
Proof. now apply Range_eqb_eq. Qed.

(** X7: a [remove] with the triple of the [add] that was accepted last
    gives back the table as it was before that [add]. *)
Theorem add_then_remove_restores (device_ : MSXDevicePtr) (base_ size_ : Z)
    (ranges : Ranges) :
  fst (add device_ base_ size_ ranges) = Done tt ->
  remove device_ base_ size_ (snd (add device_ base_ size_ ranges))
  = (Done tt, ranges).
Proof.
  unfold add. destruct (canAdd ranges base_ size_) as [[|] |];
    cbn [fst snd]; try discriminate.
  intros _. unfold remove. cbn [find_pos]. now rewrite Range_eqb_refl.
Qed.

Lemma add_then_remove_restores_witness :
  fst (add 1%N 16384 8192 (MSXMultiMemDevice_ctor 0%N)) = Done tt /\
  remove 1%N 16384 8192 (snd (add 1%N 16384 8192 (MSXMultiMemDevice_ctor 0%N)))
  = (Done tt, MSXMultiMemDevice_ctor 0%N).
Proof.
  split; [reflexivity |].
  apply (add_then_remove_restores 1%N 16384 8192 (MSXMultiMemDevice_ctor 0%N)).
  reflexivity.
Defined.

Lemma isInside_bool x start size_ :
  0 <= x < 4294967296 -> fits start size_ ->
  isInside x start size_ = (start <=? x) && (x <? start + size_).
Proof.
  intros Hx (Hs & Hz & Hfit).
  destruct (isInside x start size_) eqn:E.
  - apply isInside_spec in E; lia.
  - symmetry. apply not_true_is_false. intros Hb.
    assert (isInside x start size_ = true) by (apply isInside_spec; lia).
    congruence.
Qed.

(** X8: after an accepted [add] of a non-empty range that does not wrap
    around, every address of the range resolves to the new entry and every
    other address resolves as before. *)
Theorem accepted_add_owns_its_range (device_ : MSXDevicePtr) (base_ size_ : Z)
    (ranges : Ranges) (address : Z) :
  fits base_ size_ -> 0 < size_ ->
  fst (add device_ base_ size_ ranges) = Done tt ->
  0 <= address < 4294967296 ->
  searchRange (snd (add device_ base_ size_ ranges)) address =
  if (base_ <=? address) && (address <? base_ + size_)
  then Some (Range_ctor base_ size_ device_)
  else searchRange ranges address.
Proof.
  intros Hfit Hpos Hadd Ha. unfold add in *.
  destruct (canAdd ranges base_ size_) as [[|] |]; cbn [fst snd] in *;
    try discriminate.
  cbn [searchRange Range_ctor base size].
  pose proof Hfit as (Hb & Hs & Hbs).
  rewrite !u32_small by lia. now rewrite isInside_bool.
Qed.

Lemma accepted_add_owns_its_range_witness :
  fits 16384 8192 /\ 0 < 8192 /\
  fst (add 1%N 16384 8192 (MSXMultiMemDevice_ctor 0%N)) = Done tt /\
  searchRange (snd (add 1%N 16384 8192 (MSXMultiMemDevice_ctor 0%N))) 20480
  = Some (Range_ctor 16384 8192 1%N).
Proof.
  assert (Hfit : fits 16384 8192) by (unfold fits; lia).
  split; [exact Hfit |]. split; [lia |]. split; [reflexivity |].
  exact (accepted_add_owns_its_range 1%N 16384 8192
           (MSXMultiMemDevice_ctor 0%N) 20480 Hfit ltac:(lia) eq_refl
           ltac:(lia)).
Defined.

Lemma searchRange_skip (l1 l2 : Ranges) r address :
  Forall (fun q => isInside address (base q) (size q) = false) l1 ->
  searchRange (l1 ++ r :: l2) address =
  if isInside address (base r) (size r) then Some r
  else searchRange l2 address.
Proof.
  induction 1 as [| q l1 Hq _ IH]; cbn [app searchRange]; [reflexivity |].
  now rewrite Hq.
Qed.

(** X9: a [remove] that succeeds changes the resolution of no address
    outside the removed range. *)
Theorem remove_keeps_other_addresses (device_ : MSXDevicePtr)
    (base_ size_ : Z) (ranges : Ranges) (address : Z) :
  fst (remove device_ base_ size_ ranges) = Done tt ->
  isInside address (u32 base_) (u32 size_) = false ->
  searchRange (snd (remove device_ base_ size_ ranges)) address
  = searchRange ranges address.
Proof.
  unfold remove.
  destruct (find_pos (Range_ctor base_ size_ device_) ranges) as [i |] eqn:E;
    cbn [fst snd]; [| discriminate].
  intros _ Hout.
  destruct (find_pos_Some _ _ _ E) as (l1 & l2 & -> & <- & _).
  rewrite delete_middle, !searchRange_app. cbn [searchRange Range_ctor base size].
  now rewrite Hout.
Qed.

Lemma remove_keeps_other_addresses_witness :
  fst (remove 1%N 16384 8192
         [Range_ctor 24576 8192 2%N; Range_ctor 16384 8192 1%N; sentinel 0%N])
    = Done tt /\
  searchRange
    (snd (remove 1%N 16384 8192
            [Range_ctor 24576 8192 2%N; Range_ctor 16384 8192 1%N;
             sentinel 0%N])) 28672
  = Some (Range_ctor 24576 8192 2%N).
Proof.
  split; [reflexivity |].
  rewrite (remove_keeps_other_addresses 1%N 16384 8192
             [Range_ctor 24576 8192 2%N; Range_ctor 16384 8192 1%N;
              sentinel 0%N] 28672 eq_refl eq_refl).
  reflexivity.
Defined.

Lemma getDevices_loop_map ranges count : forall i,
  (i + count <= length ranges)%nat ->
  getDevices_loop ranges i count
  = Some (map device (take count (drop i ranges))).
Proof.
  induction count as [| count IH]; intros i Hi; cbn [getDevices_loop].
  - reflexivity.
  - destruct (lookup_lt_is_Some_2 ranges i) as [r Hr]; [lia |].
    rewrite Hr, (drop_S _ _ _ Hr), IH by lia. reflexivity.
Qed.

(** X10: on a table with a last entry, [getDevices] lists the devices of
    the entries in front of it, in the order of the table and without the
    device of the last entry (the dummy device of the sentinel); [empty]
    holds exactly when that list is empty.  On a table without any entry
    [getDevices] reads outside the vector. *)
Theorem getDevices_lists_front_entries (l : Ranges) (last : Range) :
  getDevices (l ++ [last]) = Some (map device l) /\
  (empty (l ++ [last]) = true <-> getDevices (l ++ [last]) = Some []) /\
  getDevices [] = None.
Proof.
  assert (Hg : getDevices (l ++ [last]) = Some (map device l)).
  { unfold getDevices. destruct (l ++ [last]) eqn:E.
    - destruct l; discriminate.
    - rewrite <- E, getDevices_loop_map.
      + rewrite drop_0, length_app. simpl.
        replace (length l + 1 - 1)%nat with (length l) by lia.
        now rewrite take_app_length.
      + lia. }
  split; [exact Hg |]. split; [| reflexivity].
  rewrite Hg. unfold empty. rewrite length_app. simpl.
  destruct l; simpl; split; intros Hx; try reflexivity; try discriminate.
  apply Nat.eqb_eq in Hx. lia.
Qed.

(** X11: for a request and entries that do not wrap around, [canAdd]
    accepts a non-empty request exactly when every entry in front of the
    last one either shares no address with the request or lies strictly
    inside it, away from its first and last address. *)
Theorem canAdd_accepts_exactly (l : Ranges) (last : Range) (b s : Z) :
  fits b s -> 0 < s ->
  Forall (fun r => fits (base r) (size r)) l ->
  canAdd (l ++ [last]) b s = Some true <->
  (forall r, In r l ->
     ~ intersects b s (base r) (size r) \/ encloses b s r).
Proof.
  intros Hfit Hpos Hall. rewrite canAdd_front.
  pose proof Hfit as (Hb & Hs & Hbs). rewrite !u32_small by lia.
  rewrite Forall_forall in Hall.
  assert (Hone : forall r, In r l ->
            clear_of b s r = true <->
            (~ intersects b s (base r) (size r) \/ encloses b s r)).
  { intros r Hin. pose proof (Hall r ltac:(now apply list_elem_of_In)) as Hr.
    unfold clear_of. rewrite negb_true_iff, <- not_true_iff_false.
    rewrite overlap_endpoints by assumption.
    destruct Hr as (Hrb & Hrs & Hrf). unfold intersects, encloses. split.
    - intros Hno.
      destruct (Z_lt_le_dec b (base r)) as [Hlt | Hge];
        [destruct (Z_lt_le_dec (base r + size r) (b + s)) as [Hlt2 | Hge2] |].
      + destruct (Z_lt_le_dec 0 (size r)); [right; lia |].
        left. intros (a & Ha1 & Ha2). lia.
      + left. intros (a & Ha1 & Ha2). lia.
      + left. intros (a & Ha1 & Ha2). lia.
    - intros [Hno | Henc] [Hin1 | Hin2]; try lia.
      + apply Hno. exists b. lia.
      + apply Hno. exists (b + s - 1). lia. }
  split.
  - intros [= Hf] r Hin. apply Hone; [exact Hin |].
    rewrite forallb_forall in Hf. now apply Hf.
  - intros Hspec. f_equal. apply forallb_forall. intros r Hin.
    apply Hone; auto.
Qed.

Lemma canAdd_accepts_exactly_witness :
  fits 8192 24576 /\ 0 < 24576 /\
  canAdd ([Range_ctor 16384 8192 1%N] ++ [sentinel 0%N]) 8192 24576
    = Some true /\
  (~ intersects 8192 24576 (base (Range_ctor 16384 8192 1%N))
                           (size (Range_ctor 16384 8192 1%N)) \/
   encloses 8192 24576 (Range_ctor 16384 8192 1%N)).
Proof.
  assert (Hfit : fits 8192 24576) by (unfold fits; lia).
  assert (Hall : Forall (fun r => fits (base r) (size r))
                        [Range_ctor 16384 8192 1%N]).
  { constructor; [| constructor]. unfold fits. cbn [Range_ctor base size].
    rewrite !u32_small by lia. lia. }
  split; [exact Hfit |]. split; [lia |]. split; [reflexivity |].
  destruct (canAdd_accepts_exactly [Range_ctor 16384 8192 1%N] (sentinel 0%N)
              8192 24576 Hfit ltac:(lia) Hall) as [Hto _].
  apply (Hto eq_refl). left. reflexivity.
Defined.

(** *** Cache lines *)

(** An address of the 16-bit space that [CacheLine::HIGH] leaves as it is
    starts a line. *)
Lemma aligned_mod bits x :
  0 <= bits <= 16 -> 0 <= x <= 65536 ->
  Z.land x (65536 - 2 ^ bits) = x ->
  x < 65536 /\ x mod 2 ^ bits = 0.
Proof.
  intros Hb Hx Hal. rewrite land_line_mask in Hal by lia.
  assert (0 < 2 ^ bits) by (apply Z.pow_pos_nonneg; lia).
  pose proof (Z.mod_pos_bound x (2 ^ bits) ltac:(lia)).
  destruct (Z.eq_dec x 65536) as [-> | Hne].
  - change (65536 mod 65536) with 0 in Hal. lia.
  - rewrite Z.mod_small in Hal by lia. lia.
Qed.

(** A range that holds the start of a line and does not end inside the line
    holds the whole line. *)
Lemma line_inside_range bits start e :
  0 <= bits <= 16 -> 0 <= start -> start mod 2 ^ bits = 0 ->
  start < e <= 65536 ->
  Z.land e (65536 - 2 ^ bits) <> start ->
  start + 2 ^ bits <= e.
Proof.
  intros Hb Hs Hal He Hend. rewrite land_line_mask in Hend by lia.
  each_bits bits; eval_pow2; Z.div_mod_to_equations; lia.
Qed.

(** A range that starts on a line and holds an address of another line
    starts at or before the start of that line. *)
Lemma aligned_base_before bits start b i :
  0 <= bits <= 16 -> start mod 2 ^ bits = 0 -> b mod 2 ^ bits = 0 ->
  0 <= i < 2 ^ bits -> b <= start + i -> b <= start.
Proof.
  intros Hb Hs Hbm Hi Hle.
  each_bits bits; eval_pow2; Z.div_mod_to_equations; lia.
Qed.

(** X12: let every entry lie in the 16-bit space and start on a cache line.
    For a line-aligned [start] that resolves to the entry [r], the two
    cache-line functions either return [nullptr], when [r] ends inside the
    line, or pass the call on to the device of [r], and then every address
    of the line resolves to [r]: the line that is handed out has one
    owner. *)
Theorem cache_line_has_one_owner {World RPtr WPtr : Type}
    `{MSXDeviceCache World RPtr WPtr}
    (HIGH bits : Z) (dummy : MSXDevicePtr) (l : Ranges) (start : Z)
    (w : World) (r : Range) :
  HIGH = 65536 - 2 ^ bits -> 0 <= bits <= 16 ->
  0 <= start < 65536 -> Z.land start HIGH = start ->
  Forall (line_aligned_entry HIGH) l ->
  searchRange (l ++ [sentinel dummy]) start = Some r ->
  (Z.land (base r + size r) HIGH = start /\
   getReadCacheLine HIGH (l ++ [sentinel dummy]) start w = Done None /\
   getWriteCacheLine HIGH (l ++ [sentinel dummy]) start w = Done None)
  \/
  (getReadCacheLine HIGH (l ++ [sentinel dummy]) start w
     = dev_getReadCacheLine (device r) start w /\
   getWriteCacheLine HIGH (l ++ [sentinel dummy]) start w
     = dev_getWriteCacheLine (device r) start w /\
   forall i, 0 <= i < 2 ^ bits ->
     searchRange (l ++ [sentinel dummy]) (start + i) = Some r).
Proof.
  intros -> Hb Hs Hal Hl Hr.
  assert (Hall : Forall (line_aligned_entry (65536 - 2 ^ bits))
                        (l ++ [sentinel dummy])).
  { apply Forall_app. split; [exact Hl |]. constructor; [| constructor].
    unfold line_aligned_entry, sentinel, Range_ctor. cbn [base size].
    rewrite !u32_small by lia. rewrite Z.land_0_l. lia. }
  destruct (searchRange_Some _ _ _ Hr) as (l1 & l2 & Hsplit & Hin & Hfront).
  rewrite Hsplit in Hall. apply Forall_app in Hall. destruct Hall as [Hl1 Hrl2].
  inversion Hrl2 as [| ? ? (Hrb & Hrs & Hre & Hra) _]; subst.
  destruct (aligned_mod bits start Hb ltac:(lia) Hal) as [_ Hsm].
  apply isInside_spec in Hin; try lia.
  unfold getReadCacheLine, getWriteCacheLine, searchDevice.
  rewrite Hr. rewrite (proj2 (Z.eqb_eq _ _) Hal).
  rewrite (u32_small (base r + size r)) by lia.
  destruct (Z.eqb_spec (Z.land (base r + size r) (65536 - 2 ^ bits)) start)
    as [Hend | Hend]; [left; auto |].
  right. split; [reflexivity |]. split; [reflexivity |].
  intros i Hi.
  pose proof (line_inside_range bits start (base r + size r) Hb ltac:(lia)
                Hsm ltac:(lia) Hend) as Hwhole.
  rewrite Hsplit, searchRange_skip.
  - assert (Hri : isInside (start + i) (base r) (size r) = true)
      by (apply isInside_spec; lia).
    now rewrite Hri.
  - rewrite Forall_forall in Hl1, Hfront |- *. intros q Hq.
    destruct (Hl1 q Hq) as (Hqb & Hqs & Hqe & Hqa).
    destruct (aligned_mod bits (base q) Hb ltac:(lia) Hqa) as [_ Hqm].
    specialize (Hfront q Hq). cbv beta in Hfront.
    apply not_true_is_false. intros Hqi.
    apply isInside_spec in Hqi; try lia.
    assert (Hle : base q <= start)
      by (apply (aligned_base_before bits start (base q) i); auto; lia).
    assert (isInside start (base q) (size q) = true)
      by (apply isInside_spec; lia).
    congruence.
Qed.

Lemma cache_line_has_one_owner_witness :
  Forall (line_aligned_entry 65280) [Range_ctor 16384 8192 1%N] /\
  searchRange ([Range_ctor 16384 8192 1%N] ++ [sentinel 0%N]) 16640
    = Some (Range_ctor 16384 8192 1%N) /\
  forall i, 0 <= i < 2 ^ 8 ->
    searchRange ([Range_ctor 16384 8192 1%N] ++ [sentinel 0%N]) (16640 + i)
    = Some (Range_ctor 16384 8192 1%N).
Proof.
  assert (Hl : Forall (line_aligned_entry 65280) [Range_ctor 16384 8192 1%N]).
  { constructor; [| constructor]. unfold line_aligned_entry.
    cbn [Range_ctor base size]. rewrite !u32_small by lia.
    split; [lia |]. split; [lia |]. split; [lia | reflexivity]. }
  split; [exact Hl |]. split; [reflexivity |].
  destruct (cache_line_has_one_owner (World := MSXPac.Pac)
              (H := MSXPac.pac_cache 65280) 65280 8 0%N
              [Range_ctor 16384 8192 1%N] 16640
              (MSXPac.MSXPac_ctor (replicate (Z.to_nat 8190) 255))
              (Range_ctor 16384 8192 1%N)
              eq_refl ltac:(lia) ltac:(lia) eq_refl Hl eq_refl)
    as [(Hend & _) | (_ & _ & Hline)].
  - discriminate Hend.
  - exact Hline.
Defined.

End MultiMemProps.

(** ** The PAC cartridge *)

Module PacProps.
Import MSXPac.

(** After [checkSramEnable] the flag agrees with the two registers. *)
Lemma checkSramEnable_flag p :
  sramEnabled (checkSramEnable p) = (r1ffe p =? 77) && (r1fff p =? 105) /\
  r1ffe (checkSramEnable p) = r1ffe p /\
  r1fff (checkSramEnable p) = r1fff p /\
  sram (checkSramEnable p) = sram p.
Proof.
  unfold checkSramEnable.
  destruct (sramEnabled p) eqn:Ee, ((r1ffe p =? 77) && (r1fff p =? 105));
    simpl; auto.
Qed.

Lemma flag_agrees_of_eq p :
  sramEnabled p = (r1ffe p =? 77) && (r1fff p =? 105) -> flag_agrees p.
Proof.
  intros E. unfold flag_agrees, enableCondition. rewrite E.
  now rewrite andb_true_iff, !Z.eqb_eq.
Qed.

Lemma SRAM_write_fields address v p p' :
  SRAM_write address v p = Done p' ->
  r1ffe p' = r1ffe p /\ r1fff p' = r1fff p /\
  sramEnabled p' = sramEnabled p /\ length (sram p') = length (sram p).
Proof.
  unfold SRAM_write.
  destruct ((address <? 0) || (Z.of_nat (length (sram p)) <=? address));
    [discriminate |].
  intros [= <-]. simpl. now rewrite length_insert.
Qed.

Lemma writeMem_flag_agrees address value time p p' :
  flag_agrees p -> writeMem address value time p = Done p' -> flag_agrees p'.
Proof.
  intros Hp. unfold writeMem.
  destruct (Z.land address 16383 =? 8190).
  { intros [= <-]. apply flag_agrees_of_eq.
    destruct (checkSramEnable_flag
                (mkPac (sram p) value (r1fff p) (sramEnabled p) (invalidated p)))
      as (-> & -> & -> & _). reflexivity. }
  destruct (Z.land address 16383 =? 8191).
  { intros [= <-]. apply flag_agrees_of_eq.
    destruct (checkSramEnable_flag
                (mkPac (sram p) (r1ffe p) value (sramEnabled p) (invalidated p)))
      as (-> & -> & -> & _). reflexivity. }
  destruct (sramEnabled p && (Z.land address 16383 <? 8190)).
  - intros Hw. apply SRAM_write_fields in Hw.
    destruct Hw as (E1 & E2 & E3 & _).
    unfold flag_agrees, enableCondition in *. now rewrite E1, E2, E3.
  - now intros [= <-].
Qed.

(** The SRAM keeps its 0x1FFE bytes, so no access of [readMem] or
    [writeMem] leaves it. *)
Lemma reachable_sram_size p :
  reachable p -> Z.of_nat (length (sram p)) = 8190.
Proof.
  induction 1 as [sram0 Hlen | p time _ IH | p address value time p' _ IH Hw].
  - exact Hlen.
  - exact IH.
  - revert Hw. unfold writeMem.
    destruct (Z.land address 16383 =? 8190).
    { intros [= <-].
      now destruct (checkSramEnable_flag
        (mkPac (sram p) value (r1fff p) (sramEnabled p) (invalidated p)))
        as (_ & _ & _ & ->). }
    destruct (Z.land address 16383 =? 8191).
    { intros [= <-].
      now destruct (checkSramEnable_flag
        (mkPac (sram p) (r1ffe p) value (sramEnabled p) (invalidated p)))
        as (_ & _ & _ & ->). }
    destruct (sramEnabled p && (Z.land address 16383 <? 8190)).
    + intros Hw. apply SRAM_write_fields in Hw.
      destruct Hw as (_ & _ & _ & E). now rewrite E.
    + now intros [= <-].
Qed.

Lemma land_16383_nonneg address : 0 <= Z.land address 16383.
Proof. apply Z.land_nonneg. right. lia. Qed.

(** [writeMem] and [readMem] never abort on a reachable PAC. *)
Lemma writeMem_total address value time p :
  reachable p -> exists p', writeMem address value time p = Done p'.
Proof.
  intros Hr. apply reachable_sram_size in Hr. unfold writeMem.
  destruct (Z.land address 16383 =? 8190); [eauto |].
  destruct (Z.land address 16383 =? 8191); [eauto |].
  destruct (sramEnabled p); simpl; [| eauto].
  destruct (Z.ltb_spec (Z.land address 16383) 8190); [| eauto].
  unfold SRAM_write. pose proof (land_16383_nonneg address).
  destruct (Z.ltb_spec (Z.land address 16383) 0); [lia |].
  destruct (Z.leb_spec (Z.of_nat (length (sram p))) (Z.land address 16383));
    [lia |].
  simpl. eauto.
Qed.

Lemma readMem_total address time p :
  reachable p -> exists v, readMem address time p = Done v.
Proof.
  intros Hr. apply reachable_sram_size in Hr. unfold readMem.
  destruct (sramEnabled p); [| eauto].
  destruct (Z.ltb_spec (Z.land address 16383) 8190).
  - apply at_index_in_range. pose proof (land_16383_nonneg address). lia.
  - destruct (Z.land address 16383 =? 8190); [eauto |].
    destruct (Z.land address 16383 =? 8191); eauto.
Qed.

(** C9: on every PAC built by the constructor and driven by [reset] and
    [writeMem], [sramEnabled] holds exactly when [r1ffe] is 0x4D and [r1fff]
    is 0x69; hence, when that condition is false, [readMem] gives 0xFF at
    every address. *)
Theorem sramEnabled_tracks_registers (p : Pac) :
  reachable p ->
  (sramEnabled p = true <-> r1ffe p = 77 /\ r1fff p = 105) /\
  (~ (r1ffe p = 77 /\ r1fff p = 105) ->
   forall address time, readMem address time p = Done 255).
Proof.
  intros Hr.
  assert (Hflag : flag_agrees p).
  { induction Hr as [sram0 Hlen | p time _ _ | p address value time p' _ IH Hw].
    - unfold flag_agrees, enableCondition. simpl. split; [discriminate | lia].
    - unfold flag_agrees, enableCondition. simpl. split; [discriminate | lia].
    - exact (writeMem_flag_agrees _ _ _ _ _ IH Hw). }
  split; [exact Hflag |].
  intros Hoff address time. unfold readMem.
  destruct (sramEnabled p) eqn:E; [| reflexivity].
  exfalso. apply Hoff. now apply Hflag.
Qed.

Lemma sramEnabled_tracks_registers_witness :
  reachable (mkPac (replicate (Z.to_nat 8190) 255) 77 255 false []) /\
  readMem 8190 0 (mkPac (replicate (Z.to_nat 8190) 255) 77 255 false [])
    = Done 255.
Proof.
  assert (Hr : reachable (mkPac (replicate (Z.to_nat 8190) 255) 77 255 false [])).
  { apply (reach_writeMem (MSXPac_ctor (replicate (Z.to_nat 8190) 255))
             8190 77 0).
    - apply reach_ctor. rewrite length_replicate. lia.
    - reflexivity. }
  split; [exact Hr |].
  destruct (sramEnabled_tracks_registers _ Hr) as [_ Hoff].
  apply Hoff. simpl. lia.
Defined.

(** *** Reads, writes and cache lines *)

(** What [writeMem] does to each member. *)
Lemma writeMem_effect address value time p p' :
  writeMem address value time p = Done p' ->
  let a := Z.land address 16383 in
  sram p' = (if sramEnabled p && (a <? 8190)
             then <[Z.to_nat a := value]> (sram p) else sram p) /\
  r1ffe p' = (if a =? 8190 then value else r1ffe p) /\
  r1fff p' = (if a =? 8191 then value else r1fff p) /\
  sramEnabled p' = (if (a =? 8190) || (a =? 8191)
                    then (r1ffe p' =? 77) && (r1fff p' =? 105)
                    else sramEnabled p) /\
  invalidated p' = invalidated p ++
                   (if eqb (sramEnabled p) (sramEnabled p') then []
                    else [mkInvalidate 0 65536]).
Proof.
  cbv zeta. unfold writeMem.
  destruct (Z.eqb_spec (Z.land address 16383) 8190) as [E0 | N0].
  { intros [= <-]. rewrite E0. unfold checkSramEnable.
    cbn [r1ffe r1fff sramEnabled sram invalidated].
    destruct (sramEnabled p), (value =? 77) eqn:Ev, (r1fff p =? 105) eqn:Er;
      cbn; rewrite ?Ev, ?Er, ?app_nil_r; repeat split; reflexivity. }
  destruct (Z.eqb_spec (Z.land address 16383) 8191) as [E1 | N1].
  { intros [= <-]. rewrite E1. unfold checkSramEnable.
    cbn [r1ffe r1fff sramEnabled sram invalidated].
    destruct (sramEnabled p), (r1ffe p =? 77) eqn:Er, (value =? 105) eqn:Ev;
      cbn; rewrite ?Ev, ?Er, ?app_nil_r; repeat split; reflexivity. }
  cbn [orb].
  destruct (sramEnabled p && (Z.land address 16383 <? 8190)) eqn:Ew.
  - unfold SRAM_write.
    destruct ((Z.land address 16383 <? 0) ||
              (Z.of_nat (length (sram p)) <=? Z.land address 16383));
      [discriminate |].
    intros [= <-]. cbn. rewrite eqb_reflx, app_nil_r. auto.
  - intros [= <-]. rewrite eqb_reflx, app_nil_r. auto.
Qed.

(** X1: with the SRAM enabled, a byte written at an SRAM address (masked
    address below 0x1FFE) is the byte read back there, and the write changes
    the byte read at no other masked address. *)
Theorem sram_write_then_read (p : Pac) (address value time time' : Z) :
  reachable p -> sramEnabled p = true ->
  Z.land address 16383 < 8190 ->
  exists p',
    writeMem address value time p = Done p' /\
    readMem address time' p' = Done value /\
    (forall other,
       Z.land other 16383 <> Z.land address 16383 ->
       readMem other time' p' = readMem other time' p).
Proof.
  intros Hr He Ha.
  destruct (writeMem_total address value time p Hr) as [p' Hw].
  pose proof (reachable_sram_size p Hr) as Hlen.
  pose proof (land_16383_nonneg address) as H0.
  destruct (writeMem_effect _ _ _ _ _ Hw) as (Hs & H1 & H2 & Hen & _).
  cbv zeta in *.
  assert (Hlt : (Z.land address 16383 <? 8190) = true) by (apply Z.ltb_lt; lia).
  assert (N0 : (Z.land address 16383 =? 8190) = false) by (apply Z.eqb_neq; lia).
  assert (N1 : (Z.land address 16383 =? 8191) = false) by (apply Z.eqb_neq; lia).
  rewrite He, Hlt in Hs. rewrite N0 in H1. rewrite N1 in H2.
  rewrite N0, N1, He in Hen. cbn in Hs, Hen.
  exists p'. split; [exact Hw |]. split.
  - unfold readMem. rewrite Hen, Hlt, Hs. apply at_index_Done.
    split; [lia |]. apply list_lookup_insert_eq. lia.
  - intros other Hne. unfold readMem. rewrite Hen, He, H1, H2, Hs.
    destruct (Z.land other 16383 <? 8190) eqn:Eo; [| reflexivity].
    unfold at_index. pose proof (land_16383_nonneg other).
    destruct (Z.ltb_spec (Z.land other 16383) 0); [lia |].
    rewrite list_lookup_insert_ne by lia. reflexivity.
Qed.

Lemma sram_write_then_read_witness :
  exists p',
    writeMem 16 42 0
      (mkPac (replicate (Z.to_nat 8190) 255) 77 105 true [mkInvalidate 0 65536])
      = Done p' /\
    readMem 16 1 p' = Done 42.
Proof.
  assert (Hr : reachable (mkPac (replicate (Z.to_nat 8190) 255) 77 105 true
                                [mkInvalidate 0 65536])).
  { apply (reach_writeMem
             (mkPac (replicate (Z.to_nat 8190) 255) 77 255 false []) 8191 105 0).
    - apply (reach_writeMem (MSXPac_ctor (replicate (Z.to_nat 8190) 255))
               8190 77 0).
      + apply reach_ctor. rewrite length_replicate. lia.
      + reflexivity.
    - reflexivity. }
  destruct (sram_write_then_read _ 16 42 0 1 Hr eq_refl ltac:(reflexivity))
    as (p' & Hw & Hread & _).
  exists p'. split; [exact Hw | exact Hread].
Defined.

(** X2: [writeMem] changes the SRAM only when the SRAM is enabled and the
    masked address is below 0x1FFE, and then only the addressed byte;
    [reset] never changes it.  So the content survives while the SRAM is
    switched off. *)
Theorem sram_changes_only_when_enabled (p p' : Pac) (address value time : Z) :
  writeMem address value time p = Done p' ->
  sram (reset time p) = sram p /\
  sram p' =
    (if sramEnabled p && (Z.land address 16383 <? 8190)
     then <[Z.to_nat (Z.land address 16383) := value]> (sram p)
     else sram p).
Proof.
  intros Hw. split; [reflexivity |].
  now destruct (writeMem_effect _ _ _ _ _ Hw) as (Hs & _).
Qed.

Lemma sram_changes_only_when_enabled_witness :
  writeMem 16 42 0 (MSXPac_ctor [1; 2; 3]) = Done (MSXPac_ctor [1; 2; 3]) /\
  sram (MSXPac_ctor [1; 2; 3]) = [1; 2; 3].
Proof.
  assert (Hw : writeMem 16 42 0 (MSXPac_ctor [1; 2; 3])
               = Done (MSXPac_ctor [1; 2; 3])) by reflexivity.
  split; [exact Hw |].
  destruct (sram_changes_only_when_enabled _ _ 16 42 0 Hw) as [_ Hs].
  exact Hs.
Defined.

(** X3: [writeMem] invalidates the memory cache, over 0x0000..0x10000 and
    once, exactly when it changes [sramEnabled]; otherwise it makes no
    invalidation. *)
Theorem writeMem_invalidates_on_flag_change (p p' : Pac)
    (address value time : Z) :
  writeMem address value time p = Done p' ->
  invalidated p' =
    invalidated p ++
    (if eqb (sramEnabled p) (sramEnabled p') then []
     else [mkInvalidate 0 65536]).
Proof.
  intros Hw. now destruct (writeMem_effect _ _ _ _ _ Hw) as (_ & _ & _ & _ & Hi).
Qed.

Lemma writeMem_invalidates_on_flag_change_witness :
  invalidated (mkPac [] 77 105 true [mkInvalidate 0 65536])
  = [] ++ [mkInvalidate 0 65536].
Proof.
  apply (writeMem_invalidates_on_flag_change (mkPac [] 77 255 false [])
           (mkPac [] 77 105 true [mkInvalidate 0 65536]) 8191 105 0).
  reflexivity.
Defined.

(** A write to one of the two registers always returns; it stores the byte
    and makes the flag agree with the registers. *)
Lemma write_register (p : Pac) (a v t : Z) :
  a = 8190 \/ a = 8191 ->
  exists p',
    writeMem a v t p = Done p' /\
    r1ffe p' = (if a =? 8190 then v else r1ffe p) /\
    r1fff p' = (if a =? 8191 then v else r1fff p) /\
    sramEnabled p' = (r1ffe p' =? 77) && (r1fff p' =? 105).
Proof.
  intros Ha.
  assert (Hw : exists p', writeMem a v t p = Done p')
    by (destruct Ha as [-> | ->]; eexists; reflexivity).
  destruct Hw as [p' Hw]. exists p'. split; [exact Hw |].
  destruct (writeMem_effect _ _ _ _ _ Hw) as (_ & H1 & H2 & Hen & _).
  cbv zeta in *. destruct Ha as [-> | ->]; cbn in H1, H2, Hen; auto.
Qed.

(** X4: whatever the PAC holds, writing 0x4D to 0x1FFE and 0x69 to 0x1FFF,
    in either order, switches the SRAM on, and the two bytes are then read
    back at these addresses. *)
Theorem magic_bytes_enable_sram (p : Pac) (t1 t2 t3 : Z) :
  (exists p1 p2,
     writeMem 8190 77 t1 p = Done p1 /\ writeMem 8191 105 t2 p1 = Done p2 /\
     sramEnabled p2 = true /\
     readMem 8190 t3 p2 = Done 77 /\ readMem 8191 t3 p2 = Done 105) /\
  (exists p1 p2,
     writeMem 8191 105 t1 p = Done p1 /\ writeMem 8190 77 t2 p1 = Done p2 /\
     sramEnabled p2 = true /\
     readMem 8190 t3 p2 = Done 77 /\ readMem 8191 t3 p2 = Done 105).
Proof.
  split.
  - destruct (write_register p 8190 77 t1) as (p1 & Hw1 & E1 & _); [auto |].
    destruct (write_register p1 8191 105 t2) as (p2 & Hw2 & F1 & F2 & Hen);
      [auto |].
    cbn in E1, F1, F2. rewrite F1, F2, E1 in Hen. cbn in Hen.
    exists p1, p2. split; [exact Hw1 |]. split; [exact Hw2 |].
    split; [exact Hen |]. unfold readMem. rewrite Hen. cbn.
    rewrite F1, E1, F2. auto.
  - destruct (write_register p 8191 105 t1) as (p1 & Hw1 & _ & E2 & _); [auto |].
    destruct (write_register p1 8190 77 t2) as (p2 & Hw2 & F1 & F2 & Hen);
      [auto |].
    cbn in E2, F1, F2. rewrite F1, F2, E2 in Hen. cbn in Hen.
    exists p1, p2. split; [exact Hw1 |]. split; [exact Hw2 |].
    split; [exact Hen |]. unfold readMem. rewrite Hen. cbn.
    rewrite F1, F2, E2. auto.
Qed.

(** On an aligned address the offsets of a line add up under the 14-bit
    address mask, and the line of 0x1FFE starts at most 0x1FFE and ends
    after 0x1FFF. *)
Lemma pac_line_arith (bits address : Z) :
  1 <= bits <= 14 -> 0 <= address < 65536 ->
  Z.land address (65536 - 2 ^ bits) = address ->
  let m := Z.land address 16383 in
  let line := Z.land 8190 (65536 - 2 ^ bits) in
  0 <= m /\ line <= 8190 /\ 8192 <= line + 2 ^ bits /\
  (m < line -> m + 2 ^ bits <= line) /\
  (line < m -> line + 2 ^ bits <= m) /\
  (forall i, 0 <= i < 2 ^ bits -> Z.land (address + i) 16383 = m + i).
Proof.
  intros Hb Ha Hal. cbv zeta.
  rewrite land_line_mask in Hal by lia.
  rewrite (land_line_mask 8190) by lia.
  rewrite land_16383.
  assert (Hi : forall i, 0 <= i < 2 ^ bits ->
               (address + i) mod 16384 = address mod 16384 + i).
  { each_bits bits; try lia; eval_pow2; intros i Hi;
      Z.div_mod_to_equations; lia. }
  split; [apply Z.mod_pos_bound; lia |].
  split; [| split; [| split; [| split]]].
  - each_bits bits; try lia; eval_pow2; Z.div_mod_to_equations; lia.
  - each_bits bits; try lia; eval_pow2; Z.div_mod_to_equations; lia.
  - each_bits bits; try lia; eval_pow2; Z.div_mod_to_equations; lia.
  - each_bits bits; try lia; eval_pow2; Z.div_mod_to_equations; lia.
  - intros i Hi'. rewrite land_16383. now apply Hi.
Qed.

(** X5: on a line-aligned address, what [getReadCacheLine] hands out agrees
    with [readMem] on the whole line: a pointer into the SRAM has, at every
    offset of the line, the byte that [readMem] returns, and [unmappedRead]
    is handed out only when [readMem] returns 0xFF on the whole line. *)
Theorem pac_read_line_agrees (HIGH bits : Z) (p : Pac) (address time : Z) :
  HIGH = 65536 - 2 ^ bits -> 1 <= bits <= 14 ->
  reachable p -> 0 <= address < 65536 -> Z.land address HIGH = address ->
  match getReadCacheLine HIGH address p with
  | ReadNull => True
  | ReadSram offset =>
      forall i, 0 <= i < 2 ^ bits ->
      exists v, at_index (sram p) (offset + i) = Done v /\
                readMem (address + i) time p = Done v
  | ReadUnmapped =>
      forall i, 0 <= i < 2 ^ bits ->
      readMem (address + i) time p = Done 255
  end.
Proof.
  intros -> Hb Hr Ha Hal.
  destruct (pac_line_arith bits address Hb Ha Hal)
    as (Hm & Hline & Hend & Hbelow & Habove & Hi).
  pose proof (reachable_sram_size p Hr) as Hlen.
  unfold getReadCacheLine, readMem.
  destruct (sramEnabled p); [| reflexivity].
  destruct (Z.ltb_spec (Z.land address 16383)
                       (Z.land 8190 (65536 - 2 ^ bits))) as [Hlt | Hge].
  - intros i Hi'. rewrite (Hi i Hi'). specialize (Hbelow Hlt).
    destruct (Z.ltb_spec (Z.land address 16383 + i) 8190); [| lia].
    destruct (at_index_in_range (sram p) (Z.land address 16383 + i)) as [v Hv];
      [lia | eauto].
  - destruct (Z.eqb_spec (Z.land address 16383)
                         (Z.land 8190 (65536 - 2 ^ bits))) as [Heq | Hne];
      [exact I |].
    intros i Hi'. rewrite (Hi i Hi'). specialize (Habove ltac:(lia)).
    destruct (Z.ltb_spec (Z.land address 16383 + i) 8190); [lia |].
    destruct (Z.eqb_spec (Z.land address 16383 + i) 8190); [lia |].
    destruct (Z.eqb_spec (Z.land address 16383 + i) 8191); [lia |].
    reflexivity.
Qed.

Lemma pac_read_line_agrees_witness :
  getReadCacheLine 65280 256
    (mkPac (replicate (Z.to_nat 8190) 255) 77 105 true [mkInvalidate 0 65536])
    = ReadSram 256 /\
  forall i, 0 <= i < 2 ^ 8 ->
  exists v,
    at_index (replicate (Z.to_nat 8190) 255) (256 + i) = Done v /\
    readMem (256 + i) 0
      (mkPac (replicate (Z.to_nat 8190) 255) 77 105 true [mkInvalidate 0 65536])
      = Done v.
Proof.
  split; [reflexivity |].
  assert (Hr : reachable (mkPac (replicate (Z.to_nat 8190) 255) 77 105 true
                                [mkInvalidate 0 65536])).
  { apply (reach_writeMem
             (mkPac (replicate (Z.to_nat 8190) 255) 77 255 false []) 8191 105 0).
    - apply (reach_writeMem (MSXPac_ctor (replicate (Z.to_nat 8190) 255))
               8190 77 0).
      + apply reach_ctor. rewrite length_replicate. lia.
      + reflexivity.
    - reflexivity. }
  exact (pac_read_line_agrees 65280 8 _ 256 0 eq_refl ltac:(lia) Hr
           ltac:(lia) eq_refl).
Defined.

(** X6: on a line-aligned address, [getWriteCacheLine] hands out
    [unmappedWrite] only when [writeMem] ignores every write to the line:
    no byte written anywhere in the line changes the PAC. *)
Theorem pac_write_line_unmapped_ignores (HIGH bits : Z) (p : Pac)
    (address : Z) :
  HIGH = 65536 - 2 ^ bits -> 1 <= bits <= 14 ->
  0 <= address < 65536 -> Z.land address HIGH = address ->
  getWriteCacheLine HIGH address p = WriteUnmapped ->
  forall i value time, 0 <= i < 2 ^ bits ->
  writeMem (address + i) value time p = Done p.
Proof.
  intros -> Hb Ha Hal Hline i value time Hi'.
  destruct (pac_line_arith bits address Hb Ha Hal)
    as (Hm & Hl & Hend & Hbelow & Habove & Hi).
  unfold getWriteCacheLine in Hline. unfold writeMem. rewrite (Hi i Hi').
  destruct (Z.eqb_spec (Z.land address 16383)
                       (Z.land 8190 (65536 - 2 ^ bits))) as [Heq | Hne];
    [discriminate |].
  destruct (sramEnabled p && (Z.land address 16383 <? 8190)) eqn:Ew;
    [discriminate |].
  assert (Hout : Z.land address 16383 + i < Z.land 8190 (65536 - 2 ^ bits) \/
                 8192 <= Z.land address 16383 + i).
  { destruct (Z_lt_le_dec (Z.land address 16383)
                          (Z.land 8190 (65536 - 2 ^ bits))) as [Hlt | Hge].
    - left. specialize (Hbelow Hlt). lia.
    - right. specialize (Habove ltac:(lia)). lia. }
  destruct (Z.eqb_spec (Z.land address 16383 + i) 8190); [lia |].
  destruct (Z.eqb_spec (Z.land address 16383 + i) 8191); [lia |].
  destruct (sramEnabled p); [| reflexivity]. cbn in Ew |- *.
  apply Z.ltb_ge in Ew.
  destruct (Z.ltb_spec (Z.land address 16383 + i) 8190); [lia | reflexivity].
Qed.

Lemma pac_write_line_unmapped_ignores_witness :
  getWriteCacheLine 65280 8192 (mkPac [] 77 105 true []) = WriteUnmapped /\
  0 <= 5 < 2 ^ 8 /\
  writeMem (8192 + 5) 42 0 (mkPac [] 77 105 true [])
    = Done (mkPac [] 77 105 true []).
Proof.
  split; [reflexivity |]. split; [lia |].
  apply (pac_write_line_unmapped_ignores 65280 8 (mkPac [] 77 105 true [])
           8192 eq_refl ltac:(lia) ltac:(lia) eq_refl eq_refl 5 42 0).
  lia.
Defined.

(** X22: [reset] hides the SRAM without touching it and without
    invalidating the memory cache: every address reads as 0xFF afterwards
    and no read cache line points into the SRAM; once the two magic bytes
    are written again, with one invalidation, the SRAM addresses read the
    bytes they held before the reset. *)
Theorem sram_survives_reset (p : Pac) (time t1 t2 : Z) :
  (forall address t, readMem address t (reset time p) = Done 255) /\
  (forall HIGH address,
     getReadCacheLine HIGH address (reset time p) = ReadUnmapped) /\
  sram (reset time p) = sram p /\
  invalidated (reset time p) = invalidated p /\
  exists p1 p2,
    writeMem 8190 77 t1 (reset time p) = Done p1 /\
    writeMem 8191 105 t2 p1 = Done p2 /\
    sram p2 = sram p /\
    invalidated p2 = invalidated p ++ [mkInvalidate 0 65536] /\
    (forall address t,
       Z.land address 16383 < 8190 ->
       readMem address t p2 = at_index (sram p) (Z.land address 16383)).
Proof.
  split; [reflexivity |]. split; [reflexivity |].
  split; [reflexivity |]. split; [reflexivity |].
  exists (mkPac (sram p) 77 255 false (invalidated p)),
         (mkPac (sram p) 77 105 true
                (invalidated p ++ [mkInvalidate 0 65536])).
  split; [reflexivity |]. split; [reflexivity |].
  split; [reflexivity |]. split; [reflexivity |].
  intros address t Hlt. unfold readMem. cbn [sramEnabled sram].
  destruct (Z.ltb_spec (Z.land address 16383) 8190); [reflexivity | lia].
Qed.

Lemma sram_survives_reset_witness :
  exists p1 p2,
    writeMem 8190 77 0 (reset 0 (mkPac [1; 2; 3] 77 105 true [])) = Done p1 /\
    writeMem 8191 105 0 p1 = Done p2 /\
    readMem 1 0 p2 = Done 2.
Proof.
  destruct (sram_survives_reset (mkPac [1; 2; 3] 77 105 true []) 0 0 0)
    as (_ & _ & _ & _ & p1 & p2 & H1 & H2 & _ & _ & Hr).
  exists p1, p2. split; [exact H1 |]. split; [exact H2 |].
  rewrite (Hr 1 0 ltac:(reflexivity)). reflexivity.
Defined.

End PacProps.

(** ** The AMD flash chip *)

Module FlashProps.
Import AmdFlash.

Lemma total_ret {A : Type} (P : Flash -> Prop) (a : A) :
  total P (ret a) (fun x f => x = a /\ P f).
Proof. intros f Hf. exists a, f. auto. Qed.

Lemma total_bind {A B : Type} (P : Flash -> Prop) (c : M A)
    (Q : A -> Flash -> Prop) (k : A -> M B) (R : B -> Flash -> Prop) :
  total P c Q -> (forall a, total (Q a) (k a) R) -> total P (bind c k) R.
Proof.
  intros Hc Hk f Hf. destruct (Hc f Hf) as (a & f1 & E1 & Hq).
  destruct (Hk a f1 Hq) as (b & f2 & E2 & Hr).
  exists b, f2. unfold bind. rewrite E1. auto.
Qed.

Lemma total_weaken {A : Type} (P P' : Flash -> Prop) (c : M A)
    (Q Q' : A -> Flash -> Prop) :
  total P' c Q' -> (forall f, P f -> P' f) ->
  (forall a f, Q' a f -> Q a f) -> total P c Q.
Proof.
  intros Hc Hp Hq f Hf. destruct (Hc f (Hp f Hf)) as (a & f' & E & H').
  exists a, f'. auto.
Qed.

Lemma total_lift {A : Type} (P : Flash -> Prop) (c : Flash -> outcome A)
    (Q : A -> Flash -> Prop) :
  (forall f, P f -> exists a, c f = Done a /\ Q a f) -> total P (lift c) Q.
Proof.
  intros Hc f Hf. destruct (Hc f Hf) as (a & E & Hq).
  exists a, f. unfold lift. rewrite E. auto.
Qed.

Lemma total_modify (P : Flash -> Prop) (g : Flash -> Flash)
    (Q : unit -> Flash -> Prop) :
  (forall f, P f -> Q tt (g f)) -> total P (modify g) Q.
Proof. intros Hg f Hf. exists tt, (g f). auto. Qed.

Lemma total_orElse (P : Flash -> Prop) (c1 c2 : M bool)
    (Q : bool -> Flash -> Prop) :
  total P c1 (fun b f => if b then Q true f else P f) ->
  total P c2 Q -> total P (orElse c1 c2) Q.
Proof.
  intros H1 H2. unfold orElse. eapply total_bind; [exact H1 |].
  intros [|]; simpl.
  - intros f Hf. exists true, f. auto.
  - exact H2.
Qed.

(** *** Arithmetic *)

Lemma land_mask_range a m : 0 <= m -> 0 <= Z.land a m <= m.
Proof.
  intros Hm. apply Z.ldiff_le; [exact Hm |].
  apply Z.bits_inj'. intros n Hn.
  rewrite Z.ldiff_spec, Z.land_spec, Z.bits_0.
  now destruct (Z.testbit a n), (Z.testbit m n).
Qed.

Lemma i32_small z : 0 <= z < 2147483648 -> i32 z = z.
Proof. intros Hz. unfold i32. Z.div_mod_to_equations. lia. Qed.

Lemma total_size_nonneg sectors :
  Forall (fun si => 0 <= sec_size si) sectors -> 0 <= total_size sectors.
Proof. induction 1; simpl; lia. Qed.

Lemma sum_sizes_from sectors : forall acc,
  Forall (fun si => 0 <= sec_size si) sectors ->
  0 <= acc -> acc + total_size sectors < 4294967296 ->
  fold_left (fun a si => u32 (a + sec_size si)) sectors acc
  = acc + total_size sectors.
Proof.
  induction sectors as [| si rest IH]; intros acc Hall Hacc Hfit; simpl.
  - lia.
  - inversion Hall as [| ? ? Hsi Hrest]; subst. simpl in Hfit.
    pose proof (total_size_nonneg rest Hrest).
    rewrite u32_small by lia. rewrite IH by (auto; lia). lia.
Qed.

Lemma sum_sizes_total sectors :
  Forall (fun si => 0 <= sec_size si) sectors ->
  total_size sectors < 4294967296 ->
  sum_sizes sectors = total_size sectors.
Proof.
  intros Hall Hfit. unfold sum_sizes.
  rewrite sum_sizes_from by (auto; lia). lia.
Qed.

(** *** The sector tables *)

(** The loop of [getSectorInfo] stops in the sector that holds the address:
    it gives the number of that sector, its size, and an offset inside it. *)
Lemma getSectorInfo_loop_finds it : forall address sector,
  Forall (fun si => 0 <= sec_size si) it ->
  0 <= address < total_size it ->
  0 <= sector < 4294967296 ->
  exists k si offset,
    it !! k = Some si /\
    getSectorInfo_loop it address sector
      = Done (u32 (sector + Z.of_nat k), sec_size si, offset) /\
    0 <= offset < sec_size si.
Proof.
  induction it as [| s0 rest IH]; intros address sector Hall Ha Hsec;
    simpl in *.
  - lia.
  - inversion Hall as [| ? ? Hs0 Hrest]; subst.
    destruct (Z.leb_spec (sec_size s0) address) as [Hge | Hlt].
    + destruct (IH (address - sec_size s0) (u32 (sector + 1)) Hrest)
        as (k & si & offset & Hk & Hloop & Hoff);
        [lia | apply u32_range |].
      exists (S k), si, offset. split; [exact Hk |]. split; [| exact Hoff].
      rewrite Hloop. rewrite u32_add_l.
      now replace (sector + Z.of_nat (S k)) with (sector + 1 + Z.of_nat k)
        by lia.
    + exists O, s0, address. split; [reflexivity |]. split; [| lia].
      now rewrite Z.add_0_r, u32_small.
Qed.

(** The first loop of [init]: one entry per sector, and each entry other
    than -1 is the start of a block of the sector's size inside the first
    [writableSize] bytes. *)
Lemma init_writeAddress_blocks sectors : forall W R,
  Forall (fun si => 0 <= sec_size si) sectors ->
  0 <= W -> W + total_size sectors < 2147483648 ->
  length (init_writeAddress sectors W R).1.1 = length sectors /\
  W <= (init_writeAddress sectors W R).1.2 <= W + total_size sectors /\
  (forall k si w,
     sectors !! k = Some si ->
     (init_writeAddress sectors W R).1.1 !! k = Some w ->
     w <> -1 ->
     0 <= w /\ w + sec_size si <= (init_writeAddress sectors W R).1.2).
Proof.
  induction sectors as [| s0 rest IH]; intros W R Hall HW Hfit.
  - simpl. split; [reflexivity |]. split; [lia |].
    intros k si w Hk. discriminate Hk.
  - inversion Hall as [| ? ? Hs0 Hrest]; subst. simpl in Hfit.
    pose proof (total_size_nonneg rest Hrest) as Hnn.
    cbn [init_writeAddress]. destruct (writeProtected s0).
    + specialize (IH W (u32 (R + sec_size s0)) Hrest HW ltac:(lia)).
      destruct (init_writeAddress rest W (u32 (R + sec_size s0)))
        as [[wa W'] R'] eqn:E.
      cbn [fst snd length] in *. destruct IH as (Hlen & HW' & Hblk).
      split; [simpl; now rewrite Hlen |]. split; [simpl; lia |].
      intros [| k] si w; simpl.
      * intros _ [= <-] Hw. congruence.
      * intros. eapply Hblk; eauto.
    + assert (EW : u32 (W + sec_size s0) = W + sec_size s0)
        by (apply u32_small; lia).
      specialize (IH (u32 (W + sec_size s0)) R Hrest ltac:(lia) ltac:(lia)).
      destruct (init_writeAddress rest (u32 (W + sec_size s0)) R)
        as [[wa W'] R'] eqn:E.
      cbn [fst snd length] in *. destruct IH as (Hlen & HW' & Hblk).
      rewrite i32_small by lia.
      split; [simpl; now rewrite Hlen |]. split; [simpl; lia |].
      intros [| k] si w; simpl.
      * intros [= <-] [= <-] _. lia.
      * intros. eapply Hblk; eauto.
Qed.

Lemma sectorWritable_total vpp (wa : list Z) (k : nat) :
  (k < length wa)%nat ->
  exists b,
    sectorWritable vpp wa (Z.of_nat k) = Done b /\
    (b = true -> exists w, wa !! k = Some w /\ w <> -1).
Proof.
  intros Hk. unfold sectorWritable.
  destruct (vpp && ((Z.of_nat k =? 0) || (Z.of_nat k =? 1))).
  - exists false. split; [reflexivity | discriminate].
  - destruct (lookup_lt_is_Some_2 wa k Hk) as [w Hw].
    assert (Hat : at_index wa (Z.of_nat k) = Done w)
      by (apply at_index_Done; rewrite Nat2Z.id; split; [lia | exact Hw]).
    rewrite Hat. simpl. exists (negb (w =? -1)). split; [reflexivity |].
    intros Hb. exists w. split; [exact Hw |].
    apply negb_true_iff in Hb. now apply Z.eqb_neq.
Qed.

Lemma total_ret_post {A : Type} (P : Flash -> Prop) (a : A)
    (Q : A -> Flash -> Prop) :
  (forall f, P f -> Q a f) -> total P (ret a) Q.
Proof. intros Hq f Hf. exists a, f. auto. Qed.

Lemma total_pure_pre {A : Type} (phi : Prop) (P : Flash -> Prop) (c : M A)
    (Q : A -> Flash -> Prop) :
  (phi -> total P c Q) -> total (fun f => phi /\ P f) c Q.
Proof. intros Hc f [Hphi Hf]. exact (Hc Hphi f Hf). Qed.

Lemma partialMatch_loop_total f dataSeq count : forall i,
  0 <= i -> i + Z.of_nat count <= 5 ->
  i + Z.of_nat count <= Z.of_nat (length dataSeq) ->
  6 <= Z.of_nat (length (cmd f)) ->
  exists b, partialMatch_loop f dataSeq i count = Done b.
Proof.
  induction count as [| count IH]; intros i Hi H5 Hseq Hcmd;
    cbn [partialMatch_loop].
  - eauto.
  - destruct (at_index_in_range (cmd f) i) as [c Hc]; [lia |].
    destruct (at_index_in_range dataSeq i) as [d Hd]; [lia |].
    rewrite Hc. cbn [obind].
    assert (Hk : exists k expected,
               at_index addrSeq i = Done k /\
               at_index cmdAddr k = Done expected).
    { assert (Hcases : i = 0 \/ i = 1 \/ i = 2 \/ i = 3 \/ i = 4) by lia.
      destruct Hcases as [-> | [-> | [-> | [-> | ->]]]];
        cbn; eauto. }
    destruct Hk as (k & expected & -> & Hexp). cbn [obind].
    rewrite Hexp, Hd. cbn [obind].
    destruct (negb (Z.land (if use12bitAddressing f
                            then Z.shiftr (addr c) 1 else addr c) 2047
                    =? expected) || negb (value c =? d)); [eauto |].
    apply IH; lia.
Qed.

(** The second loop of [init]: one pointer per sector; a pointer into the
    SRAM is the [writeAddress] entry of its sector, which is not -1, and a
    pointer into the ROM has the whole sector inside the ROM. *)
Lemma init_readAddress_ptrs vpp (wa : list Z) romSize it :
  forall i offset ps,
  Forall (fun si => 0 <= sec_size si) it ->
  0 <= offset -> offset + total_size it < 4294967296 ->
  Z.of_nat i + Z.of_nat (length it) < 4294967296 ->
  init_readAddress vpp wa romSize it (Z.of_nat i) offset = Done ps ->
  length ps = length it /\
  (forall k p si,
     ps !! k = Some p -> it !! k = Some si ->
     match p with
     | NullPtr => True
     | RamPtr o => exists w, wa !! (i + k)%nat = Some w /\ w <> -1 /\ o = u32 w
     | RomPtr o => 0 <= o /\ o + sec_size si <= romSize
     end).
Proof.
  induction it as [| s0 rest IH]; intros i offset ps Hall Hoff Hfit Hcount;
    cbn [init_readAddress].
  - intros [= <-]. split; [reflexivity |]. intros k p si Hk. discriminate Hk.
  - inversion Hall as [| ? ? Hs0 Hrest]; subst.
    cbn [total_size fold_right length] in Hfit, Hcount.
    fold (total_size rest) in Hfit.
    pose proof (total_size_nonneg rest Hrest) as Hnn.
    rewrite (u32_small (offset + sec_size s0)) by lia.
    replace (u32 (Z.of_nat i + 1)) with (Z.of_nat (S i))
      by (rewrite u32_small; lia).
    destruct (sectorWritable vpp wa (Z.of_nat i)) as [b |] eqn:Hb;
      [| discriminate]. cbn [obind].
    assert (Hptr : exists p0,
      (if b then obind (at_index wa (Z.of_nat i))
                       (fun a => Done (RamPtr (u32 a)))
       else Done (if offset + sec_size s0 <=? romSize
                  then RomPtr offset else NullPtr)) = Done p0 /\
      match p0 with
      | NullPtr => True
      | RamPtr o => exists w, wa !! i = Some w /\ w <> -1 /\ o = u32 w
      | RomPtr o => 0 <= o /\ o + sec_size s0 <= romSize
      end \/
      (if b then obind (at_index wa (Z.of_nat i))
                       (fun a => Done (RamPtr (u32 a)))
       else Done (if offset + sec_size s0 <=? romSize
                  then RomPtr offset else NullPtr)) = Abort OutOfRange).
    { destruct b.
      - unfold sectorWritable in Hb.
        destruct (vpp && ((Z.of_nat i =? 0) || (Z.of_nat i =? 1)));
          [discriminate |].
        destruct (at_index wa (Z.of_nat i)) as [w |] eqn:Hat;
          [| discriminate].
        cbn [obind] in *. injection Hb as Hb. apply negb_true_iff in Hb.
        apply Z.eqb_neq in Hb. apply at_index_Done in Hat.
        rewrite Nat2Z.id in Hat. exists (RamPtr (u32 w)). left.
        split; [reflexivity |]. exists w. tauto.
      - destruct (Z.leb_spec (offset + sec_size s0) romSize).
        + exists (RomPtr offset). left. split; [reflexivity | lia].
        + exists NullPtr. left. split; [reflexivity | exact I]. }
    destruct Hptr as (p0 & [[-> Hp0] | ->]); [| discriminate]. cbn [obind].
    destruct (init_readAddress vpp wa romSize rest (Z.of_nat (S i))
                (offset + sec_size s0)) as [ps' |] eqn:Hrec; [| discriminate].
    cbn [obind]. intros [= <-].
    destruct (IH (S i) (offset + sec_size s0) ps' Hrest) as [Hlen Hps];
      [lia | lia | lia | exact Hrec |].
    split; [simpl; now rewrite Hlen |].
    intros [| k] p si; simpl.
    + intros [= <-] [= <-]. rewrite Nat.add_0_r. exact Hp0.
    + intros Hk Hsi. specialize (Hps k p si Hk Hsi).
      replace (i + S k)%nat with (S i + k)%nat by lia. exact Hps.
Qed.

(** *** The layout that [init] computes *)

Lemma sizes_where_split sectors :
  sizes_where false sectors + sizes_where true sectors = total_size sectors.
Proof.
  induction sectors as [| si rest IH]; simpl; [reflexivity |].
  fold (sizes_where false rest) (sizes_where true rest) (total_size rest).
  destruct (writeProtected si); simpl; lia.
Qed.

Lemma sizes_where_nonneg protected sectors :
  Forall (fun si => 0 <= sec_size si) sectors ->
  0 <= sizes_where protected sectors.
Proof.
  induction 1 as [| si rest Hsi _ IH]; simpl; [lia |].
  fold (sizes_where protected rest).
  destruct (eqb (writeProtected si) protected); lia.
Qed.

Lemma init_writeAddress_from sectors : forall W R,
  Forall (fun si => 0 <= sec_size si) sectors ->
  0 <= W -> W + total_size sectors < 2147483648 ->
  0 <= R -> R + total_size sectors < 4294967296 ->
  (init_writeAddress sectors W R).1.2 = W + sizes_where false sectors /\
  (init_writeAddress sectors W R).2 = R + sizes_where true sectors /\
  (forall k si,
     sectors !! k = Some si ->
     (init_writeAddress sectors W R).1.1 !! k
     = Some (if writeProtected si then -1
             else W + sizes_where false (take k sectors))).
Proof.
  induction sectors as [| s0 rest IH]; intros W R Hall HW HfitW HR HfitR.
  - simpl. split; [lia |]. split; [lia |]. intros k si Hk. discriminate Hk.
  - inversion Hall as [| ? ? Hs0 Hrest]; subst.
    cbn [total_size fold_right] in HfitW, HfitR. fold (total_size rest) in *.
    pose proof (total_size_nonneg rest Hrest) as Hnn.
    cbn [init_writeAddress sizes_where fold_right].
    fold (sizes_where false rest) (sizes_where true rest).
    destruct (writeProtected s0) eqn:Ep; cbn [eqb].
    + rewrite (u32_small (R + sec_size s0)) by lia.
      specialize (IH W (R + sec_size s0) Hrest HW ltac:(lia) ltac:(lia)
                     ltac:(lia)).
      destruct (init_writeAddress rest W (R + sec_size s0)) as [[wa W'] R'].
      simpl fst in *. simpl snd in *. destruct IH as (EW & ER & Hk).
      split; [lia |]. split; [lia |].
      intros [| k] si Hsi; simpl in Hsi |- *.
      * injection Hsi as <-. now rewrite Ep.
      * rewrite (Hk k si Hsi), Ep. reflexivity.
    + rewrite (u32_small (W + sec_size s0)) by lia.
      rewrite (i32_small W) by lia.
      specialize (IH (W + sec_size s0) R Hrest ltac:(lia) ltac:(lia) HR
                     ltac:(lia)).
      destruct (init_writeAddress rest (W + sec_size s0) R) as [[wa W'] R'].
      simpl fst in *. simpl snd in *. destruct IH as (EW & ER & Hk).
      split; [lia |]. split; [lia |].
      intros [| k] si Hsi; simpl in Hsi |- *.
      * injection Hsi as <-. rewrite Ep. f_equal. lia.
      * rewrite (Hk k si Hsi), Ep. simpl.
        destruct (writeProtected si); [reflexivity | f_equal; lia].
Qed.

(** X13: for sectors whose sizes add up to less than 2 GB, the first loop
    of [init] gives a write-protected sector the address -1 and every other
    sector the total size of the writable sectors in front of it, so the
    SRAM blocks follow each other without overlap; [writableSize] and
    [readOnlySize] are the total sizes of the two kinds of sectors, and the
    assertion [writableSize + readOnlySize == getSize()] holds. *)
Theorem init_lays_out_writable_sectors (sectors : list SectorInfo) :
  Forall (fun si => 0 <= sec_size si) sectors ->
  total_size sectors < 2147483648 ->
  (init_writeAddress sectors 0 0).1.2 = sizes_where false sectors /\
  (init_writeAddress sectors 0 0).2 = sizes_where true sectors /\
  (init_writeAddress sectors 0 0).1.2 + (init_writeAddress sectors 0 0).2
    = sum_sizes sectors /\
  (forall k si,
     sectors !! k = Some si ->
     (init_writeAddress sectors 0 0).1.1 !! k
     = Some (if writeProtected si then -1
             else sizes_where false (take k sectors))).
Proof.
  intros Hall Hfit.
  pose proof (total_size_nonneg sectors Hall) as Hnn.
  destruct (init_writeAddress_from sectors 0 0 Hall)
    as (EW & ER & Hk); try lia.
  rewrite EW, ER. split; [lia |]. split; [lia |]. split.
  - rewrite sum_sizes_total by (auto; lia).
    pose proof (sizes_where_split sectors). lia.
  - intros k si Hsi. rewrite (Hk k si Hsi).
    destruct (writeProtected si); [reflexivity | f_equal; lia].
Qed.

Lemma init_lays_out_writable_sectors_witness :
  (init_writeAddress (sectorInfo example_flash) 0 0).1.1 = [-1; 0; 16] /\
  (init_writeAddress (sectorInfo example_flash) 0 0).1.2 = 48 /\
  (init_writeAddress (sectorInfo example_flash) 0 0).2 = 16 /\
  (init_writeAddress (sectorInfo example_flash) 0 0).1.2
    + (init_writeAddress (sectorInfo example_flash) 0 0).2
    = sum_sizes (sectorInfo example_flash).
Proof.
  destruct (init_lays_out_writable_sectors (sectorInfo example_flash))
    as (EW & ER & Hsum & _).
  - repeat constructor; simpl; lia.
  - simpl. lia.
  - split; [reflexivity |]. split; [exact EW |]. split; [exact ER |].
    exact Hsum.
Defined.

Section Initialised.
Variable MAX_CMD_SIZE : Z.
Hypothesis cmd_buffer_holds_six : 6 <= MAX_CMD_SIZE.

Local Abbreviation at_idx := (AmdFlash.at_idx MAX_CMD_SIZE).
Local Abbreviation still_matching := (AmdFlash.still_matching MAX_CMD_SIZE).
Local Abbreviation after_checks := (AmdFlash.after_checks MAX_CMD_SIZE).
Local Abbreviation between_writes := (AmdFlash.between_writes MAX_CMD_SIZE).

Lemma writableSize_bound f :
  initialised MAX_CMD_SIZE f ->
  length (writeAddress f) = length (sectorInfo f) /\
  (init_writeAddress (sectorInfo f) 0 0).1.2 < 2147483648 /\
  (forall k si w,
     sectorInfo f !! k = Some si -> writeAddress f !! k = Some w -> w <> -1 ->
     0 <= w /\ w + sec_size si <= (init_writeAddress (sectorInfo f) 0 0).1.2).
Proof.
  intros Hi. destruct Hi as [Hsec _ Htot _ Hw _ _ _ _].
  destruct (init_writeAddress_blocks (sectorInfo f) 0 0 Hsec)
    as (Hlen & Hsz & Hblk); [lia | lia |].
  rewrite Hw. split; [exact Hlen |]. split; [lia | exact Hblk].
Qed.

(** [getSectorInfo] never fails its assertion. *)
Lemma getSectorInfo_finds f address :
  initialised MAX_CMD_SIZE f ->
  exists k si offset,
    sectorInfo f !! k = Some si /\
    getSectorInfo f address = Done (Z.of_nat k, sec_size si, offset) /\
    0 <= offset < sec_size si.
Proof.
  intros Hi. destruct Hi as [Hsec Hcount Htot Hsize _ _ _ _ _].
  unfold getSectorInfo. rewrite Hsize.
  rewrite sum_sizes_total by (auto; lia).
  rewrite (u32_small (total_size (sectorInfo f) - 1)) by lia.
  pose proof (land_mask_range address (total_size (sectorInfo f) - 1)
                ltac:(lia)) as Hland.
  destruct (getSectorInfo_loop_finds (sectorInfo f)
              (Z.land address (total_size (sectorInfo f) - 1)) 0 Hsec)
    as (k & si & offset & Hk & Hloop & Hoff); [lia | lia |].
  exists k, si, offset. split; [exact Hk |]. split; [| exact Hoff].
  rewrite Hloop. rewrite Z.add_0_l, u32_small; [reflexivity |].
  apply lookup_lt_Some in Hk. lia.
Qed.

(** A sector that [isSectorWritable] reports writable owns a block of the
    SRAM. *)
Lemma writable_sector_block f (k : nat) si :
  initialised MAX_CMD_SIZE f ->
  sectorInfo f !! k = Some si -> 0 < sec_size si ->
  exists b,
    isSectorWritable f (Z.of_nat k) = Done b /\
    (b = true ->
     exists w bytes,
       at_index (writeAddress f) (Z.of_nat k) = Done w /\
       ram f = Some bytes /\
       0 <= w /\ w + sec_size si <= Z.of_nat (length bytes) /\
       Z.of_nat (length bytes) < 2147483648).
Proof.
  intros Hi Hk Hpos.
  destruct (writableSize_bound f Hi) as (Hlen & Hsz & Hblk).
  destruct (sectorWritable_total (vppWpPinLow f) (writeAddress f) k)
    as (b & Hb & Hw).
  { rewrite Hlen. now apply lookup_lt_Some in Hk. }
  exists b. split; [exact Hb |]. intros ->.
  destruct (Hw eq_refl) as (w & Hwk & Hne).
  destruct (Hblk k si w Hk Hwk Hne) as [Hw0 Hfit].
  destruct (init_ram _ _ Hi) as (bytes & Hram & Hbytes); [lia |].
  exists w, bytes. split.
  - apply at_index_Done. rewrite Nat2Z.id. split; [lia | exact Hwk].
  - rewrite Hbytes. auto.
Qed.

(** Changes to the SRAM content, the command buffer content, the mode and
    the invalidation log keep the flash initialised. *)
Lemma initialised_set_ram f bytes bytes' :
  initialised MAX_CMD_SIZE f -> ram f = Some bytes ->
  length bytes' = length bytes ->
  initialised MAX_CMD_SIZE (set_ram (Some bytes') f).
Proof.
  intros Hi Hram Hlen. destruct Hi as [H1 H2 H3 H4 H5 H6 H7 H8 H9].
  constructor; simpl; auto.
  intros Hne. destruct (H6 Hne) as (bytes0 & Hram0 & Hlen0).
  exists bytes'. split; [reflexivity |]. congruence.
Qed.

Lemma initialised_setState f st :
  initialised MAX_CMD_SIZE f -> initialised MAX_CMD_SIZE (setState st f).
Proof.
  intros Hi. unfold setState. destruct (State_eqb (state f) st); [exact Hi |].
  destruct Hi. constructor; simpl; auto.
Qed.

Lemma cmdIdx_setState f st : cmdIdx (setState st f) = cmdIdx f.
Proof. unfold setState. now destruct (State_eqb (state f) st). Qed.

Lemma initialised_reset f :
  initialised MAX_CMD_SIZE f -> initialised MAX_CMD_SIZE (reset f).
Proof.
  intros Hi. unfold reset. apply initialised_setState.
  destruct Hi. constructor; simpl; auto. lia.
Qed.

Lemma cmdIdx_reset f : cmdIdx (reset f) = 0.
Proof. unfold reset. now rewrite cmdIdx_setState. Qed.

Lemma at_idx_set_ram n f bytes bytes' :
  at_idx n f -> ram f = Some bytes -> length bytes' = length bytes ->
  at_idx n (set_ram (Some bytes') f).
Proof.
  intros [Hi Hn] Hram Hlen. split; [| exact Hn].
  eapply initialised_set_ram; eauto.
Qed.

(** *** The SRAM *)

Lemma SRAM_memset_total n f bytes address c count :
  at_idx n f -> ram f = Some bytes ->
  0 <= address -> 0 <= count ->
  address + count <= Z.of_nat (length bytes) ->
  exists f', SRAM_memset address c count f = Done (tt, f') /\ at_idx n f'.
Proof.
  intros Hf Hram Ha Hc Hfit. unfold SRAM_memset. rewrite Hram.
  destruct (Z.ltb_spec address 0); [lia |].
  destruct (Z.ltb_spec count 0); [lia |].
  destruct (Z.ltb_spec (Z.of_nat (length bytes)) (address + count)); [lia |].
  simpl. eexists. split; [reflexivity |].
  eapply at_idx_set_ram; eauto.
  rewrite !length_app, length_take, length_replicate, length_drop. lia.
Qed.

Lemma SRAM_write_total n f bytes address v :
  at_idx n f -> ram f = Some bytes ->
  0 <= address < Z.of_nat (length bytes) ->
  exists f', SRAM_write address v f = Done (tt, f') /\ at_idx n f'.
Proof.
  intros Hf Hram Ha. unfold SRAM_write. rewrite Hram.
  destruct (Z.ltb_spec address 0); [lia |].
  destruct (Z.leb_spec (Z.of_nat (length bytes)) address); [lia |].
  simpl. eexists. split; [reflexivity |].
  eapply at_idx_set_ram; eauto. apply length_insert.
Qed.

(** [peek] never aborts on an initialised flash. *)
Lemma peek_total f address :
  initialised MAX_CMD_SIZE f -> exists v, peek f address = Done v.
Proof.
  intros Hi.
  destruct (getSectorInfo_finds f address Hi)
    as (k & si & offset & Hk & Hg & Hoff).
  destruct (writableSize_bound f Hi) as (Hlen & Hsz & Hblk).
  unfold peek. rewrite Hg. cbn [obind].
  destruct (state f).
  - destruct (init_read _ _ Hi) as [vpp Hread].
    pose proof (init_sectors _ _ Hi) as Hsec.
    pose proof (init_total _ _ Hi) as Htot.
    pose proof (init_count _ _ Hi) as Hcount.
    destruct (init_readAddress_ptrs vpp (writeAddress f)
                (Z.of_nat (length (rom f))) (sectorInfo f) O 0
                (readAddress f) Hsec) as [Hrlen Hptrs];
      [lia | lia | lia | exact Hread |].
    destruct (lookup_lt_is_Some_2 (readAddress f) k) as [p Hp].
    { rewrite Hrlen. now apply lookup_lt_Some in Hk. }
    assert (Hat : at_index (readAddress f) (Z.of_nat k) = Done p)
      by (apply at_index_Done; rewrite Nat2Z.id; split; [lia | exact Hp]).
    rewrite Hat. cbn [obind]. specialize (Hptrs k p si Hp Hk).
    destruct p as [| o | o]; [eauto | |].
    + destruct Hptrs as (w & Hw & Hne & ->). simpl in Hw.
      destruct (Hblk k si w Hk Hw Hne) as [Hw0 Hfit].
      destruct (init_ram _ _ Hi) as (bytes & Hram & Hbytes); [lia |].
      unfold deref. rewrite Hram. apply at_index_in_range.
      rewrite u32_small by lia. lia.
    + unfold deref. apply at_index_in_range. lia.
  - destruct (Z.land (if use12bitAddressing f then Z.shiftr address 1
                      else address) 3) as [| [? | [? | ? |] |] | ?]; eauto.
    destruct (writable_sector_block f k si Hi Hk ltac:(lia)) as (b & Hb & _).
    rewrite Hb. cbn [obind]. eauto.
Qed.

(** *** The commands *)

(** Erasing the sector of a command never leaves the SRAM. *)
Lemma eraseSector_total n c :
  total (at_idx n) (eraseSector c) (fun _ f' => at_idx n f').
Proof.
  intros f Hf. pose proof Hf as [Hi _].
  destruct (getSectorInfo_finds f (addr c) Hi)
    as (k & si & offset & Hk & Hg & Hoff).
  destruct (writable_sector_block f k si Hi Hk ltac:(lia)) as (b & Hb & Hw).
  unfold eraseSector, bind, lift. rewrite Hg, Hb.
  destruct b.
  - destruct (Hw eq_refl) as (w & bytes & Hat & Hram & Hw0 & Hfit & Hsz).
    rewrite Hat. unfold ret.
    destruct (SRAM_memset_total n f bytes (u32 w) 255 (sec_size si) Hf Hram)
      as (f' & Hm & Hf'); try (rewrite u32_small by lia); try lia.
    exists tt, f'. split; [| exact Hf'].
    rewrite <- Hm. now rewrite (u32_small w) by lia.
  - exists tt, f. auto.
Qed.

(** Programming the byte of a command never leaves the SRAM. *)
Lemma programByte_total n i :
  0 <= i < 6 ->
  total (at_idx n) (programByte i) (fun _ f' => at_idx n f').
Proof.
  intros Hi6 f Hf. pose proof Hf as [Hi _].
  destruct (at_index_in_range (cmd f) i) as [c Hc].
  { rewrite (init_cmd _ _ Hi). lia. }
  destruct (getSectorInfo_finds f (addr c) Hi)
    as (k & si & offset & Hk & Hg & Hoff).
  destruct (writable_sector_block f k si Hi Hk ltac:(lia)) as (b & Hb & Hw).
  unfold programByte, bind, lift. rewrite Hc, Hg, Hb.
  destruct b.
  - destruct (Hw eq_refl) as (w & bytes & Hat & Hram & Hw0 & Hfit & Hsz).
    rewrite Hat. unfold SRAM_get, lift. rewrite Hram.
    rewrite (u32_small (w + offset)) by lia.
    destruct (at_index_in_range bytes (w + offset)) as [old Hold]; [lia |].
    rewrite Hold.
    destruct (SRAM_write_total n f bytes (w + offset)
                (Z.land old (value c)) Hf Hram) as (f' & Hm & Hf'); [lia |].
    exists tt, f'. auto.
  - exists tt, f. auto.
Qed.

Lemma program_loop_total n count : forall i,
  0 <= i -> i + Z.of_nat count <= 6 ->
  total (at_idx n) (program_loop i count) (fun _ f' => at_idx n f').
Proof.
  induction count as [| count IH]; intros i Hi Hfit; cbn [program_loop].
  - intros f Hf. exists tt, f. auto.
  - eapply total_bind.
    + apply programByte_total. lia.
    + intros []. apply IH; lia.
Qed.

Lemma partialMatch_total n len dataSeq :
  0 <= len <= 5 -> len <= Z.of_nat (length dataSeq) ->
  total (at_idx n) (lift (partialMatch len dataSeq))
        (fun _ f' => at_idx n f').
Proof.
  intros Hlen Hseq. apply total_lift. intros f Hf. pose proof Hf as [Hi _].
  unfold partialMatch. destruct (Z.leb_spec len 5); [| lia].
  rewrite (u32_small len) by lia.
  destruct (partialMatch_loop_total f dataSeq
              (Z.to_nat (Z.min len (cmdIdx f))) 0) as [b Hb]; try lia.
  { rewrite (init_cmd _ _ Hi). lia. }
  exists b. auto.
Qed.

Lemma read_cmdIdx_total n :
  total (at_idx n) (lift (fun f => Done (cmdIdx f)))
        (fun idx f' => idx = n /\ at_idx n f').
Proof.
  apply total_lift. intros f Hf. exists (cmdIdx f).
  destruct Hf as [Hi Hn]. split; [reflexivity |].
  split; [exact Hn | split; assumption].
Qed.

Lemma read_cmd_total n i :
  0 <= i < 6 ->
  total (at_idx n) (lift (fun f => at_index (cmd f) i))
        (fun _ f' => at_idx n f').
Proof.
  intros Hi6. apply total_lift. intros f Hf. pose proof Hf as [Hi _].
  destruct (at_index_in_range (cmd f) i) as [c Hc].
  { rewrite (init_cmd _ _ Hi). lia. }
  exists c. auto.
Qed.

Lemma at_idx_setState n st f : at_idx n f -> at_idx n (setState st f).
Proof.
  intros [Hi Hn]. split; [now apply initialised_setState |].
  now rewrite cmdIdx_setState.
Qed.

Lemma checkCommandManufacturer_total n :
  total (at_idx n) checkCommandManufacturer (still_matching n).
Proof.
  unfold checkCommandManufacturer.
  eapply total_bind; [apply partialMatch_total; simpl; lia |].
  intros [|]; [| apply total_ret_post; intros f Hf; split; [auto | discriminate]].
  eapply total_bind; [apply read_cmdIdx_total |].
  intros idx. apply total_pure_pre. intros ->.
  eapply total_bind with (Q := fun _ f' => at_idx n f').
  - destruct (n =? 3).
    + apply total_modify. intros f Hf. now apply at_idx_setState.
    + apply total_ret_post. auto.
  - intros []. destruct (Z.ltb_spec n 4); apply total_ret_post;
      intros f Hf; split; auto; try discriminate. intros _. lia.
Qed.

Lemma checkCommandEraseSector_total n :
  total (at_idx n) checkCommandEraseSector (still_matching n).
Proof.
  unfold checkCommandEraseSector.
  eapply total_bind; [apply partialMatch_total; simpl; lia |].
  intros [|]; [| apply total_ret_post; intros f Hf; split; [auto | discriminate]].
  eapply total_bind; [apply read_cmdIdx_total |].
  intros idx. apply total_pure_pre. intros ->.
  destruct (Z.ltb_spec n 6).
  - apply total_ret_post. intros f Hf. split; [auto | lia].
  - eapply total_bind; [apply read_cmd_total; lia |]. intros c5.
    eapply total_bind with (Q := fun _ f' => at_idx n f').
    + destruct (value c5 =? 48);
        [apply eraseSector_total | apply total_ret_post; auto].
    + intros []. apply total_ret_post. intros f Hf.
      split; [auto | discriminate].
Qed.

Lemma checkCommandEraseChip_total n :
  total (at_idx n) checkCommandEraseChip (still_matching n).
Proof.
  unfold checkCommandEraseChip.
  eapply total_bind; [apply partialMatch_total; simpl; lia |].
  intros [|]; [| apply total_ret_post; intros f Hf; split; [auto | discriminate]].
  eapply total_bind; [apply read_cmdIdx_total |].
  intros idx. apply total_pure_pre. intros ->.
  destruct (Z.ltb_spec n 6).
  - apply total_ret_post. intros f Hf. split; [auto | lia].
  - eapply total_bind; [apply read_cmd_total; lia |]. intros c5.
    eapply total_bind with (Q := fun _ f' => at_idx n f').
    + destruct (value c5 =? 16); [| apply total_ret_post; auto].
      intros f Hf. unfold bind, lift.
      destruct (ram f) as [bytes |] eqn:Hram.
      * destruct (SRAM_memset_total n f bytes 0 255
                    (Z.of_nat (length bytes)) Hf Hram) as (f' & Hm & Hf');
          try lia.
        exists tt, f'. auto.
      * exists tt, f. auto.
    + intros []. apply total_ret_post. intros f Hf.
      split; [auto | discriminate].
Qed.

Lemma checkCommandProgramHelper_total n numBytes cmdSeq cmdLen :
  0 <= cmdLen -> 0 <= numBytes -> cmdLen + numBytes <= 5 ->
  cmdLen <= Z.of_nat (length cmdSeq) ->
  total (at_idx n) (checkCommandProgramHelper numBytes cmdSeq cmdLen)
        (still_matching n).
Proof.
  intros Hlen Hnum Hsum Hseq. unfold checkCommandProgramHelper.
  eapply total_bind; [apply partialMatch_total; lia |].
  intros [|]; [| apply total_ret_post; intros f Hf; split; [auto | discriminate]].
  eapply total_bind; [apply read_cmdIdx_total |].
  intros idx. apply total_pure_pre. intros ->.
  destruct (Z.ltb_spec n (cmdLen + numBytes)).
  - apply total_ret_post. intros f Hf. split; [auto | lia].
  - eapply total_bind with (Q := fun _ f' => at_idx n f').
    + apply program_loop_total; lia.
    + intros []. apply total_ret_post. intros f Hf.
      split; [auto | discriminate].
Qed.

Lemma checkCommandReset_total n :
  total (at_idx n) checkCommandReset
        (fun b f' => initialised MAX_CMD_SIZE f' /\ 0 <= cmdIdx f' /\
                     (cmdIdx f' = n \/ cmdIdx f' = 0) /\ b = false).
Proof.
  unfold checkCommandReset.
  eapply total_bind; [apply read_cmd_total; lia |]. intros c0.
  eapply total_bind with
    (Q := fun _ f' => initialised MAX_CMD_SIZE f' /\ 0 <= cmdIdx f' /\
                      (cmdIdx f' = n \/ cmdIdx f' = 0)).
  - destruct (value c0 =? 240).
    + apply total_modify. intros f [Hi Hn].
      split; [now apply initialised_reset |]. rewrite cmdIdx_reset. lia.
    + apply total_ret_post. intros f [Hi Hn].
      split; [exact Hi |]. split; [exact (init_cmdIdx _ _ Hi) | auto].
  - intros []. apply total_ret_post. intros f (Hi & H0 & Hn). auto.
Qed.

Lemma check_continues n (c : M bool) :
  total (at_idx n) c (still_matching n) ->
  total (at_idx n) c
        (fun b f' => if b then after_checks n true f' else at_idx n f').
Proof.
  intros Hc. eapply total_weaken; [exact Hc | auto |].
  intros [|] f [[Hi Hn] Hb]; [| split; auto].
  split; [exact Hi |]. split; [exact Hn | auto].
Qed.

Lemma checks_total n :
  total (at_idx n) checks (after_checks n).
Proof.
  unfold checks.
  apply total_orElse;
    [apply check_continues, checkCommandManufacturer_total |].
  apply total_orElse;
    [apply check_continues, checkCommandEraseSector_total |].
  apply total_orElse;
    [apply check_continues, checkCommandProgramHelper_total; simpl; lia |].
  apply total_orElse;
    [apply check_continues, checkCommandProgramHelper_total; simpl; lia |].
  apply total_orElse;
    [apply check_continues, checkCommandProgramHelper_total; simpl; lia |].
  apply total_orElse;
    [apply check_continues, checkCommandEraseChip_total |].
  eapply total_weaken; [apply (checkCommandReset_total n) | auto |].
  intros b f (Hi & H0 & Hn & ->). split; auto.
Qed.

(** One [write] from a command index [n] below 6: the assertion holds, the
    call returns, and the index is then [n + 1] (at most 5) or 0. *)
Lemma write_step n address v :
  0 <= n <= 5 ->
  total (at_idx n) (write MAX_CMD_SIZE address v)
        (fun _ f' => initialised MAX_CMD_SIZE f' /\
                     ((cmdIdx f' = n + 1 /\ n + 1 <= 5) \/ cmdIdx f' = 0)).
Proof.
  intros Hn. unfold write.
  eapply total_bind; [apply read_cmdIdx_total |].
  intros idx. apply total_pure_pre. intros ->.
  destruct (Z.ltb_spec n MAX_CMD_SIZE); [| lia].
  eapply total_bind with (Q := fun _ f' => at_idx (n + 1) f').
  - intros f [Hi Hidx].
    assert (Hlen : (Z.to_nat n < length (cmd f))%nat)
      by (pose proof (init_cmd _ _ Hi); lia).
    apply Nat.ltb_lt in Hlen. rewrite Hlen.
    eexists tt, _. split; [reflexivity |].
    split; [| simpl; apply u32_small; lia].
    destruct Hi. constructor; simpl; auto.
    + now rewrite length_insert.
    + apply u32_range.
  - intros [].
    eapply total_bind; [apply checks_total |].
    intros [|].
    + apply total_ret_post. intros f [Hi [Hidx Hle]]. auto.
    + apply total_modify. intros f [Hi _].
      split; [now apply initialised_reset |]. right. apply cmdIdx_reset.
Qed.

Lemma write_keeps_between address v :
  total between_writes (write MAX_CMD_SIZE address v)
        (fun _ f' => between_writes f').
Proof.
  intros f [Hi Hn].
  destruct (write_step (cmdIdx f) address v Hn f) as ([] & f' & Hw & Hi' & Hc).
  { split; auto. }
  exists tt, f'. split; [exact Hw |]. split; [exact Hi' | lia].
Qed.

Lemma write_all_keeps_between ws :
  total between_writes (write_all MAX_CMD_SIZE ws)
        (fun _ f' => between_writes f').
Proof.
  induction ws as [| [a v] ws IH]; cbn [write_all].
  - apply total_ret_post. auto.
  - eapply total_bind; [apply write_keeps_between |]. intros []. exact IH.
Qed.

End Initialised.

(** *** The example flash *)

Lemma example_flash_initialised : initialised 8 example_flash.
Proof.
  constructor; simpl.
  - repeat constructor; simpl; lia.
  - lia.
  - lia.
  - reflexivity.
  - reflexivity.
  - intros _. eexists. split; [reflexivity | reflexivity].
  - exists false. reflexivity.
  - reflexivity.
  - lia.
Qed.

(** The manufacturer-ID command switches the chip to the ID mode after its
    third byte, with one invalidation of the memory cache; the ID is then
    read at the addresses 0 and 1. *)
Example manufacturer_id_sequence :
  observe [(1365, 170); (682, 85); (1365, 144)]
          (fun f => (cmdIdx f, state f, invalidated f, peek f 0, peek f 1))
  = Done (3, ST_IDENT, [mkInvalidate 0 65536], Done 1, Done 164).
Proof. vm_compute. reflexivity. Qed.

(** The program command clears bits of one byte of a writable sector and
    returns the chip to the start of command matching. *)
Example program_one_byte :
  observe [(1365, 170); (682, 85); (1365, 160); (17, 15)]
          (fun f => (cmdIdx f, peek f 17, peek f 18))
  = Done (0, Done 15, Done 255).
Proof. vm_compute. reflexivity. Qed.

(** The erase-sector command is the longest one: five bytes are buffered
    before the sixth one completes it. *)
Example erase_sector_sequence :
  observe [(1365, 170); (682, 85); (1365, 128); (1365, 170); (682, 85)]
          (fun f => (cmdIdx f,
                     match write 8 17 48 f with
                     | Done (_, f') => Some (cmdIdx f')
                     | Abort _ => None
                     end))
  = Done (5, Some 0).
Proof. vm_compute. reflexivity. Qed.

(** *** What the commands leave alone *)

Section Keeps.
Variable R : Flash -> Flash -> Prop.
Hypothesis R_refl : forall f, R f f.
Hypothesis R_trans : forall f g h, R f g -> R g h -> R f h.

Lemma keeps_ret {A : Type} (a : A) : keeps R (ret a).
Proof. intros f a' f' [= _ <-]. apply R_refl. Qed.

Lemma keeps_bind {A B : Type} (c : M A) (k : A -> M B) :
  keeps R c -> (forall a, keeps R (k a)) -> keeps R (bind c k).
Proof.
  intros Hc Hk f b f'. unfold bind.
  destruct (c f) as [[a f1] |] eqn:E; [| discriminate].
  intros Hk'. exact (R_trans _ _ _ (Hc _ _ _ E) (Hk _ _ _ _ Hk')).
Qed.

Lemma keeps_lift {A : Type} (c : Flash -> outcome A) : keeps R (lift c).
Proof.
  intros f a f'. unfold lift. destruct (c f); [| discriminate].
  intros [= _ <-]. apply R_refl.
Qed.

Lemma keeps_modify (g : Flash -> Flash) :
  (forall f, R f (g f)) -> keeps R (modify g).
Proof. intros Hg f a f' [= _ <-]. apply Hg. Qed.

Lemma keeps_orElse (c1 c2 : M bool) :
  keeps R c1 -> keeps R c2 -> keeps R (orElse c1 c2).
Proof.
  intros H1 H2. unfold orElse. apply keeps_bind; [exact H1 |].
  intros [|]; [apply keeps_ret | exact H2].
Qed.

Lemma keeps_if {A : Type} (b : bool) (c1 c2 : M A) :
  keeps R c1 -> keeps R c2 -> keeps R (if b then c1 else c2).
Proof. now destruct b. Qed.
End Keeps.

Lemma only_ram_refl f : only_ram f f.
Proof. split; [now destruct f | reflexivity]. Qed.

Lemma only_ram_trans f g h : only_ram f g -> only_ram g h -> only_ram f h.
Proof.
  intros [E1 L1] [E2 L2]. split; [| congruence].
  rewrite E2 at 1. rewrite E1 at 1. reflexivity.
Qed.

Lemma same_chip_refl f : same_chip f f.
Proof. repeat split. Qed.

Lemma same_chip_trans f g h : same_chip f g -> same_chip g h -> same_chip f h.
Proof.
  unfold same_chip. intros H1 H2.
  destruct H1 as (? & ? & ? & ? & ? & ? & ? & ? & ?).
  destruct H2 as (? & ? & ? & ? & ? & ? & ? & ? & ?).
  repeat split; congruence.
Qed.

Lemma only_ram_same_chip f f' : only_ram f f' -> same_chip f f'.
Proof.
  intros [E L]. unfold same_chip. split; [now rewrite E |].
  split; [now rewrite E |]. split; [now rewrite E |].
  split; [now rewrite E |]. split; [now rewrite E |].
  split; [now rewrite E |]. split; [now rewrite E |].
  split; [now rewrite E | exact L].
Qed.

Lemma same_chip_setState f st : same_chip f (setState st f).
Proof.
  unfold setState. destruct (State_eqb (state f) st); repeat split.
Qed.

Lemma same_chip_reset f : same_chip f (reset f).
Proof.
  unfold reset. eapply same_chip_trans; [| apply same_chip_setState].
  repeat split.
Qed.

Lemma SRAM_memset_only_ram address c n : keeps only_ram (SRAM_memset address c n).
Proof.
  intros f a f'. unfold SRAM_memset.
  destruct (ram f) as [bytes |] eqn:Hram; [| discriminate].
  destruct (Z.ltb_spec address 0); [discriminate |].
  destruct (Z.ltb_spec n 0); [discriminate |].
  destruct (Z.ltb_spec (Z.of_nat (length bytes)) (address + n));
    [discriminate |].
  simpl. intros [= _ <-]. split; [reflexivity |]. simpl. rewrite Hram. simpl.
  f_equal. rewrite !length_app, length_take, length_replicate, length_drop.
  lia.
Qed.

Lemma SRAM_write_only_ram address v : keeps only_ram (SRAM_write address v).
Proof.
  intros f a f'. unfold SRAM_write.
  destruct (ram f) as [bytes |] eqn:Hram; [| discriminate].
  destruct ((address <? 0) || (Z.of_nat (length bytes) <=? address));
    [discriminate |].
  intros [= _ <-]. split; [reflexivity |]. simpl. rewrite Hram. simpl.
  now rewrite length_insert.
Qed.

(** Calls built from the SRAM operations keep everything but the SRAM. *)
Ltac keeps_ram :=
  repeat first
    [ apply keeps_ret; apply only_ram_refl
    | apply keeps_lift; apply only_ram_refl
    | apply SRAM_memset_only_ram
    | apply SRAM_write_only_ram
    | apply keeps_bind; [apply only_ram_trans | |]
    | apply keeps_if
    | match goal with
      | |- keeps _ (match ?x with Some _ => _ | None => _ end) => destruct x
      end
    | intros [[? ?] ?]
    | intros ? ].

Lemma eraseSector_only_ram c : keeps only_ram (eraseSector c).
Proof. unfold eraseSector. keeps_ram. Qed.

Lemma programByte_only_ram i : keeps only_ram (programByte i).
Proof. unfold programByte, SRAM_get. keeps_ram. Qed.

Lemma program_loop_only_ram count : forall i,
  keeps only_ram (program_loop i count).
Proof.
  induction count as [| count IH]; intros i; cbn [program_loop].
  - keeps_ram.
  - apply keeps_bind; [apply only_ram_trans | apply programByte_only_ram |].
    intros []. apply IH.
Qed.

Lemma eraseChip_body_only_ram :
  keeps only_ram
    (bind (lift (fun f => Done (ram f)))
          (fun r => match r with
                    | Some bytes => SRAM_memset 0 255 (Z.of_nat (length bytes))
                    | None => ret tt
                    end)).
Proof. keeps_ram. Qed.

(** A relaxation of a relation that a call keeps. *)
Lemma keeps_weaken {A : Type} (R R' : Flash -> Flash -> Prop) (c : M A) :
  (forall f f', R f f' -> R' f f') -> keeps R c -> keeps R' c.
Proof. intros HR Hc f a f' E. exact (HR _ _ (Hc _ _ _ E)). Qed.

(** Calls built from [reset], [setState] and the SRAM operations keep the
    chip. *)
Ltac keeps_chip :=
  repeat first
    [ apply keeps_ret; apply same_chip_refl
    | apply keeps_lift; apply same_chip_refl
    | apply keeps_modify; intros; first [apply same_chip_reset
                                        | apply same_chip_setState]
    | apply (keeps_weaken only_ram);
        [apply only_ram_same_chip
        | first [ apply eraseSector_only_ram
                | apply program_loop_only_ram
                | apply eraseChip_body_only_ram ] ]
    | apply keeps_bind; [apply same_chip_trans | |]
    | apply keeps_if
    | intros ? ].

Lemma checkCommandManufacturer_same_chip :
  keeps same_chip checkCommandManufacturer.
Proof. unfold checkCommandManufacturer. keeps_chip. Qed.

Lemma checkCommandReset_same_chip : keeps same_chip checkCommandReset.
Proof. unfold checkCommandReset. keeps_chip. Qed.

Lemma checkCommandEraseSector_same_chip :
  keeps same_chip checkCommandEraseSector.
Proof. unfold checkCommandEraseSector. keeps_chip. Qed.

Lemma checkCommandEraseChip_same_chip :
  keeps same_chip checkCommandEraseChip.
Proof. unfold checkCommandEraseChip. keeps_chip. Qed.

Lemma checkCommandProgramHelper_same_chip numBytes cmdSeq cmdLen :
  keeps same_chip (checkCommandProgramHelper numBytes cmdSeq cmdLen).
Proof. unfold checkCommandProgramHelper. keeps_chip. Qed.

Lemma checks_same_chip : keeps same_chip checks.
Proof.
  unfold checks.
  repeat (apply keeps_orElse;
          [apply same_chip_refl | apply same_chip_trans | |]);
    first [ apply checkCommandManufacturer_same_chip
          | apply checkCommandEraseSector_same_chip
          | apply checkCommandProgramHelper_same_chip
          | apply checkCommandEraseChip_same_chip
          | apply checkCommandReset_same_chip ].
Qed.

Lemma write_same_chip MAX_CMD_SIZE address v :
  keeps same_chip (write MAX_CMD_SIZE address v).
Proof.
  unfold write.
  apply keeps_bind; [apply same_chip_trans | |].
  { apply keeps_lift, same_chip_refl. }
  intros idx. destruct (idx <? MAX_CMD_SIZE); [| intros f a f'; discriminate].
  apply keeps_bind; [apply same_chip_trans | |].
  { intros f a f'. destruct (Z.to_nat idx <? length (cmd f))%nat;
      [| discriminate]. intros [= _ <-]. repeat split. }
  intros []. apply keeps_bind; [apply same_chip_trans | |].
  { apply checks_same_chip. }
  intros [|]; [apply keeps_ret, same_chip_refl |].
  apply keeps_modify. apply same_chip_reset.
Qed.

Lemma write_all_same_chip MAX_CMD_SIZE ws :
  keeps same_chip (write_all MAX_CMD_SIZE ws).
Proof.
  induction ws as [| [a v] ws IH]; cbn [write_all].
  - apply keeps_ret, same_chip_refl.
  - apply keeps_bind; [apply same_chip_trans | |].
    + apply write_same_chip.
    + intros []. exact IH.
Qed.

(** X14: whatever is written to the flash, a sequence of [write] calls that
    returns has changed neither the geometry, the address tables, the ROM,
    the ID, the addressing mode, the write-protect pin nor the size of the
    SRAM; and an address whose sector is not read from the SRAM (a sector
    kept in ROM, or not backed at all) reads in the idle mode as it did
    before. *)
Theorem writes_never_change_rom_sectors (MAX_CMD_SIZE : Z) (f f' : Flash)
    (ws : list (Z * Z)) :
  write_all MAX_CMD_SIZE ws f = Done (tt, f') ->
  same_chip f f' /\
  (forall address sector sectorSize offset p,
     getSectorInfo f address = Done (sector, sectorSize, offset) ->
     at_index (readAddress f) sector = Done p ->
     (forall o, p <> RamPtr o) ->
     state f = ST_IDLE -> state f' = ST_IDLE ->
     peek f' address = peek f address).
Proof.
  intros Hrun. pose proof (write_all_same_chip _ _ _ _ _ Hrun) as Hsame.
  split; [exact Hsame |].
  destruct Hsame as (Hsec & _ & Hra & Hrom & Hsize & _).
  intros address sector sectorSize offset p Hg Hp Hnot Hst Hst'.
  assert (Hg' : getSectorInfo f' address = Done (sector, sectorSize, offset))
    by (unfold getSectorInfo in *; now rewrite Hsec, Hsize).
  unfold peek. rewrite Hg, Hg'. cbn [obind].
  rewrite Hst, Hst', Hra, Hp. cbn [obind].
  destruct p as [| o | o]; [reflexivity | now destruct (Hnot o) |].
  unfold deref. now rewrite Hrom.
Qed.

Lemma writes_never_change_rom_sectors_witness :
  exists f',
    write_all 8 [(1365, 170); (682, 85); (1365, 160); (3, 15)] example_flash
      = Done (tt, f') /\
    peek f' 3 = peek example_flash 3.
Proof.
  destruct (write_all_keeps_between 8 ltac:(lia)
              [(1365, 170); (682, 85); (1365, 160); (3, 15)] example_flash)
    as ([] & f' & Hrun & _).
  { split; [exact example_flash_initialised | simpl; lia]. }
  exists f'. split; [exact Hrun |].
  destruct (writes_never_change_rom_sectors 8 example_flash f' _ Hrun)
    as [_ Hpeek].
  apply (Hpeek 3 0 16 3 (RomPtr 0)); try reflexivity.
  - intros o. discriminate.
  - revert Hrun. vm_compute. intros [= <-]. reflexivity.
Defined.

(** *** Cache lines of the flash *)

Lemma readAddress_entry MAX_CMD_SIZE f (k : nat) si :
  initialised MAX_CMD_SIZE f -> sectorInfo f !! k = Some si ->
  exists p, at_index (readAddress f) (Z.of_nat k) = Done p.
Proof.
  intros Hi Hk. destruct (init_read _ _ Hi) as [vpp Hread].
  pose proof (init_total _ _ Hi). pose proof (init_count _ _ Hi).
  destruct (init_readAddress_ptrs vpp (writeAddress f)
              (Z.of_nat (length (rom f))) (sectorInfo f) O 0
              (readAddress f) (init_sectors _ _ Hi)) as [Hlen _];
    [lia | lia | lia | exact Hread |].
  destruct (lookup_lt_is_Some_2 (readAddress f) k) as [p Hp].
  { rewrite Hlen. now apply lookup_lt_Some in Hk. }
  exists p. apply at_index_Done. rewrite Nat2Z.id. split; [lia | exact Hp].
Qed.

(** Inside a line the loop of [getSectorInfo] stays in one sector when the
    sector sizes are multiples of the line size. *)
Lemma getSectorInfo_loop_line S it : forall m sector k sz off i,
  0 < S ->
  Forall (fun si => 0 <= sec_size si /\ sec_size si mod S = 0) it ->
  0 <= m -> m mod S = 0 -> 0 <= i < S ->
  getSectorInfo_loop it m sector = Done (k, sz, off) ->
  getSectorInfo_loop it (m + i) sector = Done (k, sz, off + i).
Proof.
  induction it as [| s0 rest IH]; intros m sector k sz off i HS Hall Hm Hmod Hi;
    cbn [getSectorInfo_loop]; [discriminate |].
  inversion Hall as [| ? ? [Hs0 Hs0m] Hrest]; subst.
  destruct (Z.leb_spec (sec_size s0) m) as [Hle | Hlt].
  - destruct (Z.leb_spec (sec_size s0) (m + i)); [| lia].
    intros Hloop.
    replace (m + i - sec_size s0) with (m - sec_size s0 + i) by lia.
    apply IH; auto; [lia |].
    rewrite Zminus_mod, Hmod, Hs0m. reflexivity.
  - intros [= <- <- <-].
    assert (m + S <= sec_size s0).
    { apply Z.mod_divide in Hmod, Hs0m; try lia.
      destruct Hmod as [x ->], Hs0m as [y Hy]. rewrite Hy in *.
      assert (x < y) by (apply (Z.mul_lt_mono_pos_r S); lia).
      pose proof (Z.mul_le_mono_nonneg_r (x + 1) y S ltac:(lia) ltac:(lia)).
      lia. }
    destruct (Z.leb_spec (sec_size s0) (m + i)); [lia | reflexivity].
Qed.

(** Under the mask of a flash of [2 ^ K] bytes, the offsets of an aligned
    line add up. *)
Lemma flash_mask_line bits K address i :
  0 <= bits <= K -> address mod 2 ^ bits = 0 -> 0 <= i < 2 ^ bits ->
  Z.land (address + i) (2 ^ K - 1) = Z.land address (2 ^ K - 1) + i /\
  0 <= Z.land address (2 ^ K - 1) /\
  Z.land address (2 ^ K - 1) mod 2 ^ bits = 0.
Proof.
  intros Hb Hal Hi.
  assert (HS : 0 < 2 ^ bits) by (apply Z.pow_pos_nonneg; lia).
  assert (HT : 0 < 2 ^ (K - bits)) by (apply Z.pow_pos_nonneg; lia).
  replace (2 ^ K - 1) with (Z.ones K)
    by (rewrite Z.ones_equiv; lia).
  rewrite !Z.land_ones by lia.
  rewrite (pow2_split bits K Hb).
  rewrite !Z.rem_mul_r by lia.
  apply Z.mod_divide in Hal; [| lia]. destruct Hal as [q ->].
  rewrite Z.mod_mul, Z.div_mul by lia.
  rewrite (Z.add_comm (q * 2 ^ bits) i), Z.mod_add, Z.div_add by lia.
  rewrite (Z.mod_small i), (Z.div_small i) by lia.
  rewrite !Z.add_0_l.
  pose proof (Z.mod_pos_bound q (2 ^ (K - bits)) HT).
  split; [lia |]. split; [apply Z.mul_nonneg_nonneg; lia |].
  rewrite Z.mul_comm. apply Z.mod_mul. lia.
Qed.

(** X15: on a flash of [2 ^ K] bytes whose sector sizes are multiples of
    the line size, and for a line-aligned address, [getReadCacheLine]
    returns [nullptr] only in the ID mode; in the idle mode the pointer it
    returns has, at every offset of the line, the byte that [peek] returns,
    and [unmappedRead] stands for a line on which [peek] returns 0xFF. *)
Theorem flash_read_line_agrees (MAX_CMD_SIZE bits K : Z) (f : Flash)
    (address : Z) :
  initialised MAX_CMD_SIZE f ->
  0 <= bits <= K -> size f = 2 ^ K ->
  Forall (fun si => sec_size si mod 2 ^ bits = 0) (sectorInfo f) ->
  address mod 2 ^ bits = 0 ->
  exists line,
    getReadCacheLine f address = Done line /\
    match line with
    | ReadNull => state f = ST_IDENT
    | ReadData p offset =>
        state f = ST_IDLE /\
        forall i, 0 <= i < 2 ^ bits ->
          peek f (address + i) = deref f p (offset + i)
    | ReadUnmapped =>
        state f = ST_IDLE /\
        forall i, 0 <= i < 2 ^ bits -> peek f (address + i) = Done 255
    end.
Proof.
  intros Hi Hb Hsize Hsizes Hal.
  unfold getReadCacheLine.
  destruct (state f) eqn:Hst; [| exists ReadNull; split; reflexivity].
  destruct (getSectorInfo_finds _ f address Hi)
    as (k & si & offset & Hk & Hg & Hoff).
  destruct (readAddress_entry _ f k si Hi Hk) as [p Hp].
  rewrite Hg. cbn [obind]. rewrite Hp. cbn [obind].
  assert (Hline : forall i, 0 <= i < 2 ^ bits ->
            getSectorInfo f (address + i)
            = Done (Z.of_nat k, sec_size si, offset + i)).
  { intros i Hi'. unfold getSectorInfo in *.
    pose proof (init_total _ _ Hi) as Htot.
    assert (Hpow : total_size (sectorInfo f) = 2 ^ K).
    { rewrite <- Hsize, (init_size _ _ Hi).
      symmetry. apply sum_sizes_total; [apply (init_sectors _ _ Hi) | lia]. }
    rewrite Hpow in Htot.
    rewrite Hsize in Hg |- *. rewrite (u32_small (2 ^ K - 1)) in Hg |- * by lia.
    destruct (flash_mask_line bits K address i Hb Hal Hi') as (-> & Hm0 & Hmm).
    apply (getSectorInfo_loop_line (2 ^ bits)); auto.
    - apply Z.pow_pos_nonneg; lia.
    - pose proof (init_sectors _ _ Hi) as Hnn.
      rewrite Forall_forall in Hnn, Hsizes |- *. auto. }
  eexists. split; [reflexivity |].
  destruct p as [| o | o]; (split; [reflexivity |]); intros i Hi';
    unfold peek; rewrite (Hline i Hi'); cbn [obind]; rewrite Hst, Hp;
    reflexivity.
Qed.

Lemma flash_read_line_agrees_witness :
  getReadCacheLine example_flash 16 = Done (ReadData (RamPtr 0) 0) /\
  forall i, 0 <= i < 2 ^ 4 ->
    peek example_flash (16 + i) = deref example_flash (RamPtr 0) (0 + i).
Proof.
  split; [reflexivity |].
  destruct (flash_read_line_agrees 8 4 6 example_flash 16
              example_flash_initialised ltac:(lia) eq_refl)
    as (line & Hline & Hagrees).
  - repeat constructor.
  - reflexivity.
  - assert (E : line = ReadData (RamPtr 0) 0)
      by (assert (Hc : getReadCacheLine example_flash 16
                       = Done (ReadData (RamPtr 0) 0)) by reflexivity;
          congruence).
    subst line. exact (proj2 Hagrees).
Defined.

(** *** The command decoder *)

Lemma prefix_ok_take u12 entries addrs dataSeq :
  prefix_ok u12 (take (length dataSeq) entries) addrs dataSeq
  = prefix_ok u12 entries addrs dataSeq.
Proof.
  revert addrs dataSeq.
  induction entries as [| c entries IH]; intros addrs dataSeq.
  - now rewrite take_nil.
  - destruct dataSeq as [| d dataSeq]; [now destruct addrs |].
    destruct addrs as [| a addrs]; [reflexivity |].
    cbn [length take prefix_ok]. now rewrite IH.
Qed.

(** The loop of [partialMatch] from index [i] on. *)
Lemma partialMatch_loop_prefix f dataSeq count : forall i : nat,
  (i + count <= 5)%nat ->
  (i + count <= length dataSeq)%nat ->
  (i + count <= length (cmd f))%nat ->
  partialMatch_loop f dataSeq (Z.of_nat i) count
  = Done (prefix_ok (use12bitAddressing f)
            (take count (drop i (cmd f)))
            (drop i command_addresses) (drop i dataSeq)).
Proof.
  induction count as [| count IH]; intros i H5 Hseq Hcmd;
    cbn [partialMatch_loop].
  - reflexivity.
  - destruct (lookup_lt_is_Some_2 (cmd f) i) as [c Hc]; [lia |].
    destruct (lookup_lt_is_Some_2 dataSeq i) as [d Hd]; [lia |].
    assert (Hk : exists k expected,
               at_index addrSeq (Z.of_nat i) = Done k /\
               at_index cmdAddr k = Done expected /\
               command_addresses !! i = Some expected).
    { do 5 (destruct i as [| i]; [cbn; eauto |]). lia. }
    destruct Hk as (k & expected & Hk1 & Hk2 & He).
    rewrite (proj2 (at_index_Done (cmd f) (Z.of_nat i) c))
      by (rewrite Nat2Z.id; split; [lia | exact Hc]).
    rewrite (proj2 (at_index_Done dataSeq (Z.of_nat i) d))
      by (rewrite Nat2Z.id; split; [lia | exact Hd]).
    rewrite Hk1. cbn [obind]. rewrite Hk2. cbn [obind].
    rewrite (drop_S _ _ _ Hc), (drop_S _ _ _ Hd), (drop_S _ _ _ He).
    cbn [take prefix_ok]. unfold entry_ok, command_address.
    replace (Z.of_nat i + 1) with (Z.of_nat (S i)) by lia.
    rewrite IH by lia.
    destruct (Z.land (if use12bitAddressing f then Z.shiftr (addr c) 1
                      else addr c) 2047 =? expected);
      destruct (value c =? d); reflexivity.
Qed.

Lemma reset_idem f : reset (reset f) = reset f.
Proof.
  destruct f as [si wa ra ro sz id u r c ci st vpp inv].
  destruct st; reflexivity.
Qed.

Ltac solve_prefix :=
  cbn [prefix_ok command_addresses app]; unfold entry_ok; cbn [addr value];
  repeat match goal with
         | H : command_address _ _ = _ |- _ => rewrite H
         end;
  reflexivity.

Section Decoder.
Variable MAX_CMD_SIZE : Z.
Hypothesis cmd_buffer_holds_six : 6 <= MAX_CMD_SIZE.
Variable u12 : bool.

Local Abbreviation buffered := (AmdFlash.buffered MAX_CMD_SIZE u12).

Lemma buffered_length f pre :
  buffered f pre -> (length pre <= length (cmd f))%nat.
Proof.
  intros (_ & _ & Hpre & _). rewrite <- Hpre. unfold cmd_prefix.
  rewrite length_take. lia.
Qed.

(** [partialMatch] looks at the entries in use only. *)
Lemma partialMatch_prefix f pre len dataSeq :
  buffered f pre -> 0 <= len <= 5 -> Z.of_nat (length dataSeq) = len ->
  partialMatch len dataSeq f
  = Done (prefix_ok u12 pre command_addresses dataSeq).
Proof.
  intros Hb Hlen Hseq. pose proof (buffered_length f pre Hb) as Hle.
  destruct Hb as (Hi & Hidx & Hpre & <-).
  unfold partialMatch. destruct (Z.leb_spec len 5); [| lia].
  rewrite (u32_small len) by lia.
  rewrite (partialMatch_loop_prefix f dataSeq _ O) by lia.
  rewrite !drop_0. f_equal.
  rewrite <- (prefix_ok_take _ pre), <- Hpre. unfold cmd_prefix.
  rewrite take_take. f_equal. f_equal. lia.
Qed.

Lemma buffered_entry f pre (i : nat) c :
  buffered f pre -> pre !! i = Some c ->
  at_index (cmd f) (Z.of_nat i) = Done c.
Proof.
  intros (_ & _ & Hpre & _) Hc. apply at_index_Done. rewrite Nat2Z.id.
  split; [lia |]. rewrite <- Hpre in Hc. unfold cmd_prefix in Hc.
  apply lookup_take_Some in Hc. tauto.
Qed.


Lemma cmdIdx_of_buffered f pre : buffered f pre -> cmdIdx f = Z.of_nat (length pre).
Proof. now intros (_ & Hidx & _). Qed.

(** A check whose command does not match the entries in use answers false
    and changes nothing. *)
Lemma checkCommandManufacturer_no f pre :
  buffered f pre ->
  prefix_ok u12 pre command_addresses [170; 85; 144] = false ->
  checkCommandManufacturer f = Done (false, f).
Proof.
  intros Hb Hno. unfold checkCommandManufacturer, bind, lift.
  now rewrite (partialMatch_prefix f pre 3 [170; 85; 144] Hb ltac:(lia) eq_refl), Hno.
Qed.

Lemma checkCommandEraseSector_no f pre :
  buffered f pre ->
  prefix_ok u12 pre command_addresses [170; 85; 128; 170; 85] = false ->
  checkCommandEraseSector f = Done (false, f).
Proof.
  intros Hb Hno. unfold checkCommandEraseSector, bind, lift.
  now rewrite (partialMatch_prefix f pre 5 [170; 85; 128; 170; 85] Hb ltac:(lia) eq_refl), Hno.
Qed.

Lemma checkCommandEraseChip_no f pre :
  buffered f pre ->
  prefix_ok u12 pre command_addresses [170; 85; 128; 170; 85] = false ->
  checkCommandEraseChip f = Done (false, f).
Proof.
  intros Hb Hno. unfold checkCommandEraseChip, bind, lift.
  now rewrite (partialMatch_prefix f pre 5 [170; 85; 128; 170; 85] Hb ltac:(lia) eq_refl), Hno.
Qed.

Lemma checkCommandProgramHelper_no f pre numBytes cmdSeq cmdLen :
  buffered f pre -> 0 <= cmdLen <= 5 -> Z.of_nat (length cmdSeq) = cmdLen ->
  prefix_ok u12 pre command_addresses cmdSeq = false ->
  checkCommandProgramHelper numBytes cmdSeq cmdLen f = Done (false, f).
Proof.
  intros Hb Hlen Hseq Hno. unfold checkCommandProgramHelper, bind, lift.
  now rewrite (partialMatch_prefix f pre cmdLen cmdSeq Hb Hlen Hseq), Hno.
Qed.

(** A check whose command matches the entries in use, with bytes still to
    come, answers true. *)
Lemma checkCommandManufacturer_more f pre :
  buffered f pre ->
  prefix_ok u12 pre command_addresses [170; 85; 144] = true ->
  (length pre < 4)%nat ->
  checkCommandManufacturer f
  = Done (true, if (length pre =? 3)%nat then setState ST_IDENT f else f).
Proof.
  intros Hb Hok Hn. unfold checkCommandManufacturer, bind, lift.
  rewrite (partialMatch_prefix f pre 3 [170; 85; 144] Hb ltac:(lia) eq_refl), Hok.
  rewrite (cmdIdx_of_buffered f pre Hb).
  destruct (Nat.eqb_spec (length pre) 3) as [E | N].
  - rewrite E. reflexivity.
  - destruct (Z.eqb_spec (Z.of_nat (length pre)) 3); [lia |].
    unfold ret.
    destruct (Z.ltb_spec (Z.of_nat (length pre)) 4); [reflexivity | lia].
Qed.

Lemma checkCommandManufacturer_over f pre :
  buffered f pre -> (4 <= length pre)%nat ->
  checkCommandManufacturer f = Done (false, f).
Proof.
  intros Hb Hn. unfold checkCommandManufacturer, bind, lift.
  rewrite (partialMatch_prefix f pre 3 [170; 85; 144] Hb ltac:(lia) eq_refl).
  destruct (prefix_ok u12 pre command_addresses [170; 85; 144]);
    [| reflexivity].
  rewrite (cmdIdx_of_buffered f pre Hb).
  destruct (Z.eqb_spec (Z.of_nat (length pre)) 3); [lia |]. unfold ret.
  destruct (Z.ltb_spec (Z.of_nat (length pre)) 4); [lia | reflexivity].
Qed.

Lemma checkCommandEraseSector_more f pre :
  buffered f pre ->
  prefix_ok u12 pre command_addresses [170; 85; 128; 170; 85] = true ->
  (length pre < 6)%nat ->
  checkCommandEraseSector f = Done (true, f).
Proof.
  intros Hb Hok Hn. unfold checkCommandEraseSector, bind, lift.
  rewrite (partialMatch_prefix f pre 5 [170; 85; 128; 170; 85] Hb ltac:(lia) eq_refl), Hok.
  rewrite (cmdIdx_of_buffered f pre Hb).
  destruct (Z.ltb_spec (Z.of_nat (length pre)) 6); [reflexivity | lia].
Qed.

Lemma checkCommandProgramHelper_more f pre numBytes cmdSeq cmdLen :
  buffered f pre -> 0 <= cmdLen <= 5 -> Z.of_nat (length cmdSeq) = cmdLen ->
  prefix_ok u12 pre command_addresses cmdSeq = true ->
  Z.of_nat (length pre) < cmdLen + numBytes ->
  checkCommandProgramHelper numBytes cmdSeq cmdLen f = Done (true, f).
Proof.
  intros Hb Hlen Hseq Hok Hn. unfold checkCommandProgramHelper, bind, lift.
  rewrite (partialMatch_prefix f pre cmdLen cmdSeq Hb Hlen Hseq), Hok.
  rewrite (cmdIdx_of_buffered f pre Hb).
  destruct (Z.ltb_spec (Z.of_nat (length pre)) (cmdLen + numBytes));
    [reflexivity | lia].
Qed.

(** A check whose command is complete runs it and answers false. *)
Lemma checkCommandEraseSector_run f pre c5 :
  buffered f pre ->
  prefix_ok u12 pre command_addresses [170; 85; 128; 170; 85] = true ->
  pre !! 5%nat = Some c5 ->
  checkCommandEraseSector f =
  if value c5 =? 48
  then match eraseSector c5 f with
       | Done (_, f') => Done (false, f')
       | Abort e => Abort e
       end
  else Done (false, f).
Proof.
  intros Hb Hok Hc5. unfold checkCommandEraseSector, bind, lift.
  rewrite (partialMatch_prefix f pre 5 [170; 85; 128; 170; 85] Hb ltac:(lia) eq_refl), Hok.
  rewrite (cmdIdx_of_buffered f pre Hb).
  apply lookup_lt_Some in Hc5 as Hlt.
  destruct (Z.ltb_spec (Z.of_nat (length pre)) 6); [lia |].
  pose proof (buffered_entry f pre 5 c5 Hb Hc5) as He.
  change (Z.of_nat 5) with 5 in He. rewrite He.
  destruct (value c5 =? 48); [| reflexivity].
  destruct (eraseSector c5 f) as [[[] f'] |]; reflexivity.
Qed.

Lemma checkCommandEraseChip_run f pre c5 :
  buffered f pre ->
  prefix_ok u12 pre command_addresses [170; 85; 128; 170; 85] = true ->
  pre !! 5%nat = Some c5 ->
  checkCommandEraseChip f =
  if value c5 =? 16
  then match ram f with
       | Some bytes =>
           match SRAM_memset 0 255 (Z.of_nat (length bytes)) f with
           | Done (_, f') => Done (false, f')
           | Abort e => Abort e
           end
       | None => Done (false, f)
       end
  else Done (false, f).
Proof.
  intros Hb Hok Hc5. unfold checkCommandEraseChip, bind, lift.
  rewrite (partialMatch_prefix f pre 5 [170; 85; 128; 170; 85] Hb ltac:(lia) eq_refl), Hok.
  rewrite (cmdIdx_of_buffered f pre Hb).
  apply lookup_lt_Some in Hc5 as Hlt.
  destruct (Z.ltb_spec (Z.of_nat (length pre)) 6); [lia |].
  pose proof (buffered_entry f pre 5 c5 Hb Hc5) as He.
  change (Z.of_nat 5) with 5 in He. rewrite He.
  destruct (value c5 =? 16); [| reflexivity].
  destruct (ram f) as [bytes |]; [| reflexivity].
  destruct (SRAM_memset 0 255 (Z.of_nat (length bytes)) f) as [[[] f'] |];
    reflexivity.
Qed.

Lemma checkCommandProgramHelper_run f pre numBytes cmdSeq cmdLen :
  buffered f pre -> 0 <= cmdLen <= 5 -> Z.of_nat (length cmdSeq) = cmdLen ->
  prefix_ok u12 pre command_addresses cmdSeq = true ->
  cmdLen + numBytes <= Z.of_nat (length pre) ->
  checkCommandProgramHelper numBytes cmdSeq cmdLen f =
  match program_loop cmdLen (Z.to_nat numBytes) f with
  | Done (_, f') => Done (false, f')
  | Abort e => Abort e
  end.
Proof.
  intros Hb Hlen Hseq Hok Hn. unfold checkCommandProgramHelper, bind, lift.
  rewrite (partialMatch_prefix f pre cmdLen cmdSeq Hb Hlen Hseq), Hok.
  rewrite (cmdIdx_of_buffered f pre Hb).
  destruct (Z.ltb_spec (Z.of_nat (length pre)) (cmdLen + numBytes)); [lia |].
  destruct (program_loop cmdLen (Z.to_nat numBytes) f) as [[[] f'] |];
    reflexivity.
Qed.

Lemma checkCommandReset_eval f pre c0 :
  buffered f pre -> pre !! 0%nat = Some c0 ->
  checkCommandReset f
  = Done (false, if value c0 =? 240 then reset f else f).
Proof.
  intros Hb Hc0. unfold checkCommandReset, bind, lift.
  pose proof (buffered_entry f pre 0 c0 Hb Hc0) as He.
  change (Z.of_nat 0) with 0 in He. rewrite He.
  destruct (value c0 =? 240); reflexivity.
Qed.

Lemma orElse_true (c1 c2 : M bool) f f' :
  c1 f = Done (true, f') -> orElse c1 c2 f = Done (true, f').
Proof. intros E. unfold orElse, bind. now rewrite E. Qed.

Lemma orElse_false (c1 c2 : M bool) f f' :
  c1 f = Done (false, f') -> orElse c1 c2 f = c2 f'.
Proof. intros E. unfold orElse, bind. now rewrite E. Qed.

(** [write] is the store of the entry followed by the checks. *)
Lemma write_unfold f pre address v :
  buffered f pre -> (length pre <= 5)%nat ->
  write MAX_CMD_SIZE address v f =
  match checks (store address v f) with
  | Done (true, g) => Done (tt, g)
  | Done (false, g) => Done (tt, reset g)
  | Abort e => Abort e
  end.
Proof.
  intros Hb Hn. pose proof Hb as (Hi & Hidx & _).
  unfold write. unfold bind at 1. unfold lift at 1.
  destruct (Z.ltb_spec (cmdIdx f) MAX_CMD_SIZE); [| lia].
  unfold bind at 1.
  assert (Hlen : (Z.to_nat (cmdIdx f) <? length (cmd f))%nat = true).
  { apply Nat.ltb_lt. pose proof (init_cmd _ _ Hi). lia. }
  rewrite Hlen. fold (store address v f). unfold bind.
  destruct (checks (store address v f)) as [[[|] g] |]; reflexivity.
Qed.

Lemma store_buffered f pre address v :
  buffered f pre -> (length pre <= 5)%nat ->
  buffered (store address v f) (pre ++ [mkAmdCmd address v]).
Proof.
  intros (Hi & Hidx & Hpre & Hu) Hn. unfold AmdFlash.buffered, store.
  pose proof (init_cmd _ _ Hi) as Hcmd.
  split; [| split; [| split]].
  - destruct Hi. constructor; simpl; auto.
    + now rewrite length_insert.
    + apply u32_range.
  - simpl. rewrite length_app. simpl. rewrite u32_small; lia.
  - unfold cmd_prefix in *. simpl. rewrite u32_small by lia.
    rewrite Hidx in *. rewrite Nat2Z.id in *.
    replace (Z.to_nat (Z.of_nat (length pre) + 1)) with (S (length pre)) by lia.
    rewrite (take_S_r _ _ (mkAmdCmd address v))
      by (apply list_lookup_insert_eq; lia).
    rewrite take_insert_ge by lia. now rewrite Hpre.
  - exact Hu.
Qed.

Lemma buffered_nil f :
  initialised MAX_CMD_SIZE f -> cmdIdx f = 0 -> use12bitAddressing f = u12 ->
  buffered f [].
Proof.
  intros Hi Hidx Hu. unfold AmdFlash.buffered, cmd_prefix.
  rewrite Hidx. auto.
Qed.

Lemma buffered_setState f pre st :
  buffered f pre -> buffered (setState st f) pre.
Proof.
  intros (Hi & Hidx & Hpre & Hu). unfold AmdFlash.buffered, cmd_prefix in *.
  split; [now apply initialised_setState |].
  unfold setState. destruct (State_eqb (state f) st); auto.
Qed.

Lemma write_matching f pre address v g :
  buffered f pre -> (length pre <= 5)%nat ->
  checks (store address v f) = Done (true, g) ->
  write MAX_CMD_SIZE address v f = Done (tt, g).
Proof.
  intros Hb Hn E. now rewrite (write_unfold f pre address v Hb Hn), E.
Qed.

Lemma write_done f pre address v g :
  buffered f pre -> (length pre <= 5)%nat ->
  checks (store address v f) = Done (false, g) ->
  write MAX_CMD_SIZE address v f = Done (tt, reset g).
Proof.
  intros Hb Hn E. now rewrite (write_unfold f pre address v Hb Hn), E.
Qed.

Lemma write_all_cons f address v rest g :
  write MAX_CMD_SIZE address v f = Done (tt, g) ->
  write_all MAX_CMD_SIZE ((address, v) :: rest) f
  = write_all MAX_CMD_SIZE rest g.
Proof. intros E. cbn [write_all]. unfold bind. now rewrite E. Qed.

(** The two bytes that the manufacturer, program and erase commands start
    with are buffered. *)
Lemma command_start f a1 a2 rest :
  buffered f [] ->
  command_address u12 a1 = 1365 -> command_address u12 a2 = 682 ->
  write_all MAX_CMD_SIZE ((a1, 170) :: (a2, 85) :: rest) f
  = write_all MAX_CMD_SIZE rest (store a2 85 (store a1 170 f)) /\
  buffered (store a2 85 (store a1 170 f)) [mkAmdCmd a1 170; mkAmdCmd a2 85].
Proof.
  intros Hb H1 H2.
  pose proof (store_buffered f [] a1 170 Hb ltac:(simpl; lia)) as Hs1.
  cbn [app] in Hs1.
  pose proof (store_buffered _ _ a2 85 Hs1 ltac:(simpl; lia)) as Hs2.
  cbn [app] in Hs2. split; [| exact Hs2].
  rewrite (write_all_cons f a1 170 _ (store a1 170 f)).
  - rewrite (write_all_cons _ a2 85 _ (store a2 85 (store a1 170 f)));
      [reflexivity |].
    apply (write_matching _ _ _ _ _ Hs1); [simpl; lia |].
    apply orElse_true.
    now rewrite (checkCommandManufacturer_more _ _ Hs2 ltac:(solve_prefix)
                   ltac:(simpl; lia)).
  - apply (write_matching _ _ _ _ _ Hb); [simpl; lia |].
    apply orElse_true.
    now rewrite (checkCommandManufacturer_more _ _ Hs1 ltac:(solve_prefix)
                   ltac:(simpl; lia)).
Qed.

(** The third byte 0x90 switches to the ID mode. *)
Lemma manufacturer_third f a1 a2 a3 :
  buffered f [mkAmdCmd a1 170; mkAmdCmd a2 85] ->
  command_address u12 a1 = 1365 -> command_address u12 a2 = 682 ->
  command_address u12 a3 = 1365 ->
  write MAX_CMD_SIZE a3 144 f = Done (tt, setState ST_IDENT (store a3 144 f)) /\
  buffered (setState ST_IDENT (store a3 144 f))
           [mkAmdCmd a1 170; mkAmdCmd a2 85; mkAmdCmd a3 144].
Proof.
  intros Hb H1 H2 H3.
  pose proof (store_buffered _ _ a3 144 Hb ltac:(simpl; lia)) as Hs.
  cbn [app] in Hs. split; [| now apply buffered_setState].
  apply (write_matching _ _ _ _ _ Hb); [simpl; lia |].
  apply orElse_true.
  now rewrite (checkCommandManufacturer_more _ _ Hs ltac:(solve_prefix)
                 ltac:(simpl; lia)).
Qed.

(** Any byte written in the ID mode ends it. *)
Lemma manufacturer_fourth f a1 a2 a3 address v :
  buffered f [mkAmdCmd a1 170; mkAmdCmd a2 85; mkAmdCmd a3 144] ->
  command_address u12 a1 = 1365 -> command_address u12 a2 = 682 ->
  command_address u12 a3 = 1365 ->
  write MAX_CMD_SIZE address v f = Done (tt, reset (store address v f)).
Proof.
  intros Hb H1 H2 H3.
  pose proof (store_buffered _ _ address v Hb ltac:(simpl; lia)) as Hs.
  cbn [app] in Hs.
  apply (write_done _ _ _ _ _ Hb); [simpl; lia |]. unfold checks.
  rewrite (orElse_false _ _ _ _
             (checkCommandManufacturer_over _ _ Hs ltac:(simpl; lia))).
  rewrite (orElse_false _ _ _ _
             (checkCommandEraseSector_no _ _ Hs ltac:(solve_prefix))).
  unfold checkCommandProgram, checkCommandDoubleByteProgram,
    checkCommandQuadrupleByteProgram.
  rewrite (orElse_false _ _ _ _
             (checkCommandProgramHelper_no _ _ 1 [170; 85; 160] 3 Hs
                ltac:(lia) eq_refl ltac:(solve_prefix))).
  rewrite (orElse_false _ _ _ _
             (checkCommandProgramHelper_no _ _ 2 [80] 1 Hs
                ltac:(lia) eq_refl ltac:(solve_prefix))).
  rewrite (orElse_false _ _ _ _
             (checkCommandProgramHelper_no _ _ 4 [86] 1 Hs
                ltac:(lia) eq_refl ltac:(solve_prefix))).
  rewrite (orElse_false _ _ _ _
             (checkCommandEraseChip_no _ _ Hs ltac:(solve_prefix))).
  now rewrite (checkCommandReset_eval _ _ _ Hs eq_refl).
Qed.

(** What one step of the program loop does to the flash. *)
Lemma programByte_effect f i c sector sectorSize offset :
  initialised MAX_CMD_SIZE f ->
  at_index (cmd f) i = Done c ->
  getSectorInfo f (addr c) = Done (sector, sectorSize, offset) ->
  exists g,
    programByte i f = Done (tt, g) /\
    (isSectorWritable f sector = Done false -> g = f) /\
    (isSectorWritable f sector = Done true ->
     exists wa bytes old,
       at_index (writeAddress f) sector = Done wa /\
       ram f = Some bytes /\
       bytes !! Z.to_nat (wa + offset) = Some old /\
       g = set_ram (Some (<[Z.to_nat (wa + offset) :=
                              Z.land old (value c)]> bytes)) f).
Proof.
  intros Hi Hc Hg.
  destruct (getSectorInfo_finds _ f (addr c) Hi)
    as (k & si & off & Hk & Hg' & Hoff).
  rewrite Hg in Hg'. injection Hg' as -> -> ->.
  destruct (writable_sector_block _ f k si Hi Hk ltac:(lia)) as (b & Hb & Hw).
  unfold programByte, bind, lift. rewrite Hc, Hg, Hb.
  destruct b.
  - destruct (Hw eq_refl) as (w & bytes & Hat & Hram & Hw0 & Hfit & Hsz).
    rewrite Hat. unfold SRAM_get, SRAM_write, lift. rewrite Hram.
    rewrite (u32_small (w + off)) by lia.
    destruct (at_index_in_range bytes (w + off)) as [old Hold]; [lia |].
    rewrite Hold.
    destruct (Z.ltb_spec (w + off) 0); [lia |].
    destruct (Z.leb_spec (Z.of_nat (length bytes)) (w + off)); [lia |].
    cbn [orb]. rewrite ?Hram.
    destruct (Z.leb_spec (Z.of_nat (length bytes)) (w + off)); [lia |].
    eexists. split; [reflexivity |].
    split; [discriminate |]. intros _. exists w, bytes, old.
    apply at_index_Done in Hold. tauto.
  - exists f. split; [reflexivity |]. split; [reflexivity | discriminate].
Qed.

(** What the erase of one sector does to the flash. *)
Lemma eraseSector_effect f c sector sectorSize offset :
  initialised MAX_CMD_SIZE f ->
  getSectorInfo f (addr c) = Done (sector, sectorSize, offset) ->
  exists g,
    eraseSector c f = Done (tt, g) /\
    (isSectorWritable f sector = Done false -> g = f) /\
    (isSectorWritable f sector = Done true ->
     exists wa bytes,
       at_index (writeAddress f) sector = Done wa /\
       ram f = Some bytes /\
       g = set_ram (Some (take (Z.to_nat wa) bytes ++
                          replicate (Z.to_nat sectorSize) 255 ++
                          drop (Z.to_nat (wa + sectorSize)) bytes)) f).
Proof.
  intros Hi Hg.
  destruct (getSectorInfo_finds _ f (addr c) Hi)
    as (k & si & off & Hk & Hg' & Hoff).
  rewrite Hg in Hg'. injection Hg' as -> -> ->.
  destruct (writable_sector_block _ f k si Hi Hk ltac:(lia)) as (b & Hb & Hw).
  unfold eraseSector, bind, lift. rewrite Hg, Hb.
  destruct b.
  - destruct (Hw eq_refl) as (w & bytes & Hat & Hram & Hw0 & Hfit & Hsz).
    rewrite Hat. unfold SRAM_memset. rewrite Hram.
    rewrite (u32_small w) by lia.
    destruct (Z.ltb_spec w 0); [lia |].
    destruct (Z.ltb_spec (sec_size si) 0); [lia |].
    destruct (Z.ltb_spec (Z.of_nat (length bytes)) (w + sec_size si));
      [lia |].
    cbn [orb]. eexists. split; [reflexivity |].
    split; [discriminate |]. intros _. exists w, bytes. auto.
  - exists f. split; [reflexivity |]. split; [reflexivity | discriminate].
Qed.

(** The third byte 0xA0 of the program command is buffered. *)
Lemma program_third f a1 a2 a3 :
  buffered f [mkAmdCmd a1 170; mkAmdCmd a2 85] ->
  command_address u12 a1 = 1365 -> command_address u12 a2 = 682 ->
  command_address u12 a3 = 1365 ->
  write MAX_CMD_SIZE a3 160 f = Done (tt, store a3 160 f) /\
  buffered (store a3 160 f)
           [mkAmdCmd a1 170; mkAmdCmd a2 85; mkAmdCmd a3 160].
Proof.
  intros Hb H1 H2 H3.
  pose proof (store_buffered _ _ a3 160 Hb ltac:(simpl; lia)) as Hs.
  cbn [app] in Hs. split; [| exact Hs].
  apply (write_matching _ _ _ _ _ Hb); [simpl; lia |]. unfold checks.
  rewrite (orElse_false _ _ _ _
             (checkCommandManufacturer_no _ _ Hs ltac:(solve_prefix))).
  rewrite (orElse_false _ _ _ _
             (checkCommandEraseSector_no _ _ Hs ltac:(solve_prefix))).
  apply orElse_true. unfold checkCommandProgram.
  now rewrite (checkCommandProgramHelper_more _ _ 1 [170; 85; 160] 3 Hs
                 ltac:(lia) eq_refl ltac:(solve_prefix) ltac:(simpl; lia)).
Qed.

(** The fourth byte of the program command is programmed. *)
Lemma program_fourth f a1 a2 a3 address v :
  buffered f [mkAmdCmd a1 170; mkAmdCmd a2 85; mkAmdCmd a3 160] ->
  command_address u12 a1 = 1365 -> command_address u12 a2 = 682 ->
  command_address u12 a3 = 1365 ->
  write MAX_CMD_SIZE address v f =
  match programByte 3 (store address v f) with
  | Done (_, g) => Done (tt, reset g)
  | Abort e => Abort e
  end.
Proof.
  intros Hb H1 H2 H3.
  pose proof (store_buffered _ _ address v Hb ltac:(simpl; lia)) as Hs.
  cbn [app] in Hs.
  pose proof (proj1 Hs) as Hi.
  pose proof (buffered_entry _ _ 3 _ Hs eq_refl) as Hc.
  change (Z.of_nat 3) with 3 in Hc.
  destruct (getSectorInfo_finds _ _ address Hi)
    as (k & si & off & Hk & Hg & Hoff).
  destruct (programByte_effect _ 3 _ _ _ _ Hi Hc Hg) as (g & Hp & Hf & Ht).
  rewrite Hp.
  assert (Hsg : buffered g [mkAmdCmd a1 170; mkAmdCmd a2 85;
                            mkAmdCmd a3 160; mkAmdCmd address v]).
  { destruct (writable_sector_block _ _ k si Hi Hk ltac:(lia))
      as ([|] & Hb' & _).
    - destruct (Ht Hb') as (wa & bytes & old & _ & Hram & _ & ->).
      destruct Hs as (Hi' & Hidx & Hpre & Hu).
      split; [| auto].
      apply (initialised_set_ram _ _ bytes); [exact Hi' | exact Hram |].
      now rewrite length_insert.
    - now rewrite (Hf Hb'). }
  apply (write_done _ _ _ _ _ Hb); [simpl; lia |]. unfold checks.
  rewrite (orElse_false _ _ _ _
             (checkCommandManufacturer_no _ _ Hs ltac:(solve_prefix))).
  rewrite (orElse_false _ _ _ _
             (checkCommandEraseSector_no _ _ Hs ltac:(solve_prefix))).
  unfold checkCommandProgram, checkCommandDoubleByteProgram,
    checkCommandQuadrupleByteProgram.
  assert (Hrun : checkCommandProgramHelper 1 [170; 85; 160] 3
                   (store address v f) = Done (false, g)).
  { rewrite (checkCommandProgramHelper_run _ _ 1 [170; 85; 160] 3 Hs
               ltac:(lia) eq_refl ltac:(solve_prefix) ltac:(simpl; lia)).
    change (Z.to_nat 1) with 1%nat. cbn [program_loop]. unfold bind, ret.
    now rewrite Hp. }
  rewrite (orElse_false _ _ _ _ Hrun).
  rewrite (orElse_false _ _ _ _
             (checkCommandProgramHelper_no _ _ 2 [80] 1 Hsg
                ltac:(lia) eq_refl ltac:(solve_prefix))).
  rewrite (orElse_false _ _ _ _
             (checkCommandProgramHelper_no _ _ 4 [86] 1 Hsg
                ltac:(lia) eq_refl ltac:(solve_prefix))).
  rewrite (orElse_false _ _ _ _
             (checkCommandEraseChip_no _ _ Hsg ltac:(solve_prefix))).
  now rewrite (checkCommandReset_eval _ _ _ Hsg eq_refl).
Qed.

(** One further byte of the erase commands is buffered. *)
Lemma erase_step f pre address v :
  buffered f pre -> (2 <= length pre < 5)%nat ->
  prefix_ok u12 (pre ++ [mkAmdCmd address v]) command_addresses
            [170; 85; 144] = false ->
  prefix_ok u12 (pre ++ [mkAmdCmd address v]) command_addresses
            [170; 85; 128; 170; 85] = true ->
  write MAX_CMD_SIZE address v f = Done (tt, store address v f).
Proof.
  intros Hb Hn Hno Hok.
  pose proof (store_buffered _ _ address v Hb ltac:(lia)) as Hs.
  apply (write_matching _ _ _ _ _ Hb); [lia |]. unfold checks.
  rewrite (orElse_false _ _ _ _ (checkCommandManufacturer_no _ _ Hs Hno)).
  apply orElse_true. apply (checkCommandEraseSector_more _ _ Hs Hok).
  rewrite length_app. simpl. lia.
Qed.

(** The third, fourth and fifth byte of the erase commands are buffered. *)
Lemma erase_middle f a1 a2 a3 a4 a5 rest :
  buffered f [mkAmdCmd a1 170; mkAmdCmd a2 85] ->
  command_address u12 a1 = 1365 -> command_address u12 a2 = 682 ->
  command_address u12 a3 = 1365 -> command_address u12 a4 = 1365 ->
  command_address u12 a5 = 682 ->
  write_all MAX_CMD_SIZE ((a3, 128) :: (a4, 170) :: (a5, 85) :: rest) f
  = write_all MAX_CMD_SIZE rest
      (store a5 85 (store a4 170 (store a3 128 f))) /\
  buffered (store a5 85 (store a4 170 (store a3 128 f)))
           [mkAmdCmd a1 170; mkAmdCmd a2 85; mkAmdCmd a3 128;
            mkAmdCmd a4 170; mkAmdCmd a5 85].
Proof.
  intros Hb H1 H2 H3 H4 H5.
  pose proof (store_buffered _ _ a3 128 Hb ltac:(simpl; lia)) as Hs3.
  cbn [app] in Hs3.
  pose proof (store_buffered _ _ a4 170 Hs3 ltac:(simpl; lia)) as Hs4.
  cbn [app] in Hs4.
  pose proof (store_buffered _ _ a5 85 Hs4 ltac:(simpl; lia)) as Hs5.
  cbn [app] in Hs5. split; [| exact Hs5].
  rewrite (write_all_cons f a3 128 _ (store a3 128 f))
    by (apply (erase_step _ _ _ _ Hb); [simpl; lia | solve_prefix ..]).
  rewrite (write_all_cons _ a4 170 _ (store a4 170 (store a3 128 f)))
    by (apply (erase_step _ _ _ _ Hs3); [simpl; lia | solve_prefix ..]).
  rewrite (write_all_cons _ a5 85 _
             (store a5 85 (store a4 170 (store a3 128 f))))
    by (apply (erase_step _ _ _ _ Hs4); [simpl; lia | solve_prefix ..]).
  reflexivity.
Qed.

(** The sixth byte 0x30 erases the sector of its address. *)
Lemma erase_sector_sixth f a1 a2 a3 a4 a5 address :
  buffered f [mkAmdCmd a1 170; mkAmdCmd a2 85; mkAmdCmd a3 128;
              mkAmdCmd a4 170; mkAmdCmd a5 85] ->
  command_address u12 a1 = 1365 -> command_address u12 a2 = 682 ->
  command_address u12 a3 = 1365 -> command_address u12 a4 = 1365 ->
  command_address u12 a5 = 682 ->
  write MAX_CMD_SIZE address 48 f =
  match eraseSector (mkAmdCmd address 48) (store address 48 f) with
  | Done (_, g) => Done (tt, reset g)
  | Abort e => Abort e
  end.
Proof.
  intros Hb H1 H2 H3 H4 H5.
  pose proof (store_buffered _ _ address 48 Hb ltac:(simpl; lia)) as Hs.
  cbn [app] in Hs. pose proof (proj1 Hs) as Hi.
  destruct (getSectorInfo_finds _ _ address Hi)
    as (k & si & off & Hk & Hg & Hoff).
  destruct (eraseSector_effect _ (mkAmdCmd address 48) _ _ _ Hi Hg)
    as (g & Hp & Hf & Ht).
  rewrite Hp.
  assert (Hsg : buffered g [mkAmdCmd a1 170; mkAmdCmd a2 85; mkAmdCmd a3 128;
                            mkAmdCmd a4 170; mkAmdCmd a5 85;
                            mkAmdCmd address 48]).
  { destruct (writable_sector_block _ _ k si Hi Hk ltac:(lia))
      as ([|] & Hb' & Hblk).
    - destruct (Ht Hb') as (wa & bytes & Hwa & Hram & ->).
      destruct (Hblk eq_refl) as (w' & bytes' & Hwa' & Hram' & ? & ? & ?).
      rewrite Hwa in Hwa'. injection Hwa' as <-.
      rewrite Hram in Hram'. injection Hram' as <-.
      destruct Hs as (Hi' & Hidx & Hpre & Hu).
      split; [| auto].
      apply (initialised_set_ram _ _ bytes); [exact Hi' | exact Hram |].
      rewrite !length_app, length_take, length_replicate, length_drop. lia.
    - now rewrite (Hf Hb'). }
  apply (write_done _ _ _ _ _ Hb); [simpl; lia |]. unfold checks.
  rewrite (orElse_false _ _ _ _
             (checkCommandManufacturer_no _ _ Hs ltac:(solve_prefix))).
  assert (Hrun : checkCommandEraseSector (store address 48 f)
                 = Done (false, g)).
  { rewrite (checkCommandEraseSector_run _ _ _ Hs ltac:(solve_prefix)
               eq_refl).
    cbn [value]. change (48 =? 48) with true. cbv iota. now rewrite Hp. }
  rewrite (orElse_false _ _ _ _ Hrun).
  unfold checkCommandProgram, checkCommandDoubleByteProgram,
    checkCommandQuadrupleByteProgram.
  rewrite (orElse_false _ _ _ _
             (checkCommandProgramHelper_no _ _ 1 [170; 85; 160] 3 Hsg
                ltac:(lia) eq_refl ltac:(solve_prefix))).
  rewrite (orElse_false _ _ _ _
             (checkCommandProgramHelper_no _ _ 2 [80] 1 Hsg
                ltac:(lia) eq_refl ltac:(solve_prefix))).
  rewrite (orElse_false _ _ _ _
             (checkCommandProgramHelper_no _ _ 4 [86] 1 Hsg
                ltac:(lia) eq_refl ltac:(solve_prefix))).
  assert (Hchip : checkCommandEraseChip g = Done (false, g)).
  { now rewrite (checkCommandEraseChip_run _ _ _ Hsg ltac:(solve_prefix)
                   eq_refl). }
  rewrite (orElse_false _ _ _ _ Hchip).
  now rewrite (checkCommandReset_eval _ _ _ Hsg eq_refl).
Qed.

(** The sixth byte 0x10 erases the whole SRAM. *)
Lemma erase_chip_sixth f a1 a2 a3 a4 a5 address :
  buffered f [mkAmdCmd a1 170; mkAmdCmd a2 85; mkAmdCmd a3 128;
              mkAmdCmd a4 170; mkAmdCmd a5 85] ->
  command_address u12 a1 = 1365 -> command_address u12 a2 = 682 ->
  command_address u12 a3 = 1365 -> command_address u12 a4 = 1365 ->
  command_address u12 a5 = 682 ->
  write MAX_CMD_SIZE address 16 f =
  Done (tt, reset (set_ram
                     (option_map (fun bytes => replicate (length bytes) 255)
                                 (ram f))
                     (store address 16 f))).
Proof.
  intros Hb H1 H2 H3 H4 H5.
  pose proof (store_buffered _ _ address 16 Hb ltac:(simpl; lia)) as Hs.
  cbn [app] in Hs. pose proof (proj1 Hs) as Hi.
  apply (write_done _ _ _ _ _ Hb); [simpl; lia |]. unfold checks.
  rewrite (orElse_false _ _ _ _
             (checkCommandManufacturer_no _ _ Hs ltac:(solve_prefix))).
  assert (Hrun : checkCommandEraseSector (store address 16 f)
                 = Done (false, store address 16 f)).
  { now rewrite (checkCommandEraseSector_run _ _ _ Hs ltac:(solve_prefix)
                   eq_refl). }
  rewrite (orElse_false _ _ _ _ Hrun).
  unfold checkCommandProgram, checkCommandDoubleByteProgram,
    checkCommandQuadrupleByteProgram.
  rewrite (orElse_false _ _ _ _
             (checkCommandProgramHelper_no _ _ 1 [170; 85; 160] 3 Hs
                ltac:(lia) eq_refl ltac:(solve_prefix))).
  rewrite (orElse_false _ _ _ _
             (checkCommandProgramHelper_no _ _ 2 [80] 1 Hs
                ltac:(lia) eq_refl ltac:(solve_prefix))).
  rewrite (orElse_false _ _ _ _
             (checkCommandProgramHelper_no _ _ 4 [86] 1 Hs
                ltac:(lia) eq_refl ltac:(solve_prefix))).
  set (g := set_ram (option_map (fun bytes => replicate (length bytes) 255)
                                (ram f)) (store address 16 f)).
  assert (Hchip : checkCommandEraseChip (store address 16 f)
                  = Done (false, g)).
  { rewrite (checkCommandEraseChip_run _ _ _ Hs ltac:(solve_prefix) eq_refl).
    cbn [value]. change (16 =? 16) with true. cbv iota.
    change (ram (store address 16 f)) with (ram f). subst g.
    destruct (ram f) as [bytes |] eqn:Hram.
    - unfold SRAM_memset. change (ram (store address 16 f)) with (ram f).
      rewrite Hram.
      destruct (Z.ltb_spec (Z.of_nat (length bytes)) 0); [lia |].
      destruct (Z.ltb_spec (Z.of_nat (length bytes))
                           (0 + Z.of_nat (length bytes))); [lia |].
      change (0 <? 0) with false. cbn [orb option_map].
      rewrite Z.add_0_l, Nat2Z.id, drop_all, app_nil_r. reflexivity.
    - cbn [option_map]. f_equal. f_equal.
      unfold store, set_ram, set_cmdIdx, set_cmd. cbn. now rewrite Hram. }
  rewrite (orElse_false _ _ _ _ Hchip).
  assert (Hsg : buffered g [mkAmdCmd a1 170; mkAmdCmd a2 85; mkAmdCmd a3 128;
                            mkAmdCmd a4 170; mkAmdCmd a5 85;
                            mkAmdCmd address 16]).
  { subst g. destruct Hs as (Hi' & Hidx & Hpre & Hu).
    split; [| auto].
    change (ram (store address 16 f)) with (ram f) in *.
    destruct (ram f) as [bytes |] eqn:Hram.
    - apply (initialised_set_ram _ _ bytes); [exact Hi' | exact Hram |].
      now rewrite length_replicate.
    - cbn [option_map].
      replace (set_ram None (store address 16 f)) with (store address 16 f);
        [exact Hi' |].
      unfold store, set_ram, set_cmdIdx, set_cmd. cbn. now rewrite Hram. }
  now rewrite (checkCommandReset_eval _ _ _ Hsg eq_refl).
Qed.

(** A first byte that starts no command is dropped. *)
Lemma stray_byte f address v :
  buffered f [] ->
  command_address u12 address <> 1365 \/ (v <> 170 /\ v <> 80 /\ v <> 86) ->
  write MAX_CMD_SIZE address v f = Done (tt, reset (store address v f)).
Proof.
  intros Hb Hstray.
  pose proof (store_buffered _ _ address v Hb ltac:(simpl; lia)) as Hs.
  cbn [app] in Hs.
  assert (Hpre : forall d rest,
            d = 170 \/ d = 80 \/ d = 86 ->
            prefix_ok u12 [mkAmdCmd address v] command_addresses (d :: rest)
            = false).
  { intros d rest Hd. cbn [prefix_ok command_addresses].
    unfold entry_ok. cbn [addr value]. rewrite andb_true_r.
    apply andb_false_iff. rewrite !Z.eqb_neq. lia. }
  rewrite <- (reset_idem (store address v f)).
  replace (reset (reset (store address v f)))
    with (reset (if v =? 240 then reset (store address v f)
                 else store address v f))
    by (destruct (v =? 240); [reflexivity | now rewrite reset_idem]).
  apply (write_done _ _ _ _ _ Hb); [simpl; lia |]. unfold checks.
  rewrite (orElse_false _ _ _ _
             (checkCommandManufacturer_no _ _ Hs (Hpre 170 _ ltac:(lia)))).
  rewrite (orElse_false _ _ _ _
             (checkCommandEraseSector_no _ _ Hs (Hpre 170 _ ltac:(lia)))).
  unfold checkCommandProgram, checkCommandDoubleByteProgram,
    checkCommandQuadrupleByteProgram.
  rewrite (orElse_false _ _ _ _
             (checkCommandProgramHelper_no _ _ 1 [170; 85; 160] 3
                Hs ltac:(lia) eq_refl (Hpre 170 _ ltac:(lia)))).
  rewrite (orElse_false _ _ _ _
             (checkCommandProgramHelper_no _ _ 2 [80] 1
                Hs ltac:(lia) eq_refl (Hpre 80 _ ltac:(lia)))).
  rewrite (orElse_false _ _ _ _
             (checkCommandProgramHelper_no _ _ 4 [86] 1
                Hs ltac:(lia) eq_refl (Hpre 86 _ ltac:(lia)))).
  rewrite (orElse_false _ _ _ _
             (checkCommandEraseChip_no _ _ Hs (Hpre 170 _ ltac:(lia)))).
  now rewrite (checkCommandReset_eval _ _ _ Hs eq_refl).
Qed.

End Decoder.

Lemma reset_fields f :
  cmdIdx (reset f) = 0 /\ state (reset f) = ST_IDLE /\
  ram (reset f) = ram f /\
  invalidated (reset f)
  = invalidated f ++ match state f with
                     | ST_IDLE => []
                     | ST_IDENT => [mkInvalidate 0 65536]
                     end.
Proof.
  destruct f as [si wa ra ro sz id u r c ci st vpp inv].
  destruct st; cbn; rewrite ?app_nil_r; auto.
Qed.

Lemma sramEmpty_replicate n : sramEmpty (replicate n 255) = true.
Proof.
  unfold sramEmpty. apply forallb_forall. intros i Hi.
  apply in_seq in Hi. rewrite length_replicate in Hi.
  rewrite lookup_replicate_2 by lia. reflexivity.
Qed.


(** X16: between two commands, a byte that starts none of them is
    dropped: [write] returns with the command index back at 0 and the chip
    in the idle mode, the SRAM is as before, and the memory cache is
    invalidated only when the chip was in the ID mode.  The reset byte
    0xF0 is one such byte. *)
Theorem stray_byte_resets_decoder (MAX_CMD_SIZE : Z) (f : Flash)
    (address v : Z) :
  6 <= MAX_CMD_SIZE -> initialised MAX_CMD_SIZE f -> cmdIdx f = 0 ->
  command_address (use12bitAddressing f) address <> 1365 \/
  (v <> 170 /\ v <> 80 /\ v <> 86) ->
  exists g,
    write MAX_CMD_SIZE address v f = Done (tt, g) /\
    cmdIdx g = 0 /\ state g = ST_IDLE /\ ram g = ram f /\
    invalidated g
    = invalidated f ++ match state f with
                       | ST_IDLE => []
                       | ST_IDENT => [mkInvalidate 0 65536]
                       end.
Proof.
  intros Hmax Hi Hidx Hstray.
  pose proof (buffered_nil _ _ f Hi Hidx eq_refl) as Hb.
  exists (reset (store address v f)). split.
  - exact (stray_byte _ Hmax _ f address v Hb Hstray).
  - exact (reset_fields (store address v f)).
Qed.

Lemma stray_byte_resets_decoder_witness :
  exists g,
    write 8 1365 240 example_flash = Done (tt, g) /\
    cmdIdx g = 0 /\ state g = ST_IDLE /\ ram g = ram example_flash /\
    invalidated g = invalidated example_flash ++ [].
Proof.
  apply (stray_byte_resets_decoder 8 example_flash 1365 240);
    [lia | exact example_flash_initialised | reflexivity | right; lia].
Defined.

Lemma setState_ident_fields f :
  state (setState ST_IDENT f) = ST_IDENT /\
  cmdIdx (setState ST_IDENT f) = cmdIdx f /\
  ram (setState ST_IDENT f) = ram f /\
  ID (setState ST_IDENT f) = ID f /\
  use12bitAddressing (setState ST_IDENT f) = use12bitAddressing f /\
  invalidated (setState ST_IDENT f)
  = invalidated f ++ match state f with
                     | ST_IDLE => [mkInvalidate 0 65536]
                     | ST_IDENT => []
                     end.
Proof.
  destruct f as [si wa ra ro sz id u r c ci st vpp inv].
  destruct st; cbn; rewrite ?app_nil_r; auto 10.
Qed.

(** X17: the manufacturer-ID command, the bytes 0xAA, 0x55 and 0x90 written
    to the command addresses 0x555, 0x2AA and 0x555, switches the chip to
    the ID mode: the three bytes stay buffered, the SRAM is untouched, the
    memory cache is invalidated once if the chip was idle, no read cache
    line is handed out any more, and the addresses whose two low bits are
    0 and 1 read as the high and the low byte of the ID. *)
Theorem manufacturer_command_enters_ident (MAX_CMD_SIZE : Z) (f : Flash)
    (a1 a2 a3 : Z) :
  6 <= MAX_CMD_SIZE -> initialised MAX_CMD_SIZE f -> cmdIdx f = 0 ->
  command_address (use12bitAddressing f) a1 = 1365 ->
  command_address (use12bitAddressing f) a2 = 682 ->
  command_address (use12bitAddressing f) a3 = 1365 ->
  exists g,
    write_all MAX_CMD_SIZE [(a1, 170); (a2, 85); (a3, 144)] f
      = Done (tt, g) /\
    state g = ST_IDENT /\ cmdIdx g = 3 /\ ram g = ram f /\
    invalidated g
    = invalidated f ++ match state f with
                       | ST_IDLE => [mkInvalidate 0 65536]
                       | ST_IDENT => []
                       end /\
    (forall address, getReadCacheLine g address = Done ReadNull) /\
    (forall address,
       Z.land (if use12bitAddressing f then Z.shiftr address 1
               else address) 3 = 0 ->
       peek g address = Done (Z.shiftr (ID f) 8 mod 256)) /\
    (forall address,
       Z.land (if use12bitAddressing f then Z.shiftr address 1
               else address) 3 = 1 ->
       peek g address = Done (Z.land (ID f) 255)).
Proof.
  intros Hmax Hi Hidx H1 H2 H3.
  pose proof (buffered_nil _ _ f Hi Hidx eq_refl) as Hb.
  destruct (command_start _ Hmax _ f a1 a2 [(a3, 144)] Hb H1 H2)
    as [Hrun Hb2].
  destruct (manufacturer_third _ Hmax _ _ a1 a2 a3 Hb2 H1 H2 H3)
    as [Hw Hb3].
  set (s := store a3 144 (store a2 85 (store a1 170 f))) in *.
  destruct (setState_ident_fields s) as (Hst & Hci & Hram & Hid & Hu & Hinv).
  exists (setState ST_IDENT s). split.
  { rewrite Hrun. cbn [write_all]. unfold bind, ret. now rewrite Hw. }
  split; [exact Hst |]. split.
  { rewrite Hci. destruct Hb2 as (_ & Hci2 & _). subst s.
    unfold store at 1. cbn [cmdIdx set_cmdIdx]. rewrite Hci2. reflexivity. }
  split; [exact Hram |]. split; [exact Hinv |]. split.
  { intros address. unfold getReadCacheLine. now rewrite Hst. }
  pose proof (proj1 Hb3) as Hi3.
  split; intros address Hlow;
    destruct (getSectorInfo_finds _ _ address Hi3)
      as (k & si & off & _ & Hg & _);
    unfold peek; rewrite Hg; cbn [obind]; rewrite Hst, Hu, Hid;
    change (use12bitAddressing s) with (use12bitAddressing f);
    change (ID s) with (ID f); now rewrite Hlow.
Qed.

Lemma manufacturer_command_enters_ident_witness :
  exists g,
    write_all 8 [(1365, 170); (682, 85); (1365, 144)] example_flash
      = Done (tt, g) /\
    state g = ST_IDENT /\ cmdIdx g = 3 /\ ram g = ram example_flash /\
    invalidated g = invalidated example_flash ++ [mkInvalidate 0 65536] /\
    (forall address, getReadCacheLine g address = Done ReadNull) /\
    (forall address,
       Z.land address 3 = 0 ->
       peek g address = Done (Z.shiftr (ID example_flash) 8 mod 256)) /\
    (forall address,
       Z.land address 3 = 1 ->
       peek g address = Done (Z.land (ID example_flash) 255)).
Proof.
  apply (manufacturer_command_enters_ident 8 example_flash 1365 682 1365);
    [lia | exact example_flash_initialised | reflexivity ..].
Defined.

(** X18: one more byte written in the ID mode, whatever its address and
    value, ends the mode: the chip is idle again with the command index at
    0, the memory cache is invalidated, and the SRAM is still untouched. *)
Theorem write_in_ident_mode_leaves_it (MAX_CMD_SIZE : Z) (f : Flash)
    (a1 a2 a3 address v : Z) :
  6 <= MAX_CMD_SIZE -> initialised MAX_CMD_SIZE f -> cmdIdx f = 0 ->
  command_address (use12bitAddressing f) a1 = 1365 ->
  command_address (use12bitAddressing f) a2 = 682 ->
  command_address (use12bitAddressing f) a3 = 1365 ->
  exists g h,
    write_all MAX_CMD_SIZE [(a1, 170); (a2, 85); (a3, 144)] f
      = Done (tt, g) /\
    write MAX_CMD_SIZE address v g = Done (tt, h) /\
    state h = ST_IDLE /\ cmdIdx h = 0 /\ ram h = ram f /\
    invalidated h = invalidated g ++ [mkInvalidate 0 65536].
Proof.
  intros Hmax Hi Hidx H1 H2 H3.
  pose proof (buffered_nil _ _ f Hi Hidx eq_refl) as Hb.
  destruct (command_start _ Hmax _ f a1 a2 [(a3, 144)] Hb H1 H2)
    as [Hrun Hb2].
  destruct (manufacturer_third _ Hmax _ _ a1 a2 a3 Hb2 H1 H2 H3)
    as [Hw Hb3].
  set (s := store a3 144 (store a2 85 (store a1 170 f))) in *.
  destruct (setState_ident_fields s) as (Hst & Hci & Hram & Hid & Hu & Hinv).
  set (g := setState ST_IDENT s) in *.
  exists g, (reset (store address v g)). split.
  { rewrite Hrun. cbn [write_all]. unfold bind, ret. now rewrite Hw. }
  split.
  { exact (manufacturer_fourth _ Hmax _ g a1 a2 a3 address v Hb3 H1 H2 H3). }
  destruct (reset_fields (store address v g)) as (Rc & Rs & Rr & Ri).
  split; [exact Rs |]. split; [exact Rc |]. split.
  { rewrite Rr. change (ram (store address v g)) with (ram g).
    now rewrite Hram. }
  rewrite Ri. change (state (store address v g)) with (state g).
  rewrite Hst. reflexivity.
Qed.

Lemma write_in_ident_mode_leaves_it_witness :
  exists g h,
    write_all 8 [(1365, 170); (682, 85); (1365, 144)] example_flash
      = Done (tt, g) /\
    write 8 0 0 g = Done (tt, h) /\
    state h = ST_IDLE /\ cmdIdx h = 0 /\ ram h = ram example_flash /\
    invalidated h = invalidated g ++ [mkInvalidate 0 65536].
Proof.
  apply (write_in_ident_mode_leaves_it 8 example_flash 1365 682 1365 0 0);
    [lia | exact example_flash_initialised | reflexivity ..].
Defined.

(** A sector that is read from the SRAM owns a block of it, which starts
    at its [writeAddress] entry. *)
Lemma ram_pointer_block MAX_CMD_SIZE f (k : nat) si o :
  initialised MAX_CMD_SIZE f ->
  sectorInfo f !! k = Some si -> 0 < sec_size si ->
  at_index (readAddress f) (Z.of_nat k) = Done (RamPtr o) ->
  exists bytes,
    ram f = Some bytes /\ writeAddress f !! k = Some o /\
    0 <= o /\ o + sec_size si <= Z.of_nat (length bytes).
Proof.
  intros Hi Hk Hpos Hat.
  destruct (writableSize_bound _ f Hi) as (Hlen & Hsz & Hblk).
  destruct (init_read _ _ Hi) as [vpp Hread].
  pose proof (init_sectors _ _ Hi) as Hsec.
  pose proof (init_total _ _ Hi) as Htot.
  pose proof (init_count _ _ Hi) as Hcount.
  destruct (init_readAddress_ptrs vpp (writeAddress f)
              (Z.of_nat (length (rom f))) (sectorInfo f) O 0
              (readAddress f) Hsec) as [Hrlen Hptrs];
    [lia | lia | lia | exact Hread |].
  apply at_index_Done in Hat. rewrite Nat2Z.id in Hat.
  destruct Hat as [_ Hp].
  destruct (Hptrs k _ si Hp Hk) as (w & Hw & Hne & ->). simpl in Hw.
  destruct (Hblk k si w Hk Hw Hne) as [Hw0 Hfit].
  destruct (init_ram _ _ Hi) as (bytes & Hram & Hbytes); [lia |].
  rewrite u32_small by lia.
  exists bytes. rewrite Hbytes. auto.
Qed.

(** In the idle mode an address of a sector that is read from the SRAM
    reads the SRAM byte at the block of the sector plus the offset. *)
Lemma peek_idle_ram f g address sector sectorSize offset o bytes x :
  same_chip f g -> state g = ST_IDLE ->
  getSectorInfo f address = Done (sector, sectorSize, offset) ->
  at_index (readAddress f) sector = Done (RamPtr o) ->
  ram g = Some bytes -> 0 <= o + offset ->
  bytes !! Z.to_nat (o + offset) = Some x ->
  peek g address = Done x.
Proof.
  intros (Hsec & _ & Hra & _ & Hsize & _) Hst Hg Hat Hram H0 Hx.
  assert (Hg' : getSectorInfo g address = Done (sector, sectorSize, offset))
    by (unfold getSectorInfo in *; now rewrite Hsec, Hsize).
  unfold peek. rewrite Hg'. cbn [obind]. rewrite Hst, Hra, Hat. cbn [obind].
  unfold deref. rewrite Hram. apply at_index_Done. auto.
Qed.

(** X19: the program command, the bytes 0xAA, 0x55 and 0xA0 written to the
    command addresses followed by one data byte, clears bits only: when the
    sector of the data address is writable, the SRAM byte of that address
    becomes its old value ANDed with the data byte and no other byte
    changes, and the address reads back as that value when its sector is
    read from the SRAM; when the sector is not writable, the SRAM stays as
    it was.  Either way the chip is idle afterwards with the command index
    at 0. *)
Theorem program_command_ands_byte (MAX_CMD_SIZE : Z) (f : Flash)
    (a1 a2 a3 address v sector sectorSize offset : Z) :
  6 <= MAX_CMD_SIZE -> initialised MAX_CMD_SIZE f -> cmdIdx f = 0 ->
  command_address (use12bitAddressing f) a1 = 1365 ->
  command_address (use12bitAddressing f) a2 = 682 ->
  command_address (use12bitAddressing f) a3 = 1365 ->
  getSectorInfo f address = Done (sector, sectorSize, offset) ->
  exists g,
    write_all MAX_CMD_SIZE [(a1, 170); (a2, 85); (a3, 160); (address, v)] f
      = Done (tt, g) /\
    cmdIdx g = 0 /\ state g = ST_IDLE /\
    (isSectorWritable f sector = Done false -> ram g = ram f) /\
    (isSectorWritable f sector = Done true ->
     exists wa bytes old,
       at_index (writeAddress f) sector = Done wa /\
       ram f = Some bytes /\
       bytes !! Z.to_nat (wa + offset) = Some old /\
       ram g = Some (<[Z.to_nat (wa + offset) := Z.land old v]> bytes) /\
       (forall o,
          at_index (readAddress f) sector = Done (RamPtr o) ->
          peek g address = Done (Z.land old v))).
Proof.
  intros Hmax Hi Hidx H1 H2 H3 Hg.
  pose proof (buffered_nil _ _ f Hi Hidx eq_refl) as Hb.
  destruct (command_start _ Hmax _ f a1 a2 [(a3, 160); (address, v)]
              Hb H1 H2) as [Hrun Hb2].
  destruct (program_third _ Hmax _ _ a1 a2 a3 Hb2 H1 H2 H3) as [Hw3 Hb3].
  pose proof (program_fourth _ Hmax _ _ a1 a2 a3 address v Hb3 H1 H2 H3)
    as Hw4.
  set (s3 := store a3 160 (store a2 85 (store a1 170 f))) in *.
  pose proof (store_buffered _ Hmax _ _ _ address v Hb3 ltac:(simpl; lia))
    as Hb4.
  cbn [app] in Hb4.
  pose proof (buffered_entry _ _ _ _ 3 _ Hb4 eq_refl) as Hc.
  change (Z.of_nat 3) with 3 in Hc.
  destruct (programByte_effect _ (store address v s3) 3 _
              sector sectorSize offset (proj1 Hb4) Hc Hg)
    as (p & Hp & Hf & Ht).
  rewrite Hp in Hw4.
  destruct (reset_fields p) as (Rc & Rs & Rr & _).
  exists (reset p). split.
  { rewrite Hrun. cbn [write_all]. unfold bind, ret.
    now rewrite Hw3, Hw4. }
  split; [exact Rc |]. split; [exact Rs |]. rewrite Rr. split.
  - intros Hno. now rewrite (Hf Hno).
  - intros Hyes.
    destruct (Ht Hyes) as (wa & bytes & old & Hwa & Hram & Hold & Ep).
    assert (Hwa' : at_index (writeAddress f) sector = Done wa) by exact Hwa.
    assert (Hram' : ram f = Some bytes) by exact Hram.
    assert (Hrp : ram p = Some (<[Z.to_nat (wa + offset) :=
                                   Z.land old v]> bytes))
      by (now rewrite Ep).
    exists wa, bytes, old.
    split; [exact Hwa' |]. split; [exact Hram' |]. split; [exact Hold |].
    split; [exact Hrp |]. intros o Hat.
    destruct (getSectorInfo_finds _ f address Hi)
      as (k & si & off & Hk & Hg' & Hoff).
    rewrite Hg in Hg'. injection Hg' as -> -> ->.
    destruct (ram_pointer_block _ f k si o Hi Hk ltac:(lia) Hat)
      as (b0 & _ & Hwo & Ho & _).
    apply at_index_Done in Hwa'. rewrite Nat2Z.id in Hwa'.
    destruct Hwa' as [_ Hwa']. rewrite Hwo in Hwa'. injection Hwa' as <-.
    assert (Hsame : same_chip f (reset p)).
    { apply (same_chip_trans _ p); [| apply same_chip_reset].
      rewrite Ep. unfold same_chip. cbn. rewrite Hram'. cbn.
      rewrite length_insert. auto 10. }
    eapply (peek_idle_ram f (reset p) address _ _ _ o _ _ Hsame Rs Hg Hat);
      [rewrite Rr; exact Hrp | lia |].
    apply list_lookup_insert_eq. now apply lookup_lt_Some in Hold.
Qed.

Lemma program_command_ands_byte_witness :
  exists g,
    write_all 8 [(1365, 170); (682, 85); (1365, 160); (17, 15)] example_flash
      = Done (tt, g) /\
    cmdIdx g = 0 /\ state g = ST_IDLE /\
    (isSectorWritable example_flash 1 = Done false ->
     ram g = ram example_flash) /\
    (isSectorWritable example_flash 1 = Done true ->
     exists wa bytes old,
       at_index (writeAddress example_flash) 1 = Done wa /\
       ram example_flash = Some bytes /\
       bytes !! Z.to_nat (wa + 1) = Some old /\
       ram g = Some (<[Z.to_nat (wa + 1) := Z.land old 15]> bytes) /\
       (forall o,
          at_index (readAddress example_flash) 1 = Done (RamPtr o) ->
          peek g 17 = Done (Z.land old 15))).
Proof.
  apply (program_command_ands_byte 8 example_flash 1365 682 1365 17 15
           1 16 1);
    [lia | exact example_flash_initialised | reflexivity ..].
Defined.

(** X20: the erase-sector command, five command bytes followed by 0x30
    written to an address of the sector, sets every SRAM byte of a writable
    sector to 0xFF and leaves the bytes before and after the sector alone,
    and every address of the sector then reads as 0xFF when the sector is
    read from the SRAM; a sector that is not writable is left as it was.
    Either way the chip is idle afterwards with the command index at 0. *)
Theorem erase_sector_command_fills_sector (MAX_CMD_SIZE : Z) (f : Flash)
    (a1 a2 a3 a4 a5 address sector sectorSize offset : Z) :
  6 <= MAX_CMD_SIZE -> initialised MAX_CMD_SIZE f -> cmdIdx f = 0 ->
  command_address (use12bitAddressing f) a1 = 1365 ->
  command_address (use12bitAddressing f) a2 = 682 ->
  command_address (use12bitAddressing f) a3 = 1365 ->
  command_address (use12bitAddressing f) a4 = 1365 ->
  command_address (use12bitAddressing f) a5 = 682 ->
  getSectorInfo f address = Done (sector, sectorSize, offset) ->
  exists g,
    write_all MAX_CMD_SIZE
      [(a1, 170); (a2, 85); (a3, 128); (a4, 170); (a5, 85); (address, 48)] f
      = Done (tt, g) /\
    cmdIdx g = 0 /\ state g = ST_IDLE /\
    (isSectorWritable f sector = Done false -> ram g = ram f) /\
    (isSectorWritable f sector = Done true ->
     exists wa bytes,
       at_index (writeAddress f) sector = Done wa /\
       ram f = Some bytes /\
       ram g = Some (take (Z.to_nat wa) bytes ++
                     replicate (Z.to_nat sectorSize) 255 ++
                     drop (Z.to_nat (wa + sectorSize)) bytes) /\
       (forall o address' offset',
          at_index (readAddress f) sector = Done (RamPtr o) ->
          getSectorInfo f address' = Done (sector, sectorSize, offset') ->
          peek g address' = Done 255)).
Proof.
  intros Hmax Hi Hidx H1 H2 H3 H4 H5 Hg.
  pose proof (buffered_nil _ _ f Hi Hidx eq_refl) as Hb.
  destruct (command_start _ Hmax _ f a1 a2
              [(a3, 128); (a4, 170); (a5, 85); (address, 48)] Hb H1 H2)
    as [Hrun Hb2].
  destruct (erase_middle _ Hmax _ _ a1 a2 a3 a4 a5 [(address, 48)]
              Hb2 H1 H2 H3 H4 H5) as [Hrun5 Hb5].
  pose proof (erase_sector_sixth _ Hmax _ _ a1 a2 a3 a4 a5 address
                Hb5 H1 H2 H3 H4 H5) as Hw6.
  set (s5 := store a5 85 (store a4 170 (store a3 128
               (store a2 85 (store a1 170 f))))) in *.
  pose proof (store_buffered _ Hmax _ _ _ address 48 Hb5 ltac:(simpl; lia))
    as Hb6.
  destruct (eraseSector_effect _ (store address 48 s5)
              (mkAmdCmd address 48) sector sectorSize offset
              (proj1 Hb6) Hg)
    as (p & Hp & Hf & Ht).
  rewrite Hp in Hw6.
  destruct (reset_fields p) as (Rc & Rs & Rr & _).
  exists (reset p). split.
  { rewrite Hrun, Hrun5. cbn [write_all]. unfold bind, ret.
    now rewrite Hw6. }
  split; [exact Rc |]. split; [exact Rs |]. rewrite Rr. split.
  - intros Hno. now rewrite (Hf Hno).
  - intros Hyes. destruct (Ht Hyes) as (wa & bytes & Hwa & Hram & Ep).
    assert (Hwa' : at_index (writeAddress f) sector = Done wa) by exact Hwa.
    assert (Hram' : ram f = Some bytes) by exact Hram.
    assert (Hrp : ram p = Some (take (Z.to_nat wa) bytes ++
                                replicate (Z.to_nat sectorSize) 255 ++
                                drop (Z.to_nat (wa + sectorSize)) bytes))
      by (now rewrite Ep).
    exists wa, bytes.
    split; [exact Hwa' |]. split; [exact Hram' |]. split; [exact Hrp |].
    intros o address' offset' Hat Hg2.
    destruct (getSectorInfo_finds _ f address' Hi)
      as (k & si & off & Hk & Hg' & Hoff).
    rewrite Hg2 in Hg'. injection Hg' as -> -> ->.
    destruct (ram_pointer_block _ f k si o Hi Hk ltac:(lia) Hat)
      as (b0 & Hb0 & Hwo & Ho & Hfit).
    rewrite Hram' in Hb0. injection Hb0 as <-.
    apply at_index_Done in Hwa'. rewrite Nat2Z.id in Hwa'.
    destruct Hwa' as [_ Hwa']. rewrite Hwo in Hwa'. injection Hwa' as <-.
    assert (Hsame : same_chip f (reset p)).
    { apply (same_chip_trans _ p); [| apply same_chip_reset].
      rewrite Ep. unfold same_chip. cbn. rewrite Hram'. cbn.
      rewrite !length_app, length_take, length_replicate, length_drop.
      repeat (split; [reflexivity |]). f_equal. lia. }
    eapply (peek_idle_ram f (reset p) address' _ _ _ o _ _ Hsame Rs Hg2 Hat);
      [rewrite Rr; exact Hrp | lia |].
    rewrite lookup_app_r by (rewrite length_take; lia).
    rewrite lookup_app_l by (rewrite length_take, length_replicate; lia).
    apply lookup_replicate_2. rewrite length_take. lia.
Qed.

Lemma erase_sector_command_fills_sector_witness :
  exists g,
    write_all 8
      [(1365, 170); (682, 85); (1365, 128); (1365, 170); (682, 85); (17, 48)]
      example_flash
      = Done (tt, g) /\
    cmdIdx g = 0 /\ state g = ST_IDLE /\
    (isSectorWritable example_flash 1 = Done false ->
     ram g = ram example_flash) /\
    (isSectorWritable example_flash 1 = Done true ->
     exists wa bytes,
       at_index (writeAddress example_flash) 1 = Done wa /\
       ram example_flash = Some bytes /\
       ram g = Some (take (Z.to_nat wa) bytes ++
                     replicate (Z.to_nat 16) 255 ++
                     drop (Z.to_nat (wa + 16)) bytes) /\
       (forall o address' offset',
          at_index (readAddress example_flash) 1 = Done (RamPtr o) ->
          getSectorInfo example_flash address' = Done (1, 16, offset') ->
          peek g address' = Done 255)).
Proof.
  apply (erase_sector_command_fills_sector 8 example_flash
           1365 682 1365 1365 682 17 1 16 1);
    [lia | exact example_flash_initialised | reflexivity ..].
Defined.

(** X21: the erase-chip command, five command bytes followed by 0x10 at
    any address, sets every byte of the SRAM to 0xFF, whatever the
    write-protect pin says, so that [sramEmpty] holds of it and every
    address of a sector that is read from the SRAM reads as 0xFF; a flash
    without SRAM stays without.  The chip is idle afterwards with the
    command index at 0. *)
Theorem erase_chip_command_fills_sram (MAX_CMD_SIZE : Z) (f : Flash)
    (a1 a2 a3 a4 a5 address : Z) :
  6 <= MAX_CMD_SIZE -> initialised MAX_CMD_SIZE f -> cmdIdx f = 0 ->
  command_address (use12bitAddressing f) a1 = 1365 ->
  command_address (use12bitAddressing f) a2 = 682 ->
  command_address (use12bitAddressing f) a3 = 1365 ->
  command_address (use12bitAddressing f) a4 = 1365 ->
  command_address (use12bitAddressing f) a5 = 682 ->
  exists g,
    write_all MAX_CMD_SIZE
      [(a1, 170); (a2, 85); (a3, 128); (a4, 170); (a5, 85); (address, 16)] f
      = Done (tt, g) /\
    cmdIdx g = 0 /\ state g = ST_IDLE /\
    ram g = option_map (fun bytes => replicate (length bytes) 255) (ram f) /\
    (forall bytes, ram g = Some bytes -> sramEmpty bytes = true) /\
    (forall address' sector sectorSize offset o,
       getSectorInfo f address' = Done (sector, sectorSize, offset) ->
       at_index (readAddress f) sector = Done (RamPtr o) ->
       peek g address' = Done 255).
Proof.
  intros Hmax Hi Hidx H1 H2 H3 H4 H5.
  pose proof (buffered_nil _ _ f Hi Hidx eq_refl) as Hb.
  destruct (command_start _ Hmax _ f a1 a2
              [(a3, 128); (a4, 170); (a5, 85); (address, 16)] Hb H1 H2)
    as [Hrun Hb2].
  destruct (erase_middle _ Hmax _ _ a1 a2 a3 a4 a5 [(address, 16)]
              Hb2 H1 H2 H3 H4 H5) as [Hrun5 Hb5].
  pose proof (erase_chip_sixth _ Hmax _ _ a1 a2 a3 a4 a5 address
                Hb5 H1 H2 H3 H4 H5) as Hw6.
  set (s5 := store a5 85 (store a4 170 (store a3 128
               (store a2 85 (store a1 170 f))))) in *.
  change (ram s5) with (ram f) in Hw6.
  set (p := set_ram (option_map (fun bytes => replicate (length bytes) 255)
                                (ram f)) (store address 16 s5)) in *.
  destruct (reset_fields p) as (Rc & Rs & Rr & _).
  assert (Hram : ram (reset p)
                 = option_map (fun bytes => replicate (length bytes) 255)
                              (ram f))
    by (rewrite Rr; reflexivity).
  exists (reset p). split.
  { rewrite Hrun, Hrun5. cbn [write_all]. unfold bind, ret.
    now rewrite Hw6. }
  split; [exact Rc |]. split; [exact Rs |]. split; [exact Hram |]. split.
  - intros bytes Hbytes. rewrite Hram in Hbytes.
    destruct (ram f) as [old |]; [| discriminate].
    injection Hbytes as <-. apply sramEmpty_replicate.
  - intros address' sector sectorSize offset o Hg Hat.
    destruct (getSectorInfo_finds _ f address' Hi)
      as (k & si & off & Hk & Hg' & Hoff).
    rewrite Hg in Hg'. injection Hg' as -> -> ->.
    destruct (ram_pointer_block _ f k si o Hi Hk ltac:(lia) Hat)
      as (b0 & Hb0 & _ & Ho & Hfit).
    assert (Hsame : same_chip f (reset p)).
    { apply (same_chip_trans _ p); [| apply same_chip_reset].
      subst p. unfold same_chip. cbn. rewrite Hb0. cbn.
      rewrite length_replicate. auto 10. }
    rewrite Hb0 in Hram. cbn [option_map] in Hram.
    eapply (peek_idle_ram f (reset p) address' _ _ _ o _ _ Hsame Rs Hg Hat
             Hram); [lia |].
    apply lookup_replicate_2. lia.
Qed.

Lemma erase_chip_command_fills_sram_witness :
  exists g,
    write_all 8
      [(1365, 170); (682, 85); (1365, 128); (1365, 170); (682, 85); (0, 16)]
      example_flash
      = Done (tt, g) /\
    cmdIdx g = 0 /\ state g = ST_IDLE /\
    ram g = option_map (fun bytes => replicate (length bytes) 255)
                       (ram example_flash) /\
    (forall bytes, ram g = Some bytes -> sramEmpty bytes = true) /\
    (forall address' sector sectorSize offset o,
       getSectorInfo example_flash address' = Done (sector, sectorSize, offset) ->
       at_index (readAddress example_flash) sector = Done (RamPtr o) ->
       peek g address' = Done 255).
Proof.
  apply (erase_chip_command_fills_sram 8 example_flash
           1365 682 1365 1365 682 0);
    [lia | exact example_flash_initialised | reflexivity ..].
Defined.

(** *** Command matching and reads *)

(** C8: on a flash as [init] leaves it, with a command buffer of at least
    six entries, and from the reset state (command index 0, state ST_IDLE),
    every finite sequence of [write] calls returns, so that no assertion
    fails, and leaves the command index between 0 and 5, hence below
    [MAX_CMD_SIZE]; one more [write] then returns too, with the index one
    higher or back at 0. *)
Theorem cmdIdx_below_six_after_writes (MAX_CMD_SIZE : Z) (f : Flash)
    (ws : list (Z * Z)) :
  6 <= MAX_CMD_SIZE ->
  initialised MAX_CMD_SIZE f ->
  cmdIdx f = 0 -> state f = ST_IDLE ->
  exists f',
    write_all MAX_CMD_SIZE ws f = Done (tt, f') /\
    0 <= cmdIdx f' <= 5 /\ cmdIdx f' < MAX_CMD_SIZE /\
    (forall address v,
       exists f'',
         write MAX_CMD_SIZE address v f' = Done (tt, f'') /\
         (cmdIdx f'' = cmdIdx f' + 1 \/ cmdIdx f'' = 0) /\
         0 <= cmdIdx f'' <= 5).
Proof.
  intros Hmax Hi Hidx _.
  destruct (write_all_keeps_between MAX_CMD_SIZE Hmax ws f)
    as ([] & f' & Hrun & Hi' & Hidx').
  { split; [exact Hi | lia]. }
  exists f'. split; [exact Hrun |]. split; [exact Hidx' |]. split; [lia |].
  intros address v.
  destruct (write_step MAX_CMD_SIZE Hmax (cmdIdx f') address v Hidx' f')
    as ([] & f'' & Hw & _ & Hnext).
  { split; [exact Hi' | reflexivity]. }
  exists f''. split; [exact Hw |]. lia.
Qed.

Lemma cmdIdx_below_six_after_writes_witness :
  6 <= 8 /\ initialised 8 example_flash /\
  cmdIdx example_flash = 0 /\ state example_flash = ST_IDLE /\
  exists f',
    write_all 8 [(1365, 170); (682, 85); (1365, 128); (1365, 170);
                 (682, 85); (17, 48); (1365, 170)] example_flash
      = Done (tt, f') /\
    0 <= cmdIdx f' <= 5.
Proof.
  split; [lia |]. split; [exact example_flash_initialised |].
  split; [reflexivity |]. split; [reflexivity |].
  destruct (cmdIdx_below_six_after_writes 8 example_flash
              [(1365, 170); (682, 85); (1365, 128); (1365, 170);
               (682, 85); (17, 48); (1365, 170)]
              ltac:(lia) example_flash_initialised eq_refl eq_refl)
    as (f' & Hrun & Hidx & _).
  exists f'. split; [exact Hrun | exact Hidx].
Defined.

(** C10: [read] gives what [peek] gives and leaves every member of the
    flash as it was, whatever the mode and the command buffer are; on a
    flash as [init] leaves it both return a byte. *)
Theorem read_is_peek_and_keeps_state :
  (forall (f : Flash) (address : Z),
     read address f =
     match peek f address with
     | Done v => Done (v, f)
     | Abort e => Abort e
     end) /\
  (forall (MAX_CMD_SIZE : Z) (f : Flash) (address : Z),
     initialised MAX_CMD_SIZE f ->
     exists v, peek f address = Done v /\ read address f = Done (v, f)).
Proof.
  split.
  - intros f address. reflexivity.
  - intros MAX_CMD_SIZE f address Hi.
    destruct (peek_total MAX_CMD_SIZE f address Hi) as [v Hv].
    exists v. split; [exact Hv |]. unfold read, lift. now rewrite Hv.
Qed.

Lemma read_is_peek_and_keeps_state_witness :
  initialised 8 example_flash /\
  exists v,
    peek example_flash 17 = Done v /\
    read 17 example_flash = Done (v, example_flash).
Proof.
  split; [exact example_flash_initialised |].
  destruct read_is_peek_and_keeps_state as [_ Htotal].
  exact (Htotal 8 example_flash 17 example_flash_initialised).
Defined.

End FlashProps.

(** ** Cache invalidation on a mode change *)

Module InvalidationProps.

(** C3: [AmdFlash::setState] with a state other than the current one stores
    the new state and invalidates the memory cache over 0x0000..0x10000, and
    with the current state it changes nothing; [MSXPac::checkSramEnable]
    stores the new value of the flag and invalidates the same range when the
    enable condition differs from the flag, and changes nothing when they
    agree.  No other member is touched. *)
Theorem mode_change_invalidates_full_range :
  (forall (f : AmdFlash.Flash) (newState : AmdFlash.State),
     (AmdFlash.state f <> newState ->
      AmdFlash.setState newState f =
        AmdFlash.mkFlash
          (AmdFlash.sectorInfo f) (AmdFlash.writeAddress f)
          (AmdFlash.readAddress f) (AmdFlash.rom f) (AmdFlash.size f)
          (AmdFlash.ID f) (AmdFlash.use12bitAddressing f) (AmdFlash.ram f)
          (AmdFlash.cmd f) (AmdFlash.cmdIdx f) newState
          (AmdFlash.vppWpPinLow f)
          (AmdFlash.invalidated f ++ [mkInvalidate 0 65536])) /\
     (AmdFlash.state f = newState -> AmdFlash.setState newState f = f)) /\
  (forall (p : MSXPac.Pac),
     let newEnabled := (MSXPac.r1ffe p =? 77) && (MSXPac.r1fff p =? 105) in
     (MSXPac.sramEnabled p <> newEnabled ->
      MSXPac.checkSramEnable p =
        MSXPac.mkPac (MSXPac.sram p) (MSXPac.r1ffe p) (MSXPac.r1fff p)
                     newEnabled
                     (MSXPac.invalidated p ++ [mkInvalidate 0 65536])) /\
     (MSXPac.sramEnabled p = newEnabled -> MSXPac.checkSramEnable p = p)).
Proof.
  split.
  - intros f newState. unfold AmdFlash.setState. split.
    + intros Hne.
      destruct (AmdFlash.state f) eqn:E, newState; simpl;
        try contradiction; reflexivity.
    + intros <-. now destruct (AmdFlash.state f).
  - intros p newEnabled. unfold MSXPac.checkSramEnable. fold newEnabled.
    split.
    + intros Hne.
      destruct (MSXPac.sramEnabled p), newEnabled; simpl;
        try contradiction; reflexivity.
    + intros ->. now rewrite eqb_reflx.
Qed.

Lemma mode_change_invalidates_full_range_witness :
  AmdFlash.state AmdFlash.example_flash <> AmdFlash.ST_IDENT /\
  AmdFlash.invalidated
    (AmdFlash.setState AmdFlash.ST_IDENT AmdFlash.example_flash)
    = [mkInvalidate 0 65536] /\
  AmdFlash.setState AmdFlash.ST_IDLE AmdFlash.example_flash
    = AmdFlash.example_flash /\
  MSXPac.checkSramEnable (MSXPac.mkPac [] 77 105 false [])
    = MSXPac.mkPac [] 77 105 true [mkInvalidate 0 65536] /\
  MSXPac.checkSramEnable (MSXPac.mkPac [] 77 0 false [])
    = MSXPac.mkPac [] 77 0 false [].
Proof.
  destruct mode_change_invalidates_full_range as [Hflash Hpac].
  assert (Hne : AmdFlash.state AmdFlash.example_flash <> AmdFlash.ST_IDENT)
    by discriminate.
  split; [exact Hne |]. split; [| split; [| split]].
  - destruct (Hflash AmdFlash.example_flash AmdFlash.ST_IDENT) as [Hchg _].
    rewrite (Hchg Hne). reflexivity.
  - destruct (Hflash AmdFlash.example_flash AmdFlash.ST_IDLE) as [_ Hsame].
    exact (Hsame eq_refl).
  - destruct (Hpac (MSXPac.mkPac [] 77 105 false [])) as [Hchg _].
    apply Hchg. discriminate.
  - destruct (Hpac (MSXPac.mkPac [] 77 0 false [])) as [_ Hsame].
    apply Hsame. reflexivity.
Defined.

End InvalidationProps.
